(** * BCML map merger ([bcml/mergers/mubin.py]): a shallow embedding

    The development follows the Python module function by function:
    [consolidate_map_files], [get_stock_map], [get_modded_map],
    [get_map_diff], [generate_modded_map_log], [merge_map],
    [get_dungeonstatic_diff], the merge loop of [merge_dungeonstatic],
    [MapMerger.generate_diff], [MapMerger.consolidate_diffs],
    [MapMerger.perform_merge] and [DungeonStaticMerger.consolidate_diffs],
    together with the helpers of [bcml/util.py] they call and [dict_merge].
    Python dicts are insertion-ordered association lists, Python sets are
    [gset]s, exceptions are an error result, and the file system is an
    explicit state. *)

From Stdlib Require Import ZArith String Ascii List Lia.
From Stdlib Require OrderedTypeEx.
From stdpp Require Import base decidable option list gmap strings pretty sorting.

Open Scope string_scope.
Open Scope Z_scope.
Open Scope list_scope.

#[local] Set Warnings "-clear-no-such-hyp".

(** ** Python values *)

(** Python's [==] on the values the merger does not look into (BYML nodes:
    ints, floats, strings, nested lists and dicts).  Nothing is assumed
    about it: on floats it is not even reflexive. *)
Class PyEq (A : Type) := py_eq : A → A → bool.
Global Hint Mode PyEq ! : typeclass_instances.

Definition py_ne `{PyEq A} (x y : A) : bool := negb (py_eq x y).

Global Instance Z_py_eq : PyEq Z := Z.eqb.
Global Instance string_py_eq : PyEq string := String.eqb.

(** [==] on lists: same length and pointwise [==]. *)
Fixpoint list_py_eq `{PyEq A} (l k : list A) : bool :=
  match l, k with
  | [], [] => true
  | x :: l', y :: k' => py_eq x y && list_py_eq l' k'
  | _, _ => false
  end.
Global Instance list_PyEq `{PyEq A} : PyEq (list A) := list_py_eq.

(** A key that may be missing from a dict: both missing, or both present
    and [==]. *)
Global Instance option_PyEq `{PyEq A} : PyEq (option A) := λ x y,
  match x, y with
  | None, None => true
  | Some a, Some b => py_eq a b
  | _, _ => false
  end.

(** Exceptions the modelled code raises or catches. *)
Inductive PyError :=
  | FileNotFoundError
  | KeyError
  | ValueError
  | IndexError
  | TypeError
  | IsADirectoryError
  | StopIteration.

Global Instance PyError_eq_dec : EqDecision PyError.
Proof. solve_decision. Defined.

Definition result (A : Type) : Type := PyError + A.

Definition raise {A} (e : PyError) : result A := inl e.

Global Instance result_ret : MRet result := λ A x, inr x.
Global Instance result_bind : MBind result := λ A B k m,
  match m with
  | inl e => inl e
  | inr x => k x
  end.

Global Instance result_fmap : FMap result := λ A B f m,
  match m with
  | inl e => inl e
  | inr x => inr (f x)
  end.

(** [try: m except e: h] *)
Definition try_except {A} (m : result A) (e : PyError) (h : result A) : result A :=
  match m with
  | inl e' => if decide (e' = e) then h else inl e'
  | inr x => inr x
  end.

(** [x in l] on a list. *)
Definition py_in `{EqDecision A} (x : A) (l : list A) : bool := bool_decide (x ∈ l).

(** [l.index(x)]: position of the first occurrence; [None] is ValueError. *)
Definition index `{EqDecision A} (l : list A) (x : A) : option nat :=
  fst <$> list_find (λ y, y = x) l.

(** [l.pop(i)] for [i ≥ 0]: IndexError out of range. *)
Definition pop {A} (l : list A) (i : nat) : result (list A) :=
  if decide (i < length l)%nat then mret (delete i l) else raise IndexError.

(** A dict: an association list in insertion order, one binding per key. *)
Definition dict (K V : Type) : Type := list (K * V).

(** [d.get(k)]: [None] where [d[k]] raises KeyError. *)
Fixpoint dict_get `{EqDecision K} {V} (d : dict K V) (k : K) : option V :=
  match d with
  | [] => None
  | (k', v) :: d' => if decide (k' = k) then Some v else dict_get d' k
  end.

(** [d[k] = v]: a present key keeps its place, a new one goes last. *)
Fixpoint dict_set `{EqDecision K} {V} (d : dict K V) (k : K) (v : V) : dict K V :=
  match d with
  | [] => [(k, v)]
  | (k', v') :: d' => if decide (k' = k) then (k, v) :: d' else (k', v') :: dict_set d' k v
  end.

Definition dict_has `{EqDecision K} {V} (d : dict K V) (k : K) : bool :=
  bool_decide (k ∈ d.*1).

(** [for x in l: s = f(s, x)] where the body may raise. *)
Fixpoint for_each {S A} (f : S → A → result S) (s : S) (l : list A) : result S :=
  match l with
  | [] => mret s
  | x :: l' => s' ← f s x; for_each f s' l'
  end.

(** [s.split(sep)] for a one-character separator. *)
Fixpoint split (sep : ascii) (s : string) : list string :=
  match s with
  | EmptyString => [EmptyString]
  | String c s' =>
      if decide (c = sep) then EmptyString :: split sep s'
      else
        match split sep s' with
        | w :: ws => String c w :: ws
        | [] => [String c EmptyString]
        end
  end.

(** A stable sort: [x] goes in front of the first element it may precede. *)
Fixpoint insert_by {A} (le : A → A → bool) (x : A) (l : list A) : list A :=
  match l with
  | [] => [x]
  | y :: l' => if le x y then x :: y :: l' else y :: insert_by le x l'
  end.

(** [sorted(l, key=key)] and [l.sort(key=key)]. *)
Definition sort_by_key {A} (key : A → Z) (l : list A) : list A :=
  foldr (insert_by (λ x y, key x <=? key y)) [] l.

(** [sorted(l, key=key, reverse=True)]: descending, equal keys in their
    original order. *)
Definition sort_by_key_reverse {A} (key : A → Z) (l : list A) : list A :=
  foldr (insert_by (λ x y, key y <=? key x)) [] l.

(** [l.remove(x)] where [x] is the element at position [p] of [l]: the
    first element that is [x] itself or [==] to it goes. *)
Fixpoint py_remove `{PyEq A} (p : nat) (x : A) (l : list A) {struct l} : list A :=
  match l with
  | [] => []
  | e :: l' =>
      match p with
      | O => l'
      | S p' => if py_eq e x then l' else e :: py_remove p' x l'
      end
  end.

(** [Map = namedtuple('Map', 'section type')] *)
Record Map := mkMap {
  section : string;
  type : string
}.

Global Instance Map_eq_dec : EqDecision Map.
Proof. solve_decision. Defined.

(** [Map] applied to the parts of [file.split('_')]: TypeError unless there
    are exactly two. *)
Definition Map_of_file (file : string) : result Map :=
  match split "_"%char file with
  | [s; t] => mret (mkMap s t)
  | _ => raise TypeError
  end.

(** [sep.join(l)] *)
Fixpoint join (sep : ascii) (l : list string) : string :=
  match l with
  | [] => ""
  | [s] => s
  | s :: l' => s +:+ String sep (join sep l')
  end.

(** ** Data model *)

Section Model.
Context {Value : Type} `{!PyEq Value}.

(** One entry of an object's [LinksToObj] list. *)
Record Link := mkLink {
  DestUnitHashId : Z;
  link_fields : Value
}.

(** One element of [Objs]: the keys the merger reads, and the rest. *)
Record Actor := mkActor {
  HashId : Z;
  UnitConfigName : string;
  LinksToObj : option (list Link);
  fields : Value
}.

Global Instance Link_PyEq : PyEq Link := λ a b,
  py_eq (DestUnitHashId a) (DestUnitHashId b) && py_eq (link_fields a) (link_fields b).

Global Instance Actor_PyEq : PyEq Actor := λ a b,
  py_eq (HashId a) (HashId b) && py_eq (UnitConfigName a) (UnitConfigName b)
  && py_eq (LinksToObj a) (LinksToObj b) && py_eq (fields a) (fields b).

(** The dict [{'add': [...], 'mod': {...}, 'del': [...]}], per mod and
    also consolidated. *)
Record DiffRecord := mkDiff {
  diff_add : list Actor;
  diff_mod : dict Z Actor;
  diff_del : list Z
}.

(** ** [get_map_diff], on a loaded baseline *)

Definition hashes (objs : list Actor) : list Z := HashId <$> objs.

(** [base_links]: every [DestUnitHashId] a baseline object links to; left
    empty when [link_del] is set. *)
Definition base_links_of (link_del : bool) (base_objs : list Actor) : gset Z :=
  if link_del then ∅
  else
    foldl (λ (links : gset Z) obj,
             match LinksToObj obj with
             | Some ls => links ∪ list_to_set (DestUnitHashId <$> ls)
             | None => links
             end) ∅ base_objs.

(** The loop over [mod_map['Objs']] filling [add] and [mod]. *)
Definition diff_step (base_objs : list Actor) (base_hashes : list Z)
    (acc : list Actor * dict Z Actor) (obj : Actor) : list Actor * dict Z Actor :=
  if negb (py_in (HashId obj) base_hashes) then (acc.1 ++ [obj], acc.2)
  else
    match index base_hashes (HashId obj) ≫= (base_objs !!.) with
    | Some base_obj =>
        if py_ne obj base_obj then (acc.1, dict_set acc.2 (HashId obj) obj) else acc
    | None => acc
    end.

Definition get_map_diff_loaded (base_objs mod_objs : list Actor)
    (no_del link_del : bool) : DiffRecord :=
  let base_hashes := hashes base_objs in
  let base_links := base_links_of link_del base_objs in
  let mod_hashes := hashes mod_objs in
  let am := foldl (diff_step base_objs base_hashes) ([], []) mod_objs in
  {| diff_add := am.1;
     diff_mod := am.2;
     diff_del :=
       List.filter
         (λ hash_id,
            negb (py_in hash_id mod_hashes) && negb no_del
            && negb (negb link_del && bool_decide (hash_id ∈ base_links)))
         base_hashes |}.

(** ** [MapMerger.consolidate_diffs] *)

(** What one mod logged: file name ([section_type]) to diff. *)
Definition ModDiff : Type := dict string DiffRecord.

(** [a_map == mod_diff] for a namedtuple and a dict: neither type knows how
    to compare with the other, so Python answers False. *)
Definition Map_eq_ModDiff (a_map : Map) (mod_diff : ModDiff) : bool := false.

(** [a_map in diffs], on the list of the mods' logs. *)
Definition Map_in_diffs (a_map : Map) (diffs : list ModDiff) : bool :=
  existsb (Map_eq_ModDiff a_map) diffs.

(** The body of the grouping loop:
    [if a_map not in diffs: a_diffs[a_map] = []] and then
    [a_diffs[a_map].append(diff)]. *)
Definition group_step (diffs : list ModDiff) (a_diffs : dict Map (list DiffRecord))
    (entry : string * DiffRecord) : result (dict Map (list DiffRecord)) :=
  a_map ← Map_of_file entry.1;
  let a_diffs := if negb (Map_in_diffs a_map diffs) then dict_set a_diffs a_map [] else a_diffs in
  match dict_get a_diffs a_map with
  | Some mods => mret (dict_set a_diffs a_map (mods ++ [entry.2]))
  | None => raise KeyError
  end.

Definition group_diffs (diffs : list ModDiff) : result (dict Map (list DiffRecord)) :=
  for_each (for_each (group_step diffs)) [] diffs.

(** [list(set([hash_id for hashes in [mod['del'] for mod in mods]
               for hash_id in hashes]))] *)
Definition consolidate_del (mods : list DiffRecord) : list Z :=
  elements (list_to_set (mods ≫= diff_del) : gset Z).

(** [for mod in mods: for hash_id, actor in mod['mod'].items():
       c_diffs[file]['mod'][hash_id] = deepcopy(actor)] *)
Definition consolidate_mod (mods : list DiffRecord) : dict Z Actor :=
  foldl (λ c_mod mod_, foldl (λ c kv, dict_set c kv.1 kv.2) c_mod (diff_mod mod_)) [] mods.

(** One turn of the inner [add] loop; the state is [add_hashes] and the
    list under construction. *)
Definition add_step (acc : list Z * list Actor) (actor : Actor) : list Z * list Actor :=
  if negb (py_in (HashId actor) acc.1) then (acc.1 ++ [HashId actor], acc.2 ++ [actor])
  else acc.

(** [for mod in reversed(mods): for actor in mod['add']: ...] *)
Definition consolidate_add (mods : list DiffRecord) : list Actor :=
  (foldl (λ acc mod_, foldl add_step acc (diff_add mod_)) ([], []) (reverse mods)).2.

Definition consolidate_mods (mods : list DiffRecord) : DiffRecord :=
  {| diff_add := consolidate_add mods;
     diff_mod := consolidate_mod mods;
     diff_del := consolidate_del mods |}.

Definition consolidate_diffs (diffs : list ModDiff) : result (dict Map DiffRecord) :=
  a_diffs ← group_diffs diffs;
  mret (foldl (λ c_diffs fm, dict_set c_diffs fm.1 (consolidate_mods fm.2)) [] a_diffs).

(** ** [merge_map], from the loaded stock map to the sorted object list *)

(** The [mod] loop: replace in place, or queue as an addition when
    [stock_hashes.index] raises ValueError.  [index] answers a position
    below [len(stock_hashes)], which is the length of the object list
    throughout this loop, so the assignment is never out of range. *)
Definition mod_step (stock_hashes : list Z) (acc : list Actor * list Actor)
    (kv : Z * Actor) : list Actor * list Actor :=
  match index stock_hashes kv.1 with
  | Some i => (<[i:=kv.2]> acc.1, acc.2)
  | None => (acc.1, acc.2 ++ [kv.2])
  end.

(** The sort key of the deletion loop. *)
Definition del_key (stock_hashes : list Z) (change : Z) : Z :=
  match index stock_hashes change with
  | Some i => Z.of_nat i
  | None => -1
  end.

(** The body of the deletion loop: [pop] at the stock position; on
    IndexError look the object up by [HashId] and [remove] it; when there
    is none the loop only prints. *)
Definition del_step (stock_hashes : list Z) (objs : list Actor) (map_del : Z) : list Actor :=
  if py_in map_del stock_hashes then
    match index stock_hashes map_del with
    | Some i =>
        match pop objs i with
        | inr objs' => objs'
        | inl _ =>
            match list_find (λ actor, HashId actor = map_del) objs with
            | Some (p, obj_to_delete) => py_remove p obj_to_delete objs
            | None => objs
            end
        end
    | None => objs
    end
  else objs.

Definition merge_objs (stock_objs : list Actor) (changes : DiffRecord) (no_del : bool)
    : list Actor :=
  let stock_hashes := hashes stock_objs in
  let ma := foldl (mod_step stock_hashes) (stock_objs, diff_add changes) (diff_mod changes) in
  let objs :=
    if negb no_del then
      foldl (del_step stock_hashes) ma.1
        (sort_by_key_reverse (del_key stock_hashes) (diff_del changes))
    else ma.1 in
  sort_by_key HashId
    (objs ++ filter (λ change, HashId change ∉ stock_hashes) ma.2).

(** ** [get_dungeonstatic_diff], on the two loaded [StartPos] lists *)

(** One shrine entrance of [Static.smubin]. *)
Record Dungeon := mkDungeon {
  dungeon_Map : string;
  Rotate : Value;
  Translate : Value;
  dungeon_fields : Value
}.

(** A value of the diff dict: the whole modified record, or a dict holding
    some of ['Rotate'] and ['Translate']. *)
Inductive DungeonDiff :=
  | Whole (dungeon : Dungeon)
  | Partial (rotate translate : option Value).

(** [d['Translate'] = v] on a value of the diff dict.  The loop only does
    it on a dict it made itself: the whole records sit under names that
    are not in the stock list. *)
Definition set_Translate (v : Value) (d : DungeonDiff) : DungeonDiff :=
  match d with
  | Whole dungeon =>
      Whole (mkDungeon (dungeon_Map dungeon) (Rotate dungeon) v (dungeon_fields dungeon))
  | Partial rotate _ => Partial rotate (Some v)
  end.

Definition dungeon_step (base_pos : list Dungeon) (base_dungeons : list string)
    (diffs : dict string DungeonDiff) (dungeon : Dungeon) : dict string DungeonDiff :=
  let name := dungeon_Map dungeon in
  if negb (py_in name base_dungeons) then dict_set diffs name (Whole dungeon)
  else
    match index base_dungeons name ≫= (base_pos !!.) with
    | Some base_dungeon =>
        let diffs :=
          if py_ne (Rotate dungeon) (Rotate base_dungeon)
          then dict_set diffs name (Partial (Some (Rotate dungeon)) None)
          else diffs in
        if py_ne (Translate dungeon) (Translate base_dungeon) then
          let diffs :=
            if negb (dict_has diffs name) then dict_set diffs name (Partial None None)
            else diffs in
          match dict_get diffs name with
          | Some d => dict_set diffs name (set_Translate (Translate dungeon) d)
          | None => diffs
          end
        else diffs
    | None => diffs
    end.

Definition dungeonstatic_diff (base_pos mod_pos : list Dungeon) : dict string DungeonDiff :=
  let base_dungeons := dungeon_Map <$> base_pos in
  foldl (dungeon_step base_pos base_dungeons) [] mod_pos.

(** ** [DungeonStaticMerger.consolidate_diffs] *)

(** [for diff in diffs: all_diffs.update(diff)] *)
Definition DungeonStaticMerger_consolidate_diffs (diffs : list (dict string DungeonDiff))
    : dict string DungeonDiff :=
  foldl (λ all_diffs diff, foldl (λ d kv, dict_set d kv.1 kv.2) all_diffs diff) [] diffs.

(** ** [merge_dungeonstatic], on the loaded [StartPos] list *)

(** [for key, value in diff.items(): record[key] = value] on a stock
    record.  A whole record brings every key of a record, so it replaces
    the stock one. *)
Definition update_dungeon (record : Dungeon) (diff : DungeonDiff) : Dungeon :=
  match diff with
  | Whole dungeon => dungeon
  | Partial rotate translate =>
      mkDungeon (dungeon_Map record) (default (Rotate record) rotate)
        (default (Translate record) translate) (dungeon_fields record)
  end.

(** The body of the loop over [diffs.items()].  The state is the stock
    records, which are updated in place at their stock position, and the
    diffs appended behind them. *)
Definition merge_dungeon_step (base_dungeons : list string)
    (start_pos : list Dungeon * list DungeonDiff)
    (item : string * DungeonDiff) : list Dungeon * list DungeonDiff :=
  if negb (py_in item.1 base_dungeons) then (start_pos.1, start_pos.2 ++ [item.2])
  else
    match index base_dungeons item.1 with
    | Some i => (alter (λ record, update_dungeon record item.2) i start_pos.1, start_pos.2)
    | None => start_pos
    end.

(** The [StartPos] list [merge_dungeonstatic] writes: an appended diff is
    a list element as it is, be it a whole record or not. *)
Definition dungeonstatic_merge (start_pos : list Dungeon)
    (diffs : dict string DungeonDiff) : list DungeonDiff :=
  let base_dungeons := dungeon_Map <$> start_pos in
  let merged := foldl (merge_dungeon_step base_dungeons) (start_pos, []) diffs in
  (Whole <$> merged.1) ++ merged.2.

End Model.

Arguments Link : clear implicits.
Arguments Actor : clear implicits.
Arguments DiffRecord : clear implicits.
Arguments ModDiff : clear implicits.
Arguments Dungeon : clear implicits.
Arguments DungeonDiff : clear implicits.

(** ** Files, settings and the libraries the module calls *)

(** A path, as its parts. *)
Abbreviation Path := (list string).

Abbreviation bytes := (list Byte.byte).

(** What the merger works on.  The file system, as far as it is used: the
    files, the directories, and the files written so far, in order.  The
    code makes a directory before it writes into it; the errors of a path
    whose parent is missing are not modelled.  And the two directories that
    [util] keeps in the function attributes [get_update_dir.update_dir] and
    [get_aoc_dir.aoc_dir], [None] as long as the attribute is not set. *)
Record World := mkWorld {
  files : gmap Path bytes;
  dirs : gset Path;
  written : list Path;
  update_dir_attr : option Path;
  aoc_dir_attr : option Path
}.

(** The saved settings, as [get_settings] has them cached, each directory
    key holding a string: the directories ([None] for an unset one, which
    is saved as the empty string), and the BCML data directory. *)
Record Settings := mkSettings {
  game_dir : option Path;
  update_dir : option Path;
  dlc_dir : option Path;
  data_dir : Path;
  wiiu : bool
}.

(** [path.exists()] *)
Definition path_exists (w : World) (p : Path) : bool :=
  bool_decide (p ∈ dom (files w)) || bool_decide (p ∈ dirs w).

(** [path.read_bytes()] *)
Definition read_bytes (w : World) (p : Path) : result bytes :=
  match files w !! p with
  | Some b => mret b
  | None => raise (if bool_decide (p ∈ dirs w) then IsADirectoryError else FileNotFoundError)
  end.

(** A path and everything above it. *)
Fixpoint inits (p : Path) : list Path :=
  match p with
  | [] => [[]]
  | x :: p' => [] :: ((x ::.) <$> inits p')
  end.

(** [path.parent] *)
Definition parent (p : Path) : Path := removelast p.

(** [s in t] on strings. *)
Fixpoint contains (s t : string) : bool :=
  String.prefix s t ||
  match t with
  | EmptyString => false
  | String _ t' => contains s t'
  end.

(** [if not map_bytes]: [None] and [b''] are both falsy. *)
Definition falsy (map_bytes : option bytes) : bool :=
  match map_bytes with
  | Some (_ :: _) => false
  | _ => true
  end.

(** Effects on the file system: a state that survives an exception. *)
Definition IO (A : Type) : Type := World → result A * World.

Global Instance IO_ret : MRet IO := λ A x w, (inr x, w).
Global Instance IO_bind : MBind IO := λ A B k m w,
  match m w with
  | (inl e, w') => (inl e, w')
  | (inr x, w') => k x w'
  end.

(** A computation that only reads. *)
Definition reading {A} (f : World → result A) : IO A := λ w, (f w, w).

(** [try: m except e: h], where [m] and [h] have effects. *)
Definition io_try_except {A} (m : IO A) (e : PyError) (h : IO A) : IO A := λ w,
  match m w with
  | (inl e', w') => if decide (e' = e) then h w' else (inl e', w')
  | (inr x, w') => (inr x, w')
  end.

(** [for x in l: s = f(s, x)] where the body has effects. *)
Fixpoint io_for_each {S A} (f : S → A → IO S) (s : S) (l : list A) : IO S :=
  match l with
  | [] => mret s
  | x :: l' => s' ← f s x; io_for_each f s' l'
  end.

(** [path.mkdir(parents=True, exist_ok=True)] *)
Definition mkdir_parents (p : Path) : IO unit := λ w,
  (inr (), mkWorld (files w) (dirs w ∪ list_to_set (inits p)) (written w)
             (update_dir_attr w) (aoc_dir_attr w)).

(** [path.write_bytes(data)], and [path.open('w')] followed by writes. *)
Definition write_bytes (p : Path) (data : bytes) : IO unit := λ w,
  (inr (), mkWorld (<[p:=data]> (files w)) (dirs w) (written w ++ [p])
             (update_dir_attr w) (aoc_dir_attr w)).

(** [shutil.rmtree(str(p), ignore_errors=True)] *)
Definition rmtree (p : Path) : IO unit := λ w,
  (inr (), mkWorld (filter (λ kv, ¬ p `prefix_of` kv.1) (files w))
             (filter (λ d, ¬ p `prefix_of` d) (dirs w)) (written w)
             (update_dir_attr w) (aoc_dir_attr w)).

(** [path.unlink()] *)
Definition unlink (p : Path) : IO unit := λ w,
  match files w !! p with
  | Some _ =>
      (inr (), mkWorld (delete p (files w)) (dirs w) (written w)
                 (update_dir_attr w) (aoc_dir_attr w))
  | None => (inl (if bool_decide (p ∈ dirs w) then IsADirectoryError else FileNotFoundError), w)
  end.

Fixpoint io_map {A B} (f : A → IO B) (l : list A) : IO (list B) :=
  match l with
  | [] => mret []
  | x :: l' => y ← f x; ys ← io_map f l'; mret (y :: ys)
  end.

(** [multiprocessing.Pool(processes=n)] for an [n] that is not [None]:
    the number of workers, ValueError below one. *)
Definition Pool (processes : Z) : result Z :=
  if decide (processes < 1) then raise ValueError else mret processes.

(** ** Paths and strings *)

(** [s.replace(old, new)] for a non-empty [old]: the occurrences of [old]
    are taken from left to right and do not overlap; [skip] counts the
    characters of an occurrence still to pass. *)
Fixpoint replace_from (old new : string) (skip : nat) (s : string) : string :=
  match s with
  | EmptyString => EmptyString
  | String c s' =>
      match skip with
      | S n => replace_from old new n s'
      | O =>
          if String.prefix old s
          then new +:+ replace_from old new (String.length old - 1) s'
          else String c (replace_from old new O s')
      end
  end.

Definition str_replace (old new s : string) : string := replace_from old new 0 s.

(** The number of slashes [s] starts with. *)
Fixpoint leading_slashes (s : string) : nat :=
  match s with
  | String c s' => if decide (c = "/"%char) then S (leading_slashes s') else O
  | EmptyString => O
  end.

(** [Path(s)], as [pathlib] parses a string on POSIX: the root, which is
    [/] or, after just two slashes, [//], then the names between slashes
    that are neither empty nor a dot. *)
Definition Path_of_string (s : string) : Path :=
  match leading_slashes s with
  | O => []
  | S (S O) => ["//"]
  | _ => ["/"]
  end ++ List.filter (λ x, negb (String.eqb x "") && negb (String.eqb x ".")) (split "/" s).

(** Whether the first part is a root. *)
Definition has_root (path : Path) : bool :=
  match path with
  | root :: _ => String.prefix "/" root
  | [] => false
  end.

(** [path.as_posix()], which on POSIX is [str(path)]. *)
Definition as_posix (path : Path) : string :=
  match path with
  | [] => "."
  | root :: names => if has_root path then root +:+ join "/" names else join "/" path
  end.

(** [a / b]: a [b] with a root stands for itself. *)
Definition path_div (a b : Path) : Path := if has_root b then b else a ++ b.

Definition backslash : string := String "092"%char EmptyString.

(** ** Paths of modded files *)

(** [path.name]: the last part, [''] for a path without parts. *)
Definition path_name (path : Path) : string := default "" (last path).

(** [s.rfind(c)] for a one-character [c]; [None] is [-1]. *)
Fixpoint rfind (c : ascii) (s : string) : option nat :=
  match s with
  | EmptyString => None
  | String c' s' =>
      match rfind c s' with
      | Some i => Some (S i)
      | None => if decide (c' = c) then Some O else None
      end
  end.

(** Where [pathlib] cuts a name into stem and suffix: at the last dot,
    unless it is the first or the last character. *)
Definition suffix_at (name : string) : option nat :=
  match rfind "."%char name with
  | Some i => if decide (0 < i < String.length name - 1)%nat then Some i else None
  | None => None
  end.

(** [path.suffix] *)
Definition path_suffix (path : Path) : string :=
  match suffix_at (path_name path) with
  | Some i => substring i (String.length (path_name path) - i) (path_name path)
  | None => ""
  end.

(** [path.stem] *)
Definition path_stem (path : Path) : string :=
  match suffix_at (path_name path) with
  | Some i => substring 0 i (path_name path)
  | None => path_name path
  end.

(** [a < b] on two [Map]s, which compare as tuples: by [section], then by
    [type]; strings compare by code point. *)
Definition Map_lt (a b : Map) : bool :=
  match String.compare (section a) (section b) with
  | Lt => true
  | Eq => String.ltb (type a) (type b)
  | Gt => false
  end.

Global Instance Map_countable : Countable Map :=
  inj_countable' (λ m, (section m, type m)) (λ st, mkMap st.1 st.2)
    (λ m, match m with mkMap _ _ => eq_refl end).

(** [sorted(l)]: ascending by [<], equal elements in their original
    order. *)
Definition sorted {A} (lt : A → A → bool) (l : list A) : list A :=
  foldr (insert_by (λ x y, negb (lt y x))) [] l.

(** [consolidate_map_files]: the set comprehension raises at the first
    stem that does not make a [Map]; the order in which [sorted] reads the
    set does not show in its result. *)
Definition consolidate_map_files (modded_maps : list Path) : result (list Map) :=
  maps ← for_each
    (λ (maps : gset Map) path,
       if String.prefix "_" (path_stem path) then mret maps
       else a_map ← Map_of_file (path_stem path); mret (maps ∪ {[a_map]}))
    ∅ modded_maps;
  mret (sorted Map_lt (elements maps)).

Section Merger.
Context {Value : Type} `{!PyEq Value}.

(** A parsed map unit: [Objs], and the keys the merger passes through. *)
Record Document := mkDocument {
  Objs : list (Actor Value);
  document_fields : Value
}.

(** What the module takes from outside [bcml]: Python's [str] on an
    object, the [byml], [syaz0], [sarc] and [rstb] libraries, and
    [multiprocessing.cpu_count]. *)
Record Libraries := mkLibraries {
  py_str : Actor Value → string;
  byml_parse : bytes → Document;
  byml_write : Document → bool → bytes;
  decompress : bytes → bytes;
  compress : bytes → bytes;
  read_file_and_make_sarc : bytes → option (dict string bytes);
  calculate_file_size_with_ext : bytes → bool → string → Z;
  cpu_count : Z
}.

Context (lib : Libraries) (settings : Settings).

(** *** [bcml/util.py] *)

Definition get_game_dir (w : World) : result Path :=
  match game_dir settings with
  | Some d => if bool_decide (d ∈ dirs w) then mret d else raise FileNotFoundError
  | None => raise FileNotFoundError
  end.

(** [Path(s)] for a saved directory [s]: [Path('')] is [Path('.')], the
    path without parts. *)
Definition saved_dir (s : option Path) : Path := default [] s.

(** [path.exists()] on it: [Path('.')] is the current directory, which
    exists. *)
Definition saved_dir_exists (w : World) (s : option Path) : bool :=
  match s with
  | Some d => path_exists w d
  | None => true
  end.

(** [get_update_dir]: the attribute is set before the directory is tested,
    so that only the first call tests it; later calls return what the
    attribute holds. *)
Definition get_update_dir : IO Path := λ w,
  match update_dir_attr w with
  | Some d => (inr d, w)
  | None =>
      let d := saved_dir (update_dir settings) in
      let w' := mkWorld (files w) (dirs w) (written w) (Some d) (aoc_dir_attr w) in
      if saved_dir_exists w (update_dir settings) then (inr d, w')
      else (inl FileNotFoundError, w')
  end.

(** [get_aoc_dir], which does the same with [dlc_dir]. *)
Definition get_aoc_dir : IO Path := λ w,
  match aoc_dir_attr w with
  | Some d => (inr d, w)
  | None =>
      let d := saved_dir (dlc_dir settings) in
      let w' := mkWorld (files w) (dirs w) (written w) (update_dir_attr w) (Some d) in
      if saved_dir_exists w (dlc_dir settings) then (inr d, w')
      else (inl FileNotFoundError, w')
  end.

(** [try: aoc_dir = get_aoc_dir() / except FileNotFoundError: aoc_dir = None] *)
Definition try_get_aoc_dir : IO (option Path) :=
  io_try_except (d ← get_aoc_dir; mret (Some d)) FileNotFoundError (mret None).

(** The path [get_game_file] makes of its argument, a [Path] or a [str],
    before it looks for it: a leading [content/] (or [content] and a
    backslash) has every occurrence of it removed. *)
Definition game_file_path (path : Path + string) : Path :=
  let s := match path with inl p => as_posix p | inr s => s end in
  if String.prefix "content/" s || String.prefix ("content" +:+ backslash) s
  then Path_of_string (str_replace ("content" +:+ backslash) ""
                         (str_replace "content/" "" s))
  else match path with inl p => p | inr s => Path_of_string s end.

(** The path of a DLC file below the DLC directory: the four ways of
    writing the DLC prefix are removed wherever they occur. *)
Definition strip_aoc (path : Path) : Path :=
  Path_of_string
    (str_replace "aoc/0010/" ""
       (str_replace "aoc/content/" ""
          (str_replace "aoc/0010/content/" ""
             (str_replace "aoc/content/0010/" "" (as_posix path))))).

(** [get_game_file(path, aoc)] *)
Definition get_game_file (path : Path + string) (aoc : bool) : IO Path :=
  let path := game_file_path path in
  game ← reading get_game_dir;
  update ← get_update_dir;
  aoc_dir ← try_get_aoc_dir;
  reading (λ w,
    if bool_decide ("aoc" ∈ path) || aoc then
      match aoc_dir with
      | Some d =>
          let path := strip_aoc path in
          if path_exists w (path_div d path) then mret (path_div d path)
          else raise FileNotFoundError
      | None => raise FileNotFoundError
      end
    else if path_exists w (path_div update path) then mret (path_div update path)
    else if path_exists w (path_div game path) then mret (path_div game path)
    else
      match aoc_dir with
      | Some d =>
          if path_exists w (path_div d path) then mret (path_div d path)
          else raise FileNotFoundError
      | None => raise FileNotFoundError
      end).

Definition get_data_dir : IO Path :=
  exists_ ← reading (λ w, mret (path_exists w (data_dir settings)));
  (if negb exists_ then mkdir_parents (data_dir settings) else mret ());;
  mret (data_dir settings).

Definition get_modpack_dir : IO Path :=
  d ← get_data_dir; mret (d ++ ["mods"]).

Definition nl : string := String "010"%char EmptyString.

Definition rules_txt : bytes :=
  list_byte_of_string
    ("[Definition]" +:+ nl +:+
     "titleIds = 00050000101C9300,00050000101C9400,00050000101C9500" +:+ nl +:+
     "name = BCML" +:+ nl +:+
     "path = The Legend of Zelda: Breath of the Wild/Mods/BCML" +:+ nl +:+
     "description = Complete pack of mods merged using BCML" +:+ nl +:+
     "version = 4" +:+ nl +:+
     "fsPriority = 9999").

Definition create_bcml_graphicpack_if_needed : IO unit :=
  d ← get_modpack_dir;
  let bcml_mod_dir := d ++ ["9999_BCML"] in
  mkdir_parents (bcml_mod_dir ++ ["logs"]);;
  let rules := bcml_mod_dir ++ ["rules.txt"] in
  exists_ ← reading (λ w, mret (path_exists w rules));
  if negb exists_ then write_bytes rules rules_txt else mret ().

Definition get_master_modpack_dir : IO Path :=
  d ← get_modpack_dir;
  let master := d ++ ["9999_BCML"] in
  exists_ ← reading (λ w, mret (path_exists w (master ++ ["rules.txt"])));
  (if negb exists_ then create_bcml_graphicpack_if_needed else mret ());;
  mret master.

(** *** [get_stock_map] *)

Definition smubin_name (map_unit : Map) : string :=
  section map_unit +:+ "_" +:+ type map_unit +:+ ".smubin".

(** [Map/MainField/{section}/{section}_{type}.smubin], under a directory
    and as the name of an archive member. *)
Definition map_path (map_unit : Map) : Path :=
  ["Map"; "MainField"; section map_unit; smubin_name map_unit].

Definition map_member (map_unit : Map) : string :=
  "Map/MainField/" +:+ section map_unit +:+ "/" +:+ smubin_name map_unit.

(** The [Pack/TitleBG.pack] fallback; [map_bytes] is kept when the pack
    does not open, and a missing member is [None]. *)
Definition from_title_pack (map_unit : Map) (map_bytes : option bytes)
    : IO (option bytes) :=
  pack_path ← get_game_file (inr "Pack/TitleBG.pack") false;
  data ← reading (λ w, read_bytes w pack_path);
  match read_file_and_make_sarc lib data with
  | Some title_pack => mret (dict_get title_pack (map_member map_unit))
  | None => mret map_bytes
  end.

(** The [try:] block of the [if force_vanilla:] branch: the file of the
    update directory, else the one of the game directory. *)
Definition vanilla_file_bytes (map_unit : Map) : IO (option bytes) :=
  update ← get_update_dir;
  reading (λ w,
    path ← (if negb (path_exists w (update ++ map_path map_unit))
            then game ← get_game_dir w; mret (game ++ map_path map_unit)
            else mret (update ++ map_path map_unit));
    Some <$> read_bytes w path).

(** The [if force_vanilla:] branch: update directory, then game
    directory, then the title pack. *)
Definition vanilla_map_bytes (map_unit : Map) : IO (option bytes) :=
  io_try_except (vanilla_file_bytes map_unit) FileNotFoundError
    (from_title_pack map_unit None).

(** The member of the map in [AocMainField.pack], where there is one. *)
Definition aoc_pack_bytes (w : World) (map_unit : Map) (aoc_dir : Path)
    : result (option bytes) :=
  let aoc_pack := aoc_dir ++ ["Pack"; "AocMainField.pack"] in
  if path_exists w aoc_pack then
    data ← read_bytes w aoc_pack;
    match read_file_and_make_sarc lib data with
    | Some map_pack => mret (dict_get map_pack (map_member map_unit))
    | None => mret None
    end
  else mret None.

(** The [else:] branch: [AocMainField.pack], then the DLC file, then the
    update or game file, then the title pack. *)
Definition aoc_map_bytes (map_unit : Map) (aoc_dir : Path) : IO (option bytes) :=
  map_bytes ← reading (λ w, aoc_pack_bytes w map_unit aoc_dir);
  if falsy map_bytes then
    io_try_except
      (path ← get_game_file (inr (map_member map_unit)) true;
       reading (λ w, Some <$> read_bytes w path))
      FileNotFoundError
      (io_try_except
         (path ← get_game_file (inr (map_member map_unit)) false;
          reading (λ w, Some <$> read_bytes w path))
         FileNotFoundError
         (from_title_pack map_unit map_bytes))
  else mret map_bytes.

(** The end of [get_stock_map]: FileNotFoundError without bytes, else
    decompress and parse. *)
Definition parse_map (map_bytes : option bytes) : result Document :=
  match map_bytes with
  | Some (b :: bs) => mret (byml_parse lib (decompress lib (b :: bs)))
  | _ => raise FileNotFoundError
  end.

Definition get_stock_map (map_unit : Map) (force_vanilla : bool) : IO Document :=
  aoc_dir ← try_get_aoc_dir;
  map_bytes ←
    match aoc_dir with
    | Some aoc_dir =>
        if force_vanilla then vanilla_map_bytes map_unit
        else aoc_map_bytes map_unit aoc_dir
    | None => vanilla_map_bytes map_unit
    end;
  reading (λ _, parse_map map_bytes).

(** *** [get_map_diff] *)

(** ['IsHardModeActor' in str_obj or 'AoC_HardMode_Enabled' in str_obj] *)
Definition hard_mode_marker (obj : Actor Value) : bool :=
  contains "IsHardModeActor" (py_str lib obj) || contains "AoC_HardMode_Enabled" (py_str lib obj).

(** The flag the loop over [mod_map['Objs']] leaves in [stock_map]. *)
Definition stock_map_flag (mod_map : Document) : bool :=
  negb (existsb hard_mode_marker (Objs mod_map)).

(** [base_map] is a loaded map or a [Map] to look up. *)
Definition get_map_diff (base_map : Document + Map) (mod_map : Document)
    (no_del link_del : bool) : IO (DiffRecord Value) :=
  base_map ←
    match base_map with
    | inr map_unit => get_stock_map map_unit (stock_map_flag mod_map)
    | inl base_map => mret base_map
    end;
  mret (get_map_diff_loaded (Objs base_map) (Objs mod_map) no_del link_del).

(** *** [get_modded_map] *)

(** The mod's DLC directory: the first of [aoc/0010/content] and
    [aoc/content/0010] that exists, else [aoc/0010]. *)
Definition modded_aoc_dir (w : World) (tmp_dir : Path) : Path :=
  if negb (path_exists w (tmp_dir ++ ["aoc"; "0010"; "content"])) then
    if negb (path_exists w (tmp_dir ++ ["aoc"; "content"; "0010"]))
    then tmp_dir ++ ["aoc"; "0010"]
    else tmp_dir ++ ["aoc"; "content"; "0010"]
  else tmp_dir ++ ["aoc"; "0010"; "content"].

(** The member of the mod's [AocMainField.pack], then the loose file: the
    DLC one is tested under [aoc_dir] and read under [aoc/0010]. *)
Definition modded_map_bytes (w : World) (map_unit : Map) (tmp_dir : Path)
    : result (option bytes) :=
  let aoc_dir := modded_aoc_dir w tmp_dir in
  let aoc_pack := aoc_dir ++ ["Pack"; "AocMainField.pack"] in
  map_bytes ←
    (if path_exists w aoc_pack then
       data ← read_bytes w aoc_pack;
       match read_file_and_make_sarc lib data with
       | Some map_pack => mret (dict_get map_pack (map_member map_unit))
       | None => mret None
       end
     else mret None);
  if falsy map_bytes then
    if path_exists w (aoc_dir ++ map_path map_unit) then
      Some <$> read_bytes w (tmp_dir ++ ["aoc"; "0010"] ++ map_path map_unit)
    else if path_exists w (tmp_dir ++ ["content"] ++ map_path map_unit) then
      Some <$> read_bytes w (tmp_dir ++ ["content"] ++ map_path map_unit)
    else mret map_bytes
  else mret map_bytes.

Definition get_modded_map (w : World) (map_unit : Map) (tmp_dir : Path) : result Document :=
  modded_map_bytes w map_unit tmp_dir ≫= parse_map.

(** *** [generate_modded_map_log] *)

Definition generate_modded_map_log (tmp_dir : Path) (modded_mubins : list Path)
    (no_del link_del : bool) : IO (ModDiff Value) :=
  modded_maps ← reading (λ _, consolidate_map_files modded_mubins);
  io_for_each
    (λ diffs modded_map,
       mod_map ← reading (λ w, get_modded_map w modded_map tmp_dir);
       diff ← get_map_diff (inr modded_map) mod_map no_del link_del;
       mret (dict_set diffs (join "_" [section modded_map; type modded_map]) diff))
    [] modded_maps.

(** *** [MapMerger.generate_diff] *)

(** The filter of [generate_diff]; a file given as a [str] is no [Path]. *)
Definition is_modded_mubin (file : Path + string) : bool :=
  match file with
  | inl file =>
      String.eqb (path_suffix file) ".smubin" && bool_decide ("MainField" ∈ file)
      && contains "_" (path_name file)
  | inr _ => false
  end.

Definition generate_diff (mod_dir : Path) (modded_files : list (Path + string))
    (no_del link_del : bool) : IO (ModDiff Value) :=
  let modded_mubins :=
    omap (λ file, match file with inl p => Some p | inr _ => None end)
      (List.filter is_modded_mubin modded_files) in
  match modded_mubins with
  | _ :: _ => generate_modded_map_log mod_dir modded_mubins no_del link_del
  | [] => mret []
  end.

(** *** [merge_map] *)

Definition mubin_name (map_unit : Map) : string :=
  "Map/MainField/" +:+ section map_unit +:+ "/" +:+ section map_unit +:+ "_"
  +:+ type map_unit +:+ ".mubin".

Definition merge_map (map_pair : Map * DiffRecord Value) (no_del link_del : bool)
    : IO ((string * Z) * (string * Z)) :=
  let map_unit := map_pair.1 in
  let changes := map_pair.2 in
  new_map ← get_stock_map map_unit false;
  let new_map :=
    mkDocument (merge_objs (Objs new_map) changes no_del) (document_fields new_map) in
  master ← get_master_modpack_dir;
  let aoc_out :=
    master ++ ["aoc"; "0010"; "Map"; "MainField"; section map_unit; smubin_name map_unit] in
  mkdir_parents (parent aoc_out);;
  let aoc_bytes := byml_write lib new_map (wiiu settings) in
  write_bytes aoc_out (compress lib aoc_bytes);;
  let new_map :=
    mkDocument (filter (λ obj, ¬ String.prefix "DLC" (UnitConfigName obj)) (Objs new_map))
      (document_fields new_map) in
  master ← get_master_modpack_dir;
  mkdir_parents (master ++ ["content"; "Map"; "MainField"; section map_unit]);;
  master ← get_master_modpack_dir;
  let base_out :=
    master ++ ["content"; "Map"; "MainField"; section map_unit; smubin_name map_unit] in
  mkdir_parents (parent base_out);;
  let base_bytes := byml_write lib new_map (wiiu settings) in
  write_bytes base_out (compress lib base_bytes);;
  mret (("Aoc/0010/" +:+ mubin_name map_unit,
         calculate_file_size_with_ext lib aoc_bytes true ".mubin"),
        (mubin_name map_unit,
         calculate_file_size_with_ext lib base_bytes true ".mubin")).

(** *** [MapMerger.perform_merge] *)

(** [min(cpu_count() - 1, len(map_diffs))] *)
Definition num_threads (cpus : Z) (map_diffs : dict Map (DiffRecord Value)) : Z :=
  Z.min (cpus - 1) (Z.of_nat (length map_diffs)).

(** The lines [canon,val] of [map.log]. *)
Definition log_text (rstb_vals : dict string Z) : bytes :=
  list_byte_of_string
    (foldr (λ cv text, cv.1 +:+ "," +:+ pretty cv.2 +:+ nl +:+ text) "" rstb_vals).

(** [all_diffs] is what [self.get_all_diffs()] returns: the logged diff of
    every installed mod that has one, by ascending priority. *)
Definition perform_merge (all_diffs : list (ModDiff Value)) (no_del link_del : bool)
    : IO unit :=
  master ← get_master_modpack_dir;
  let aoc_pack := master ++ ["aoc"; "0010"; "Pack"; "AocMainField.pack"] in
  stale ← reading (λ w,
    mret (negb (path_exists w aoc_pack)
          || match files w !! aoc_pack with Some (_ :: _) => true | _ => false end));
  (if stale : bool then mkdir_parents (parent aoc_pack);; write_bytes aoc_pack []
   else mret ());;
  master ← get_master_modpack_dir;
  rmtree (master ++ ["aoc"; "0010"; "Map"; "MainField"]);;
  master ← get_master_modpack_dir;
  rmtree (master ++ ["content"; "Map"; "MainField"]);;
  master ← get_master_modpack_dir;
  let log_path := master ++ ["logs"; "map.log"] in
  logged ← reading (λ w, mret (path_exists w log_path));
  (if logged : bool then unlink log_path else mret ());;
  map_diffs ← reading (λ _, consolidate_diffs all_diffs);
  match map_diffs with
  | [] => mret ()
  | _ :: _ =>
      reading (λ _, Pool (num_threads (cpu_count lib) map_diffs));;
      rstb_results ← io_map (λ map_pair, merge_map map_pair no_del link_del) map_diffs;
      let rstb_vals :=
        foldl (λ vals res, dict_set (dict_set vals res.1.1 res.1.2) res.2.1 res.2.2)
          [] rstb_results in
      write_bytes log_path (log_text rstb_vals)
  end.

End Merger.

(** ** [util.dict_merge] *)

#[local] Set Warnings "-register-all".

Section DictMerge.
Context {Value : Type}.

(** A value as [dict_merge] tells values apart: a dict, a list, or
    anything else. *)
Inductive Node :=
  | NDict (items : list (string * Node))
  | NList (items : list Node)
  | NOther (value : Value).

(** [dict_merge(dct, merge_dct, overwrite_lists)], returning what it leaves
    in [dct].  The recursive call passes no [overwrite_lists], which is
    then False.  [dct] is a tree: none of its lists is also reached another
    way. *)
Fixpoint dict_merge_node (merge_dct : Node) (dct : dict string Node) (overwrite_lists : bool)
    : dict string Node :=
  match merge_dct with
  | NDict items =>
      (fix loop (items : list (string * Node)) (dct : dict string Node) : dict string Node :=
         match items with
         | [] => dct
         | (k, v) :: items =>
             loop items
               match dict_get dct k, v with
               | Some (NDict d), NDict _ => dict_set dct k (NDict (dict_merge_node v d false))
               | Some (NList l), NList l' =>
                   dict_set dct k (NList (if overwrite_lists then l' else l ++ l'))
               | _, _ => dict_set dct k v
               end
         end) items dct
  | _ => dct
  end.

Definition dict_merge (dct merge_dct : dict string Node) (overwrite_lists : bool)
    : dict string Node :=
  dict_merge_node (NDict merge_dct) dct overwrite_lists.

End DictMerge.
Arguments Node : clear implicits.

(** ** Vocabulary of the statements *)

(** The invariant of the [add] loops: [add_hashes] lists the ids of the
    actors kept so far, each once. *)
Definition add_inv {Value : Type} (acc : list Z * list (Actor Value)) : Prop :=
  acc.1 = hashes acc.2 ∧ NoDup acc.1.

Section Places.
Context (settings : Settings).

(** The master modpack and the files [perform_merge] resets. *)
Definition master_dir : Path := (data_dir settings ++ ["mods"]) ++ ["9999_BCML"].
Definition rules_path : Path := master_dir ++ ["rules.txt"].
Definition aoc_pack_path : Path := master_dir ++ ["aoc"; "0010"; "Pack"; "AocMainField.pack"].
Definition log_path : Path := master_dir ++ ["logs"; "map.log"].

(** What the steps up to the early return may do to the world: files are
    only removed, except for the emptied pack and [rules.txt]; directories
    are only made above the master directory's [logs] and [Pack]. *)
Definition reset_frame (w w' : World) : Prop :=
  (∀ p b, files w' !! p = Some b →
          files w !! p = Some b ∨ p = aoc_pack_path ∨ p = rules_path) ∧
  (∃ ws, written w' = written w ++ ws ∧ ∀ p, p ∈ ws → p = aoc_pack_path ∨ p = rules_path) ∧
  (∀ d, d ∈ dirs w' →
        d ∈ dirs w ∨ (d `prefix_of` master_dir ++ ["logs"])
        ∨ (d `prefix_of` parent aoc_pack_path)).

End Places.

Section Merged.
Context {Value : Type} `{!PyEq Value}.

(** The stock object a modified object is compared with:
    [base_map['Objs'][base_hashes.index(obj['HashId'])]]. *)
Definition base_obj_of (base_objs : list (Actor Value)) (obj : Actor Value)
    : option (Actor Value) :=
  index (hashes base_objs) (HashId obj) ≫= (base_objs !!.).

(** What a merge of the diff of a modified map holds for one of its
    objects: the object, unless [!=] does not tell it from the stock
    object of its id, which then stays. *)
Definition merged_obj (base_objs : list (Actor Value)) (obj : Actor Value) : Actor Value :=
  match base_obj_of base_objs obj with
  | Some base_obj => if py_ne obj base_obj then obj else base_obj
  | None => obj
  end.

(** A stock shrine after a diff of a modified list was merged: [Rotate]
    and [Translate] are those of the modified shrine of the same name where
    [!=] tells them from the stock ones. *)
Definition merged_dungeon (mod_pos : list (Dungeon Value)) (record : Dungeon Value)
    : Dungeon Value :=
  match list_find (λ dungeon, dungeon_Map dungeon = dungeon_Map record) mod_pos with
  | Some (_, dungeon) =>
      mkDungeon (dungeon_Map record)
        (if py_ne (Rotate dungeon) (Rotate record) then Rotate dungeon else Rotate record)
        (if py_ne (Translate dungeon) (Translate record)
         then Translate dungeon else Translate record)
        (dungeon_fields record)
  | None => record
  end.

End Merged.

Section MergedNode.
Context {Value : Type}.

(** What one turn of the loop of [dict_merge] stores under the key. *)
Definition merged_node (old : option (Node Value)) (new : Node Value) (overwrite_lists : bool)
    : Node Value :=
  match old, new with
  | Some (NDict d), NDict m => NDict (dict_merge d m false)
  | Some (NList l), NList l' => NList (if overwrite_lists then l' else l ++ l')
  | _, _ => new
  end.

End MergedNode.

(** What a computation may do to the files: write the paths in [allowed]
    and make directories, nothing else. *)
Definition touches (allowed : Path → Prop) (w w' : World) : Prop :=
  (∀ p, ¬ allowed p → files w' !! p = files w !! p) ∧
  (∃ ws, written w' = written w ++ ws ∧ ∀ p, p ∈ ws → allowed p) ∧
  dirs w ⊆ dirs w'.

(** The files, the directories and the record of writes are the same:
    what a computation that only looks for directories and reads files
    leaves of the world. *)
Definition same_files (w w' : World) : Prop :=
  files w' = files w ∧ dirs w' = dirs w ∧ written w' = written w.

(** A computation that writes no file and makes no directory. *)
Definition quiet {A} (m : IO A) : Prop := ∀ w, same_files w (m w).2.

Section Outputs.
Context (settings : Settings).

(** The two files [merge_map] writes for a map unit. *)
Definition aoc_out (map_unit : Map) : Path :=
  master_dir settings
  ++ ["aoc"; "0010"; "Map"; "MainField"; section map_unit; smubin_name map_unit].
Definition base_out (map_unit : Map) : Path :=
  master_dir settings
  ++ ["content"; "Map"; "MainField"; section map_unit; smubin_name map_unit].

End Outputs.

(** A weakest precondition for [IO]: [Q] holds of the outcome and of the
    world left behind. *)
Definition wp {A} (m : IO A) (Q : result A → World → Prop) (w : World) : Prop :=
  Q (m w).1 (m w).2.

(** ** Concrete inputs *)

Module Examples.

Definition actor (hash_id : Z) (payload : string) : Actor string :=
  mkActor hash_id "Obj" None payload.

(** A one-byte-per-object stand-in for BYML: the byte is the [HashId], and
    ids from 128 up are hard-mode actors. *)
Definition toy_actor (b : Byte.byte) : Actor string :=
  let hash_id := Z.of_N (Byte.to_N b) in
  actor hash_id (if 128 <=? hash_id then "{'IsHardModeActor': True}" else "{}").

Definition toy_byte (obj : Actor string) : Byte.byte :=
  default Byte.x00 (Byte.of_N (Z.to_N (HashId obj))).

Definition map_file : string := "Map/MainField/A-1/A-1_Dynamic.smubin".

Definition toy_lib (cpus : Z) : Libraries (Value:=string) :=
  {| py_str := fields;
     byml_parse := λ data, mkDocument (toy_actor <$> data) "";
     byml_write := λ doc _, toy_byte <$> Objs doc;
     decompress := id;
     compress := id;
     read_file_and_make_sarc := λ data, Some [(map_file, data)];
     calculate_file_size_with_ext := λ data _ _, Z.of_nat (length data);
     cpu_count := cpus |}.

Definition toy_settings : Settings :=
  {| game_dir := Some ["game"];
     update_dir := Some ["update"];
     dlc_dir := Some ["dlc"];
     data_dir := ["data"];
     wiiu := true |}.

Definition a1_dynamic : Map := mkMap "A-1" "Dynamic".

(** A game dump whose update data has object 1 in A-1_Dynamic and whose
    DLC pack has objects 1 and 200. *)
Definition game_dump : World :=
  {| files := {[ ["update"; "Map"; "MainField"; "A-1"; "A-1_Dynamic.smubin"] := [Byte.x01];
                 ["dlc"; "Pack"; "AocMainField.pack"] := [Byte.x01; Byte.xc8] ]};
     dirs := {[ ["game"]; ["update"]; ["dlc"] ]};
     written := [];
     update_dir_attr := None;
     aoc_dir_attr := None |}.

(** A modified A-1_Dynamic with objects 1 and 200, the second a hard-mode
    actor. *)
Definition hard_mode_map : Document (Value:=string) :=
  mkDocument [toy_actor Byte.x01; toy_actor Byte.xc8] "".

(** A modified A-1_Dynamic with objects 1 and 2, without a marker. *)
Definition plain_map : Document (Value:=string) :=
  mkDocument [toy_actor Byte.x01; toy_actor Byte.x02] "".

(** A game dump whose update directory is gone: the only copy of
    A-1_Dynamic, with object 1, is in the title pack of the game
    directory. *)
Definition no_update_dump : World :=
  {| files := {[ ["game"; "Pack"; "TitleBG.pack"] := [Byte.x01] ]};
     dirs := {[ ["game"]; ["dlc"] ]};
     written := [];
     update_dir_attr := None;
     aoc_dir_attr := None |}.

(** The same dump with a master modpack left by an earlier merge: a
    non-empty [AocMainField.pack] and a [map.log]. *)
Definition merged_before : World :=
  {| files := {[ ["data"; "mods"; "9999_BCML"; "rules.txt"] := rules_txt;
                 ["data"; "mods"; "9999_BCML"; "aoc"; "0010"; "Pack"; "AocMainField.pack"]
                   := [Byte.x01];
                 ["data"; "mods"; "9999_BCML"; "logs"; "map.log"] := [Byte.x01] ]};
     dirs := {[ ["data"] ]};
     written := [];
     update_dir_attr := None;
     aoc_dir_attr := None |}.

(** Two shrine entrances; values are plain numbers here. *)
Definition shrine (name : string) (rotate translate : Z) : Dungeon Z :=
  mkDungeon name rotate translate 0.

(** The files of a mod unpacked under [mod]: A-1_Dynamic with objects 1
    and 2 among the base content, and B-2_Static among the DLC content
    laid out as [aoc/0010/content]. *)
Definition mod_files : list Path :=
  [ ["mod"; "content"; "Map"; "MainField"; "A-1"; "A-1_Dynamic.smubin"];
    ["mod"; "aoc"; "0010"; "content"; "Map"; "MainField"; "B-2"; "B-2_Static.smubin"] ].

Definition b2_static : Map := mkMap "B-2" "Static".

(** The game dump with the mod next to it. *)
Definition modded_dump : World :=
  {| files := {[ ["update"; "Map"; "MainField"; "A-1"; "A-1_Dynamic.smubin"] := [Byte.x01];
                 ["mod"; "content"; "Map"; "MainField"; "A-1"; "A-1_Dynamic.smubin"]
                   := [Byte.x01; Byte.x02];
                 ["mod"; "aoc"; "0010"; "content"; "Map"; "MainField"; "B-2";
                  "B-2_Static.smubin"] := [Byte.x03] ]};
     dirs := {[ ["game"]; ["update"]; ["mod"]; ["mod"; "aoc"; "0010"; "content"] ]};
     written := [];
     update_dir_attr := None;
     aoc_dir_attr := None |}.

End Examples.

(** * Properties *)

Lemma py_in_true `{EqDecision A} (x : A) l : py_in x l = true ↔ x ∈ l.
Proof. unfold py_in. apply bool_decide_eq_true. Qed.

Lemma py_in_false `{EqDecision A} (x : A) l : py_in x l = false ↔ x ∉ l.
Proof. unfold py_in. apply bool_decide_eq_false. Qed.

Section Dict.
Context `{EqDecision K} {V : Type}.
Implicit Types (d : dict K V) (k : K) (v : V).

Lemma dict_get_set d k v k' :
  dict_get (dict_set d k v) k' = if decide (k = k') then Some v else dict_get d k'.
Proof.
  induction d as [|[k0 v0] d IHd]; simpl.
  - repeat case_decide; congruence.
  - repeat (case_decide; simpl); try congruence.
Qed.

Lemma dict_get_set_eq d k v : dict_get (dict_set d k v) k = Some v.
Proof. rewrite dict_get_set. by case_decide. Qed.

Lemma dict_get_set_ne d k v k' : k ≠ k' → dict_get (dict_set d k v) k' = dict_get d k'.
Proof. intros. rewrite dict_get_set. by case_decide. Qed.

Lemma dict_get_None d k : dict_get d k = None ↔ k ∉ d.*1.
Proof.
  induction d as [|[k0 v0] d IHd]; simpl.
  - split; [intros _; apply not_elem_of_nil | done].
  - rewrite not_elem_of_cons. case_decide; [naive_solver|]. rewrite IHd. naive_solver.
Qed.

Lemma dict_get_Some_elem d k v : dict_get d k = Some v → (k, v) ∈ d.
Proof.
  induction d as [|[k0 v0] d IHd]; simpl; [done|].
  case_decide; intros; simplify_eq; apply elem_of_cons; auto.
Qed.

Lemma dict_get_elem d k v : NoDup d.*1 → (k, v) ∈ d → dict_get d k = Some v.
Proof.
  induction d as [|[k0 v0] d IHd]; simpl; [by intros _ ?%elem_of_nil|].
  intros [Hk Hd]%NoDup_cons [?|Hin]%elem_of_cons; simplify_eq.
  - by case_decide.
  - case_decide; [|auto]. subst. destruct Hk. apply list_elem_of_fmap. by exists (k, v).
Qed.

Lemma dict_has_get d k : dict_has d k = true ↔ is_Some (dict_get d k).
Proof.
  unfold dict_has. rewrite bool_decide_eq_true, <- not_eq_None_Some, dict_get_None.
  split; [auto | apply dec_stable].
Qed.

Lemma dict_set_keys d k v :
  (dict_set d k v).*1 = if decide (k ∈ d.*1) then d.*1 else d.*1 ++ [k].
Proof.
  induction d as [|[k0 v0] d IHd]; [done|].
  cbn [dict_set]. destruct (decide (k0 = k)) as [->|Hne]; rewrite !fmap_cons; cbn [fst].
  - rewrite decide_True by (apply elem_of_cons; auto). done.
  - rewrite IHd. destruct (decide (k ∈ d.*1)) as [Hin|Hin].
    + rewrite decide_True by (apply elem_of_cons; auto). done.
    + rewrite decide_False; [done|]. intros [?|?]%elem_of_cons; congruence.
Qed.

Lemma dict_set_NoDup d k v : NoDup d.*1 → NoDup (dict_set d k v).*1.
Proof.
  intros Hd. rewrite dict_set_keys. case_decide; [done|].
  apply NoDup_app. split_and!; [done| |apply NoDup_singleton].
  intros x Hx ->%list_elem_of_singleton. done.
Qed.

End Dict.

Lemma for_each_app {S A} (f : S → A → result S) s l1 l2 :
  for_each f s (l1 ++ l2) = for_each f s l1 ≫= λ s', for_each f s' l2.
Proof.
  revert s. induction l1 as [|x l1 IHl]; intros s; simpl; [done|].
  destruct (f s x) as [e|s']; simpl; [done|]. apply IHl.
Qed.

Lemma bind_inr {A B} (m : result A) (k : A → result B) y :
  m ≫= k = inr y ↔ ∃ x, m = inr x ∧ k x = inr y.
Proof. destruct m; simpl; naive_solver. Qed.

Lemma split_nonempty sep s : split sep s ≠ [].
Proof. destruct s; simpl; [done|]. case_decide; [done|]. by destruct (split sep s). Qed.

Lemma join_split sep s : join sep (split sep s) = s.
Proof.
  induction s as [|c s IHs]; simpl; [done|].
  case_decide; subst.
  - pose proof (split_nonempty sep s). destruct (split sep s) eqn:E; [done|].
    simpl in *. by rewrite IHs.
  - pose proof (split_nonempty sep s). destruct (split sep s) as [|w ws] eqn:E; [done|].
    destruct ws; simpl in *; by rewrite <- IHs.
Qed.

Lemma Map_of_file_inj f1 f2 m : Map_of_file f1 = inr m → Map_of_file f2 = inr m → f1 = f2.
Proof.
  unfold Map_of_file. intros H1 H2.
  rewrite <- (join_split "_" f1), <- (join_split "_" f2).
  destruct (split "_" f1) as [|a [|b [|??]]]; try done.
  destruct (split "_" f2) as [|a' [|b' [|??]]]; try done.
  inversion H1 as [Ha]; inversion H2 as [Hb]. rewrite <- Ha in Hb. by inversion Hb.
Qed.

Lemma NoDup_fmap_eq {A B} (f : A → B) (l : list A) x y :
  NoDup (f <$> l) → x ∈ l → y ∈ l → f x = f y → x = y.
Proof.
  induction l as [|a l IHl]; [by intros _ ?%elem_of_nil|].
  rewrite fmap_cons, NoDup_cons, !elem_of_cons.
  intros [Ha Hl] [->|Hx] [->|Hy] Hf; auto.
  - destruct Ha. rewrite Hf. by apply list_elem_of_fmap_2.
  - destruct Ha. rewrite <- Hf. by apply list_elem_of_fmap_2.
Qed.

Lemma dict_get_foldl_set `{EqDecision K} {V W} (g : V → W) (a : dict K V) (c0 : dict K W) k :
  NoDup a.*1 →
  dict_get (foldl (λ c fm, dict_set c fm.1 (g fm.2)) c0 a) k
  = match dict_get a k with Some v => Some (g v) | None => dict_get c0 k end.
Proof.
  revert c0. induction a as [|[k1 v1] a IHa]; intros c0; [done|].
  rewrite fmap_cons, NoDup_cons. intros [Hk1 Ha]. cbn [foldl dict_get fst snd] in *.
  rewrite IHa by done. destruct (decide (k1 = k)) as [->|Hne].
  - apply dict_get_None in Hk1. by rewrite Hk1, dict_get_set_eq.
  - by rewrite dict_get_set_ne.
Qed.

Section Consolidate.
Context {Value : Type} `{!PyEq Value}.
Implicit Types (diffs : list (ModDiff Value)) (mods : list (DiffRecord Value)).
Implicit Types (a_diffs : dict Map (list (DiffRecord Value))).

Lemma Map_in_diffs_false a_map diffs : Map_in_diffs a_map diffs = false.
Proof. unfold Map_in_diffs. induction diffs; simpl; auto. Qed.

Lemma group_step_inr diffs a_diffs entry a' :
  group_step diffs a_diffs entry = inr a' ↔
  ∃ a_map, Map_of_file entry.1 = inr a_map ∧
           a' = dict_set (dict_set a_diffs a_map []) a_map [entry.2].
Proof.
  unfold group_step. rewrite bind_inr. split.
  - intros (m & Hm & Hstep). exists m. split; [done|].
    rewrite Map_in_diffs_false in Hstep. cbn [negb] in Hstep.
    rewrite dict_get_set_eq in Hstep. by inversion Hstep.
  - intros (m & Hm & ->). exists m. split; [done|].
    rewrite Map_in_diffs_false. cbn [negb]. by rewrite dict_get_set_eq.
Qed.

Lemma group_log_NoDup diffs a_diffs (log : ModDiff Value) a' :
  for_each (group_step diffs) a_diffs log = inr a' → NoDup a_diffs.*1 → NoDup a'.*1.
Proof.
  revert a_diffs. induction log as [|e log IHlog]; intros a_diffs; cbn [for_each].
  - intros [= <-]. done.
  - rewrite bind_inr. intros (a1 & (m & _ & ->)%group_step_inr & Hrest) Ha.
    eapply IHlog; [done|]. by do 2 apply dict_set_NoDup.
Qed.

Lemma group_log_untouched diffs a_diffs (log : ModDiff Value) a' a_map :
  for_each (group_step diffs) a_diffs log = inr a' →
  (∀ e, e ∈ log → Map_of_file e.1 ≠ inr a_map) →
  dict_get a' a_map = dict_get a_diffs a_map.
Proof.
  revert a_diffs. induction log as [|e log IHlog]; intros a_diffs; cbn [for_each].
  - intros [= <-]. done.
  - rewrite bind_inr. intros (a1 & (m & Hm & ->)%group_step_inr & Hrest) Hlog.
    rewrite (IHlog _ Hrest) by (intros; apply Hlog, elem_of_cons; auto).
    assert (m ≠ a_map) by (intros ->; eapply Hlog; [apply elem_of_cons; eauto | done]).
    by rewrite !dict_get_set_ne.
Qed.

(** Whatever the earlier mods logged for a map, the group holds the diff of
    the log read last, alone. *)
Lemma group_log_last diffs a_diffs (log : ModDiff Value) a' file d a_map :
  for_each (group_step diffs) a_diffs log = inr a' →
  NoDup log.*1 → (file, d) ∈ log → Map_of_file file = inr a_map →
  dict_get a' a_map = Some [d].
Proof.
  revert a_diffs. induction log as [|e log IHlog]; intros a_diffs; cbn [for_each].
  - by intros _ _ ?%elem_of_nil.
  - rewrite bind_inr, fmap_cons, NoDup_cons.
    intros (a1 & (m & Hm & ->)%group_step_inr & Hrest) [He Hlog] [<-|Hin]%elem_of_cons Hfile.
    + rewrite (group_log_untouched _ _ _ _ _ Hrest).
      * cbn [fst snd] in *. assert (m = a_map) as -> by congruence. by rewrite dict_get_set_eq.
      * intros e' He' Hmap. destruct He. cbn [fst].
        rewrite (Map_of_file_inj _ _ _ Hfile Hmap). by apply list_elem_of_fmap_2.
    + eauto.
Qed.

Lemma group_log_returns diffs a_diffs (log : ModDiff Value) :
  (∀ entry, entry ∈ log → ∃ a_map, Map_of_file entry.1 = inr a_map) →
  ∃ a', for_each (group_step diffs) a_diffs log = inr a'.
Proof.
  revert a_diffs. induction log as [|e log IHlog]; intros a_diffs Hlog; cbn [for_each].
  - by eexists.
  - destruct (Hlog e) as [m Hm]; [apply elem_of_cons; auto|].
    rewrite (proj2 (group_step_inr diffs a_diffs e _) (ex_intro _ m (conj Hm eq_refl))).
    apply IHlog. intros; apply Hlog, elem_of_cons; auto.
Qed.

(** Grouping raises only on a file name that is not [section_type]. *)
Lemma group_diffs_returns diffs :
  (∀ log entry, log ∈ diffs → entry ∈ log → ∃ a_map, Map_of_file entry.1 = inr a_map) →
  ∃ a_diffs, group_diffs diffs = inr a_diffs.
Proof.
  unfold group_diffs. generalize diffs at 2. intros ds.
  generalize ([] : dict Map (list (DiffRecord Value))).
  induction diffs as [|log diffs IHdiffs]; intros a0 Hall; cbn [for_each].
  - by eexists.
  - destruct (group_log_returns ds a0 log) as [a1 Ha1].
    { intros entry. apply Hall, elem_of_cons. auto. }
    rewrite Ha1. apply IHdiffs. intros l e ?. apply Hall, elem_of_cons. auto.
Qed.

Lemma group_diffs_last pre (last : ModDiff Value) a_diffs file d a_map :
  group_diffs (pre ++ [last]) = inr a_diffs →
  NoDup last.*1 → (file, d) ∈ last → Map_of_file file = inr a_map →
  dict_get a_diffs a_map = Some [d].
Proof.
  unfold group_diffs. rewrite for_each_app, bind_inr. cbn [for_each].
  intros (a0 & _ & (a1 & Hlast & [= <-])%bind_inr). by eapply group_log_last.
Qed.

Lemma group_diffs_NoDup diffs a_diffs : group_diffs diffs = inr a_diffs → NoDup a_diffs.*1.
Proof.
  unfold group_diffs. generalize diffs at 1. intros ds.
  assert (G : ∀ a0, NoDup a0.*1 →
    for_each (for_each (group_step ds)) a0 diffs = inr a_diffs → NoDup a_diffs.*1).
  { induction diffs as [|log diffs IHdiffs]; intros a0 Ha0; cbn [for_each].
    - by intros [= <-].
    - rewrite bind_inr. intros (a1 & Hlog & Hrest). eapply IHdiffs; [|done].
      by eapply group_log_NoDup. }
  apply G. apply NoDup_nil_2.
Qed.

End Consolidate.

Section ConsolidateMods.
Context {Value : Type} `{!PyEq Value}.
Implicit Types (mods : list (DiffRecord Value)) (acc : list Z * list (Actor Value)).

Lemma add_step_inv acc actor :
  add_inv acc → add_inv (add_step acc actor) ∧ acc.2 `prefix_of` (add_step acc actor).2
                ∧ HashId actor ∈ (add_step acc actor).1.
Proof.
  intros [Hh Hn]. unfold add_step. destruct (py_in (HashId actor) acc.1) eqn:E; cbn [negb].
  - apply py_in_true in E. done.
  - apply py_in_false in E. cbn [fst snd]. split_and!.
    + split; cbn [fst snd].
      * unfold hashes in *. by rewrite fmap_app, Hh.
      * apply NoDup_app. split_and!; [done| |apply NoDup_singleton].
        by intros x Hx ->%list_elem_of_singleton.
    + by apply prefix_app_r.
    + apply elem_of_app. right. by apply list_elem_of_singleton.
Qed.

Lemma add_fold_inv l acc :
  add_inv acc →
  add_inv (foldl add_step acc l) ∧ acc.2 `prefix_of` (foldl add_step acc l).2 ∧
  (∀ a, a ∈ (foldl add_step acc l).2 → a ∈ acc.2 ∨ a ∈ l) ∧
  (∀ Y, Y ∈ l → HashId Y ∈ (foldl add_step acc l).1).
Proof.
  revert acc. induction l as [|a l IHl]; intros acc Hacc; cbn [foldl].
  - split_and!; [done|done|auto|]. by intros Y ?%elem_of_nil.
  - destruct (add_step_inv acc a Hacc) as (Hinv & Hpre & Ha).
    destruct (IHl _ Hinv) as (Hinv' & Hpre' & Hsub & Hall). split_and!.
    + done.
    + by etrans.
    + intros b [HZ|HZ]%Hsub; [|right; apply elem_of_cons; auto].
      unfold add_step in HZ. destruct (py_in (HashId a) acc.1); cbn [negb fst snd] in HZ; [auto|].
      apply elem_of_app in HZ as [?|HZ]; [auto|]. apply list_elem_of_singleton in HZ as ->.
      right. apply elem_of_cons. auto.
    + intros Y [->|HY]%elem_of_cons; [|auto].
      destruct Hinv as [Hh _], Hinv' as [Hh' _]. rewrite Hh', Hh in *.
      destruct Hpre' as [k ->]. unfold hashes. rewrite fmap_app. apply elem_of_app. auto.
Qed.

Lemma add_loop_inv mods acc :
  add_inv acc →
  add_inv (foldl (λ acc mod_, foldl add_step acc (diff_add mod_)) acc mods) ∧
  acc.2 `prefix_of` (foldl (λ acc mod_, foldl add_step acc (diff_add mod_)) acc mods).2.
Proof.
  revert acc. induction mods as [|m mods IHmods]; intros acc Hacc; cbn [foldl]; [done|].
  destruct (add_fold_inv (diff_add m) acc Hacc) as (Hinv & Hpre & _).
  destruct (IHmods _ Hinv) as [Hinv' Hpre']. split; [done | by etrans].
Qed.

(** In the per-group [add] pass the mod read last wins: each of its added
    actors is kept, and is the only kept actor with its id. *)
Lemma consolidate_add_last mods (dB : DiffRecord Value) (Y : Actor Value) :
  Y ∈ diff_add dB →
  (∀ Y', Y' ∈ diff_add dB → HashId Y' = HashId Y → Y' = Y) →
  Y ∈ consolidate_add (mods ++ [dB]) ∧
  ∀ other, other ∈ consolidate_add (mods ++ [dB]) → HashId other = HashId Y → other = Y.
Proof.
  intros HY Huniq. unfold consolidate_add. rewrite reverse_snoc. cbn [foldl].
  assert (H0 : add_inv ([], [] : list (Actor Value))) by (split; [done | apply NoDup_nil_2]).
  destruct (add_fold_inv (diff_add dB) _ H0) as (Hinv & _ & Hsub & Hall).
  destruct (add_loop_inv (reverse mods) _ Hinv) as [[Hh Hnd] Hpre].
  set (r1 := foldl add_step ([], []) (diff_add dB)) in *.
  set (r := foldl _ r1 (reverse mods)) in *.
  assert (Y ∈ r1.2) as HY1.
  { specialize (Hall Y HY). destruct Hinv as [Hh1 _]. rewrite Hh1 in Hall.
    apply list_elem_of_fmap in Hall as (Y' & Heq & HY').
    destruct (Hsub _ HY') as [?%elem_of_nil|HinB]; [done|].
    by rewrite <- (Huniq Y' HinB). }
  assert (Y ∈ r.2) as HYr by (destruct Hpre as [k ->]; apply elem_of_app; auto).
  split; [done|]. intros other HZ Heq.
  rewrite Hh in Hnd. by apply (NoDup_fmap_eq HashId r.2).
Qed.

(** In the per-group [mod] pass the mod read last wins as well. *)
Lemma consolidate_mod_last mods (dB : DiffRecord Value) h (Y : Actor Value) :
  NoDup (diff_mod dB).*1 → dict_get (diff_mod dB) h = Some Y →
  dict_get (consolidate_mod (mods ++ [dB])) h = Some Y.
Proof.
  intros Hnd HY. unfold consolidate_mod. rewrite foldl_app. cbn [foldl].
  etrans; [by apply (dict_get_foldl_set id)|]. by rewrite HY.
Qed.

(** The per-group [del] is the union of the deletions of the mods in the
    group. *)
Lemma consolidate_del_union mods h :
  h ∈ consolidate_del mods ↔ ∃ mod_, mod_ ∈ mods ∧ h ∈ diff_del mod_.
Proof.
  unfold consolidate_del. rewrite elem_of_elements, elem_of_list_to_set, list_elem_of_bind.
  naive_solver.
Qed.

Lemma consolidate_diffs_get diffs c a_map :
  consolidate_diffs diffs = inr c →
  ∃ a_diffs, group_diffs diffs = inr a_diffs ∧
    dict_get c a_map = consolidate_mods (Value:=Value) <$> dict_get a_diffs a_map.
Proof.
  unfold consolidate_diffs. rewrite bind_inr. intros (a_diffs & Hg & [= <-]).
  exists a_diffs. split; [done|].
  rewrite (dict_get_foldl_set (consolidate_mods (Value:=Value))) by by eapply group_diffs_NoDup.
  by destruct (dict_get a_diffs a_map).
Qed.

(** C1, as the code has it.  [add] and [mod] resolve the same way: the mod
    read last (the one of highest priority) wins.  Let the last log of
    [diffs] hold the diff [dB] for a map, whatever the earlier mods
    logged for it.  Then every actor [Y] that [dB] adds (and is alone in
    [dB]'s [add] list with its [HashId]) is in the consolidated [add] list,
    where no other actor has that [HashId]: a payload [X] added under
    the same id by an earlier mod is not retained.  And every entry of
    [dB]'s [mod] dict is the entry of the consolidated [mod] dict.
    File names are of the form [section_type], so that grouping returns. *)
Theorem consolidate_diffs_last_mod_wins (pre : list (ModDiff Value)) (last : ModDiff Value)
    (file : string) (a_map : Map) (dB : DiffRecord Value) :
  (∀ log entry, log ∈ pre ++ [last] → entry ∈ log →
                ∃ a_map', Map_of_file entry.1 = inr a_map') →
  NoDup last.*1 → (file, dB) ∈ last → Map_of_file file = inr a_map →
  ∃ c cd,
    consolidate_diffs (pre ++ [last]) = inr c ∧ dict_get c a_map = Some cd ∧
    (∀ Y, Y ∈ diff_add dB →
          (∀ Y', Y' ∈ diff_add dB → HashId Y' = HashId Y → Y' = Y) →
          Y ∈ diff_add cd ∧
          ∀ other, other ∈ diff_add cd → HashId other = HashId Y → other = Y) ∧
    (∀ h Y, NoDup (diff_mod dB).*1 → dict_get (diff_mod dB) h = Some Y →
            dict_get (diff_mod cd) h = Some Y).
Proof.
  intros Hparse Hnd Hin Hfile.
  destruct (group_diffs_returns _ Hparse) as [a_diffs Hg].
  assert (Hc : consolidate_diffs (pre ++ [last])
               = inr (foldl (λ c_diffs fm, dict_set c_diffs fm.1 (consolidate_mods fm.2))
                        [] a_diffs))
    by (unfold consolidate_diffs; by rewrite Hg).
  destruct (consolidate_diffs_get _ _ a_map Hc) as (a_diffs' & Hg' & Hget).
  assert (a_diffs' = a_diffs) as -> by congruence.
  rewrite (group_diffs_last _ _ _ _ _ _ Hg Hnd Hin Hfile) in Hget.
  eexists _, _. split; [exact Hc|]. split; [exact Hget|]. split.
  - intros Y HY Huniq. apply (consolidate_add_last [] dB Y HY Huniq).
  - intros h Y HndB HY. by apply (consolidate_mod_last [] dB).
Qed.

End ConsolidateMods.

Section Index.
Context `{EqDecision A}.
Implicit Types (l : list A) (x : A).

Lemma index_Some l x i :
  index l x = Some i ↔ l !! i = Some x ∧ ∀ j, (j < i)%nat → l !! j ≠ Some x.
Proof.
  unfold index. rewrite fmap_Some. split.
  - intros ([i' y] & (Hl & -> & Hlt)%list_find_Some & ->). cbn [fst]. split; [done|].
    intros j Hj Hx. by eapply Hlt.
  - intros [Hl Hlt]. exists (i, x). split; [|done].
    apply list_find_Some. split_and!; [done..|]. intros j y Hy Hj ->. by eapply Hlt.
Qed.

Lemma index_None l x : index l x = None ↔ x ∉ l.
Proof.
  unfold index. rewrite fmap_None, list_find_None, Forall_forall. split.
  - intros Hl Hx. by eapply Hl.
  - intros Hx y Hy ->. done.
Qed.

Lemma index_lt l x i : index l x = Some i → (i < length l)%nat.
Proof. intros [Hl _]%index_Some. by eapply lookup_lt_Some. Qed.

Lemma index_lookup l x i : index l x = Some i → l !! i = Some x.
Proof. by intros [Hl _]%index_Some. Qed.

Lemma index_elem_of l x : x ∈ l → is_Some (index l x).
Proof. intros Hx. apply not_eq_None_Some. rewrite index_None. auto. Qed.

Lemma index_NoDup l x i : NoDup l → l !! i = Some x → index l x = Some i.
Proof.
  intros Hnd Hl. apply index_Some. split; [done|]. intros j Hj Hj'.
  pose proof (NoDup_lookup l i j x Hnd Hl Hj'). lia.
Qed.

End Index.

Section Sort.
Context {A : Type} (key : A → Z).
Implicit Types (l : list A) (x : A).

Lemma insert_by_Permutation (le : A → A → bool) x l : insert_by le x l ≡ₚ x :: l.
Proof.
  induction l as [|y l IHl]; cbn [insert_by]; [done|].
  destruct (le x y); [done|]. rewrite IHl. apply Permutation_swap.
Qed.

Lemma sort_by_key_Permutation l : sort_by_key key l ≡ₚ l.
Proof.
  unfold sort_by_key. induction l as [|x l IHl]; cbn [foldr]; [done|].
  by rewrite insert_by_Permutation, IHl.
Qed.

Lemma sort_by_key_reverse_Permutation l : sort_by_key_reverse key l ≡ₚ l.
Proof.
  unfold sort_by_key_reverse. induction l as [|x l IHl]; cbn [foldr]; [done|].
  by rewrite insert_by_Permutation, IHl.
Qed.

Lemma insert_by_sorted (R : relation A) (le : A → A → bool) x l :
  Transitive R → (∀ a b, le a b = true → R a b) → (∀ a b, le a b = false → R b a) →
  StronglySorted R l → StronglySorted R (insert_by le x l).
Proof.
  intros HR Ht Hf. induction 1 as [|y l Hl IHl Hy]; cbn [insert_by].
  - repeat constructor.
  - destruct (le x y) eqn:E.
    + constructor; [by constructor|]. constructor; [auto|].
      eapply Forall_impl; [done|]. intros z Hz. etrans; [|done]. auto.
    + constructor; [done|]. rewrite insert_by_Permutation. constructor; auto.
Qed.

Lemma sort_by_key_sorted l : StronglySorted (λ x y, key x ≤ key y) (sort_by_key key l).
Proof.
  unfold sort_by_key. induction l as [|x l IHl]; cbn [foldr]; [constructor|].
  apply insert_by_sorted; [|intros a b; cbn; lia..|done].
  intros a b c; lia.
Qed.

Lemma sort_by_key_reverse_sorted l :
  StronglySorted (λ x y, key y ≤ key x) (sort_by_key_reverse key l).
Proof.
  unfold sort_by_key_reverse. induction l as [|x l IHl]; cbn [foldr]; [constructor|].
  apply insert_by_sorted; [|intros a b; cbn; lia..|done].
  intros a b c; lia.
Qed.

End Sort.

Lemma StronglySorted_le_lt (l : list Z) :
  StronglySorted Z.le l → NoDup l → StronglySorted Z.lt l.
Proof.
  induction 1 as [|x l Hl IHl Hx]; [constructor|].
  intros [Hin Hnd]%NoDup_cons. constructor; [auto|].
  rewrite Forall_forall in *. intros y Hy. specialize (Hx y Hy).
  assert (x ≠ y) by (intros ->; done). lia.
Qed.

Lemma filter_ext_elem {A} (P Q : A → Prop) `{!∀ x, Decision (P x)} `{!∀ x, Decision (Q x)}
    (l : list A) :
  (∀ x, x ∈ l → P x ↔ Q x) → filter P l = filter Q l.
Proof.
  induction l as [|a l IHl]; intros Hl; [done|].
  rewrite !filter_cons. rewrite IHl by (intros; apply Hl, elem_of_cons; auto).
  assert (P a ↔ Q a) by (apply Hl, elem_of_cons; auto).
  repeat case_decide; tauto.
Qed.

Lemma filter_all {A} (P : A → Prop) `{!∀ x, Decision (P x)} (l : list A) :
  (∀ x, x ∈ l → P x) → filter P l = l.
Proof.
  induction l as [|a l IHl]; intros Hl; [done|].
  rewrite filter_cons, decide_True by (apply Hl, elem_of_cons; auto).
  rewrite IHl; [done|]. intros; apply Hl, elem_of_cons; auto.
Qed.

Lemma index_middle `{EqDecision A} (l1 l2 : list A) x :
  x ∉ l1 → index (l1 ++ x :: l2) x = Some (length l1).
Proof.
  intros Hx. apply index_Some. split; [apply list_lookup_middle; done|].
  intros j Hj Hl. rewrite lookup_app_l in Hl by done.
  by apply list_elem_of_lookup_2 in Hl.
Qed.

Section Merge.
Context {Value : Type} `{!PyEq Value}.
Implicit Types (objs adds : list (Actor Value)) (stock_hashes : list Z).
Implicit Types (changes : DiffRecord Value).

(** *** The [mod] loop *)

Lemma mod_fold_adds stock_hashes (m : dict Z (Actor Value)) objs adds :
  foldl (mod_step stock_hashes) (objs, adds) m
  = ((foldl (mod_step stock_hashes) (objs, []) m).1,
     adds ++ (foldl (mod_step stock_hashes) (objs, []) m).2).
Proof.
  revert objs adds. induction m as [|kv m IHm]; intros objs adds; cbn [foldl].
  - cbn [fst snd]. by rewrite app_nil_r.
  - unfold mod_step at 2 4 6. cbn [fst snd]. destruct (index stock_hashes kv.1).
    + apply IHm.
    + rewrite IHm. rewrite (IHm objs ([] ++ [kv.2])). cbn [fst snd app].
      by rewrite <- app_assoc.
Qed.

Lemma mod_fold_hashes stock_hashes (m : dict Z (Actor Value)) objs adds :
  (∀ k a, (k, a) ∈ m → HashId a = k) →
  hashes objs = stock_hashes →
  hashes (foldl (mod_step stock_hashes) (objs, adds) m).1 = stock_hashes.
Proof.
  revert objs adds.
  induction m as [|[k a] m IHm]; intros objs adds Hm Hobjs; cbn [foldl]; [by cbn|].
  unfold mod_step at 2. cbn [fst snd]. destruct (index stock_hashes k) as [i|] eqn:E.
  - apply IHm; [intros; apply Hm, elem_of_cons; auto|].
    unfold hashes in *. rewrite list_fmap_insert, Hobjs.
    rewrite (Hm k a) by (apply elem_of_cons; auto).
    apply list_insert_id. by apply index_lookup.
  - apply IHm; [intros; apply Hm, elem_of_cons; auto | done].
Qed.

Lemma mod_fold_extra stock_hashes (m : dict Z (Actor Value)) objs adds a :
  a ∈ (foldl (mod_step stock_hashes) (objs, adds) m).2 →
  a ∈ adds ∨ ∃ k, (k, a) ∈ m ∧ k ∉ stock_hashes.
Proof.
  revert objs adds. induction m as [|[k b] m IHm]; intros objs adds; cbn [foldl]; [auto|].
  unfold mod_step at 2. cbn [fst snd]. destruct (index stock_hashes k) as [i|] eqn:E.
  - intros [?|(k' & ? & ?)]%IHm; [auto|]. right. exists k'. rewrite elem_of_cons. auto.
  - intros [Ha|(k' & ? & ?)]%IHm.
    + apply elem_of_app in Ha as [?|Ha]; [auto|]. apply list_elem_of_singleton in Ha as ->.
      right. exists k. rewrite elem_of_cons. split; [auto|]. by apply index_None.
    + right. exists k'. rewrite elem_of_cons. auto.
Qed.

(** *** The deletion loop *)

Lemma del_step_sublist stock_hashes objs map_del :
  del_step stock_hashes objs map_del `sublist_of` objs.
Proof.
  unfold del_step. destruct (py_in map_del stock_hashes); [|done].
  destruct (index stock_hashes map_del) as [i|]; [|done].
  unfold pop. case_decide; cbn.
  - apply sublist_delete.
  - destruct (list_find _ objs) as [[p obj]|]; [|done].
    clear. revert p. induction objs as [|e objs IHobjs]; intros p; simpl; [constructor|].
    destruct p; [by apply sublist_cons|]. destruct (py_eq e obj); [by apply sublist_cons|].
    apply sublist_skip, IHobjs.
Qed.

Lemma del_fold_sublist stock_hashes dels objs :
  foldl (del_step stock_hashes) objs dels `sublist_of` objs.
Proof.
  revert objs. induction dels as [|d dels IHdels]; intros objs; cbn [foldl]; [done|].
  etrans; [apply IHdels | apply del_step_sublist].
Qed.

Lemma del_key_middle stock_hashes (P1 P2 : list Z) x :
  NoDup stock_hashes → stock_hashes = P1 ++ x :: P2 →
  del_key stock_hashes x = Z.of_nat (length P1) ∧
  ∀ y, y ∈ P2 → Z.of_nat (length P1) < del_key stock_hashes y.
Proof.
  intros Hnd ->. unfold del_key. split.
  - rewrite (index_NoDup _ x (length P1)); [done..|]. by apply list_lookup_middle.
  - intros y [j Hj]%list_elem_of_lookup_1.
    rewrite (index_NoDup _ y (length P1 + S j)); [lia|done|].
    rewrite lookup_app_r by lia. by replace (length P1 + S j - length P1)%nat with (S j) by lia.
Qed.

(** With unique stock ids and each deletion listed once, in descending
    stock position, every [pop] hits the object it is meant for: [P] is the
    part of the stock list not reached yet. *)
Lemma del_fold_hashes stock_hashes :
  NoDup stock_hashes →
  ∀ dels P Q T objs,
    stock_hashes = P ++ Q →
    NoDup dels →
    StronglySorted (λ x y, del_key stock_hashes y ≤ del_key stock_hashes x) dels →
    (∀ y, y ∈ dels → y ∈ stock_hashes → y ∈ P) →
    hashes objs = P ++ T →
    hashes (foldl (del_step stock_hashes) objs dels) = filter (λ y, y ∉ dels) P ++ T.
Proof.
  intros Hstock. induction dels as [|x dels IHdels]; intros P Q T objs HS Hnd Hsort HP Hobjs.
  - cbn [foldl]. rewrite filter_all; [done|]. intros y _. apply not_elem_of_nil.
  - cbn [foldl]. apply NoDup_cons in Hnd as [Hx Hnd].
    apply StronglySorted_inv in Hsort as [Hsort Hle]. rewrite Forall_forall in Hle.
    destruct (decide (x ∈ stock_hashes)) as [HxS|HxS].
    + destruct (list_elem_of_split P x) as (P1 & P2 & ->);
        [apply HP; [apply elem_of_cons; auto | done]|].
      assert (HS' : stock_hashes = P1 ++ x :: (P2 ++ Q)) by (by rewrite HS, <- app_assoc).
      destruct (del_key_middle _ _ _ _ Hstock HS') as [Hkx Hky].
      assert (HP2 : ∀ y, y ∈ P2 → y ∉ dels).
      { intros y Hy HyL. specialize (Hle y HyL).
        specialize (Hky y (proj2 (elem_of_app _ _ _) (or_introl Hy))). lia. }
      pose proof Hstock as Hnd3. rewrite HS' in Hnd3.
      apply NoDup_app in Hnd3 as (_ & Hd & [Hn1 Hn2]%NoDup_cons).
      assert (x ∉ P1) as HxP1 by (intros Hin; apply (Hd x Hin), elem_of_cons; auto).
      assert (Hidx : index stock_hashes x = Some (length P1))
        by (rewrite HS'; by apply index_middle).
      assert (Hstep : hashes (del_step stock_hashes objs x) = P1 ++ (P2 ++ T)).
      { unfold del_step. rewrite (proj2 (py_in_true _ _) HxS), Hidx. unfold pop.
        rewrite decide_True.
        - cbn. unfold hashes in *. rewrite list_fmap_delete, Hobjs, <- !app_assoc. cbn [app].
          apply delete_middle.
        - rewrite <- (length_fmap HashId objs). unfold hashes in Hobjs. rewrite Hobjs.
          rewrite !length_app. cbn [length]. lia. }
      rewrite (IHdels P1 (x :: P2 ++ Q) (P2 ++ T) _ HS' Hnd Hsort); [|clear IHdels|done].
      * rewrite filter_app, filter_cons, decide_False by (intros Hn; apply Hn, elem_of_cons; auto).
        rewrite <- !app_assoc. f_equal.
        -- apply filter_ext_elem. intros y Hy. split.
           ++ intros Hyd [->|?]%elem_of_cons; done.
           ++ intros Hyd ?. apply Hyd, elem_of_cons. auto.
        -- f_equal. symmetry. apply filter_all. intros y Hy.
           apply not_elem_of_cons. split; [|auto].
           intros ->. apply Hn1. apply elem_of_app. auto.
      * intros y HyL HyS.
        assert (HyP : y ∈ P1 ++ x :: P2) by (apply HP; [apply elem_of_cons; auto | done]).
        apply elem_of_app in HyP as [?|HyP]; [done|].
        apply elem_of_cons in HyP as [->|HyP]; [done|]. by destruct (HP2 y).
    + assert (Hstep : del_step stock_hashes objs x = objs).
      { unfold del_step. by rewrite (proj2 (py_in_false _ _) HxS). }
      rewrite Hstep. rewrite (IHdels P Q T objs HS Hnd Hsort); [|clear IHdels|done].
      * f_equal. apply filter_ext_elem. intros y Hy. split.
        -- intros Hyd [->|?]%elem_of_cons; [|done]. apply HxS.
           rewrite HS. apply elem_of_app. auto.
        -- intros Hyd ?. apply Hyd, elem_of_cons. auto.
      * intros y Hy. apply HP. apply elem_of_cons. auto.
Qed.

Lemma mod_fold_extra_keys stock_hashes (m : dict Z (Actor Value)) objs :
  (∀ k a, (k, a) ∈ m → HashId a = k) →
  hashes (foldl (mod_step stock_hashes) (objs, []) m).2 `sublist_of` m.*1.
Proof.
  revert objs. induction m as [|[k a] m IHm]; intros objs Hm; cbn [foldl]; [done|].
  unfold mod_step at 2. cbn [fst snd]. rewrite fmap_cons. cbn [fst].
  destruct (index stock_hashes k).
  - apply sublist_cons, IHm. intros; apply Hm, elem_of_cons; auto.
  - rewrite mod_fold_adds. cbn [snd app]. unfold hashes. rewrite fmap_cons.
    rewrite (Hm k a) by (apply elem_of_cons; auto).
    apply sublist_skip, IHm. intros; apply Hm, elem_of_cons; auto.
Qed.

Lemma hashes_filter stock_hashes adds :
  hashes (filter (λ change, HashId change ∉ stock_hashes) adds)
  = filter (λ h, h ∉ stock_hashes) (hashes adds).
Proof.
  unfold hashes. induction adds as [|a adds IHadds]; [done|].
  rewrite fmap_cons, !filter_cons. case_decide; [rewrite fmap_cons|]; by rewrite IHadds.
Qed.

(** The object list of [merge_map] is a rearrangement of what is left of
    the stock objects followed by the additions that pass the filter. *)
Lemma merge_objs_Permutation stock_objs changes no_del :
  ∃ objs extra,
    merge_objs stock_objs changes no_del
    ≡ₚ objs ++ filter (λ change, HashId change ∉ hashes stock_objs)
                 (diff_add changes ++ extra) ∧
    extra = (foldl (mod_step (hashes stock_objs)) (stock_objs, []) (diff_mod changes)).2 ∧
    objs `sublist_of`
      (foldl (mod_step (hashes stock_objs)) (stock_objs, []) (diff_mod changes)).1 ∧
    (no_del = false →
     objs = foldl (del_step (hashes stock_objs))
              (foldl (mod_step (hashes stock_objs)) (stock_objs, []) (diff_mod changes)).1
              (sort_by_key_reverse (del_key (hashes stock_objs)) (diff_del changes))).
Proof.
  unfold merge_objs. rewrite mod_fold_adds. cbn [fst snd].
  eexists _, _. split; [apply sort_by_key_Permutation|]. split; [done|].
  destruct no_del; cbn [negb]; split; try done. apply del_fold_sublist.
Qed.

(** C5, as the code has it.  The object list [merge_map] builds is always
    ascending by [HashId].  It is strictly ascending, with no id twice,
    when the stock ids are unique, each [mod] entry is keyed by the
    [HashId] of its actor, the [add] list and the [mod] dict each name an id
    once, and an id that is both added and modified is a stock id. *)
Theorem merge_map_sorted :
  (∀ (stock_objs : list (Actor Value)) changes no_del,
     StronglySorted Z.le (hashes (merge_objs stock_objs changes no_del))) ∧
  (∀ (stock_objs : list (Actor Value)) changes no_del,
     NoDup (hashes stock_objs) →
     (∀ k a, (k, a) ∈ diff_mod changes → HashId a = k) →
     NoDup (diff_mod changes).*1 →
     NoDup (hashes (diff_add changes)) →
     (∀ k, k ∈ (diff_mod changes).*1 → k ∈ hashes (diff_add changes) →
           k ∈ hashes stock_objs) →
     StronglySorted Z.lt (hashes (merge_objs stock_objs changes no_del))).
Proof.
  assert (Hle : ∀ (stock_objs : list (Actor Value)) changes no_del,
            StronglySorted Z.le (hashes (merge_objs stock_objs changes no_del))).
  { intros. unfold merge_objs, hashes.
    eapply StronglySorted_fmap; [|apply sort_by_key_sorted]. done. }
  split; [done|].
  intros stock_objs changes no_del Hstock Hkeyed Hkeys Hadd Hdisj.
  apply StronglySorted_le_lt; [done|].
  destruct (merge_objs_Permutation stock_objs changes no_del)
    as (objs & extra & Hperm & Hextra & Hsub & _).
  assert (Hobjs : hashes objs `sublist_of` hashes stock_objs).
  { pose proof (mod_fold_hashes (hashes stock_objs) (diff_mod changes) stock_objs []
                  Hkeyed eq_refl) as E.
    unfold hashes in *. etrans; [apply fmap_sublist, Hsub|]. by rewrite E. }
  assert (Hex : hashes extra `sublist_of` (diff_mod changes).*1)
    by (rewrite Hextra; by apply mod_fold_extra_keys).
  assert (Hhash : hashes (merge_objs stock_objs changes no_del)
            ≡ₚ hashes objs ++ filter (λ h, h ∉ hashes stock_objs) (hashes (diff_add changes))
                 ++ filter (λ h, h ∉ hashes stock_objs) (hashes extra)).
  { unfold hashes at 1. rewrite Hperm, fmap_app, filter_app, fmap_app.
    by rewrite <- !hashes_filter. }
  rewrite Hhash. apply NoDup_app. split_and!.
  - eapply sublist_NoDup; [exact Hstock | exact Hobjs].
  - intros h Hh [[Hn _]%list_elem_of_filter|[Hn _]%list_elem_of_filter]%elem_of_app;
      apply Hn; (eapply elem_of_sublist; [exact Hh | exact Hobjs]).
  - apply NoDup_app. split_and!.
    + eapply sublist_NoDup; [exact Hadd | apply sublist_filter].
    + intros h [Hn Hh]%list_elem_of_filter [_ Hh']%list_elem_of_filter.
      apply Hn, Hdisj; [|done]. eapply elem_of_sublist; [exact Hh' | exact Hex].
    + eapply sublist_NoDup; [|apply sublist_filter].
      eapply sublist_NoDup; [exact Hkeys | exact Hex].
Qed.

(** C6, as the code has it.  An [add] record whose [HashId] is already in
    the stock map is dropped: the merged object list is the one obtained
    without the record.  It is not appended, and it does not replace the
    stock object either. *)
Theorem merge_map_add_existing_dropped (stock_objs : list (Actor Value)) changes no_del
    (l1 l2 : list (Actor Value)) (a : Actor Value) :
  diff_add changes = l1 ++ a :: l2 →
  HashId a ∈ hashes stock_objs →
  merge_objs stock_objs changes no_del
  = merge_objs stock_objs (mkDiff (l1 ++ l2) (diff_mod changes) (diff_del changes)) no_del.
Proof.
  intros Hadd Ha. unfold merge_objs. cbn [diff_add diff_mod diff_del].
  rewrite mod_fold_adds, (mod_fold_adds _ _ _ (l1 ++ l2)), Hadd. cbn [fst snd].
  do 2 f_equal. rewrite <- !app_assoc, !filter_app. do 2 f_equal.
  rewrite filter_cons, decide_False; [done|]. by intros Hn.
Qed.

(** C10.  With deletions enabled, an id that is in the stock map, in
    [del], and the [HashId] of an [add] record is gone from the merged
    object list: the stock object is removed and the record is not
    appended.  The stock ids and the [del] list are without repeats, and
    [mod] entries are keyed by the [HashId] of their actor. *)
Theorem merge_map_deletion_wins (stock_objs : list (Actor Value)) changes
    (h : Z) (a : Actor Value) :
  NoDup (hashes stock_objs) →
  NoDup (diff_del changes) →
  (∀ k b, (k, b) ∈ diff_mod changes → HashId b = k) →
  h ∈ hashes stock_objs →
  h ∈ diff_del changes →
  a ∈ diff_add changes → HashId a = h →
  ∀ obj, obj ∈ merge_objs stock_objs changes false → HashId obj ≠ h.
Proof.
  intros Hstock Hdel Hkeyed HhS Hhd Ha Hah obj Hobj Heq.
  destruct (merge_objs_Permutation stock_objs changes false)
    as (objs & extra & Hperm & _ & _ & Hobjs).
  specialize (Hobjs eq_refl). rewrite Hperm in Hobj.
  apply elem_of_app in Hobj as [Hobj|Hobj].
  - assert (Hh : h ∈ hashes objs) by (rewrite <- Heq; by apply list_elem_of_fmap_2).
    rewrite Hobjs in Hh.
    rewrite (del_fold_hashes (hashes stock_objs) Hstock _ (hashes stock_objs) [] []) in Hh.
    + rewrite app_nil_r in Hh. apply list_elem_of_filter in Hh as [Hn _]. apply Hn.
      by rewrite sort_by_key_reverse_Permutation.
    + by rewrite app_nil_r.
    + by rewrite sort_by_key_reverse_Permutation.
    + apply sort_by_key_reverse_sorted.
    + done.
    + rewrite app_nil_r. by apply mod_fold_hashes.
  - apply list_elem_of_filter in Hobj as [Hn _]. apply Hn. by rewrite Heq.
Qed.

End Merge.

Section DungeonStatic.
Context {Value : Type} `{!PyEq Value}.
Implicit Types (base_pos mod_pos : list (Dungeon Value)) (dungeon : Dungeon Value).
Implicit Types (diffs : dict string (DungeonDiff Value)).

Lemma dungeon_step_other base_pos base_dungeons diffs dungeon name :
  dungeon_Map dungeon ≠ name →
  dict_get (dungeon_step base_pos base_dungeons diffs dungeon) name = dict_get diffs name.
Proof.
  intros Hne. unfold dungeon_step.
  destruct (py_in _ _); cbn [negb]; [|by rewrite dict_get_set_ne].
  destruct (_ ≫= _) as [base_dungeon|]; [|done].
  destruct (py_ne (Rotate dungeon) _), (py_ne (Translate dungeon) _);
    repeat first [ done | rewrite dict_get_set_ne by done
                 | match goal with
                   | |- context [dict_has ?d ?k] => destruct (dict_has d k); cbn [negb]
                   end
                 | match goal with |- context [match dict_get ?d ?k with _ => _ end] =>
                     destruct (dict_get d k) end ].
Qed.

Lemma dungeon_fold_other base_pos base_dungeons diffs mod_pos name :
  name ∉ dungeon_Map <$> mod_pos →
  dict_get (foldl (dungeon_step base_pos base_dungeons) diffs mod_pos) name
  = dict_get diffs name.
Proof.
  revert diffs. induction mod_pos as [|d mod_pos IHmod]; intros diffs Hn; cbn [foldl]; [done|].
  rewrite fmap_cons, not_elem_of_cons in Hn. destruct Hn as [Hd Hn].
  rewrite IHmod by done. by apply dungeon_step_other.
Qed.

(** C9, as the code has it.  For a modified [StartPos] list that names
    each map once, a map that is not in the stock list is mapped to its
    whole record; a map that is in it is mapped to a dict with [Rotate]
    exactly when [Rotate] differs from the stock record and [Translate]
    exactly when [Translate] differs, and has no entry when neither
    does. *)
Theorem get_dungeonstatic_diff_fields base_pos mod_pos dungeon :
  NoDup (dungeon_Map <$> mod_pos) →
  dungeon ∈ mod_pos →
  let diffs := dungeonstatic_diff base_pos mod_pos in
  let name := dungeon_Map dungeon in
  (name ∉ dungeon_Map <$> base_pos → dict_get diffs name = Some (Whole dungeon)) ∧
  (∀ i base_dungeon,
     list_find (λ b, dungeon_Map b = name) base_pos = Some (i, base_dungeon) →
     let rotated := py_ne (Rotate dungeon) (Rotate base_dungeon) in
     let moved := py_ne (Translate dungeon) (Translate base_dungeon) in
     dict_get diffs name =
       if rotated || moved
       then Some (Partial (if rotated then Some (Rotate dungeon) else None)
                          (if moved then Some (Translate dungeon) else None))
       else None).
Proof.
  intros Hnd Hin diffs name. subst diffs. unfold dungeonstatic_diff.
  apply list_elem_of_split in Hin as (l1 & l2 & ->).
  rewrite fmap_app, fmap_cons in Hnd. apply NoDup_app in Hnd as (_ & Hl1 & [Hl2 _]%NoDup_cons).
  assert (Hl1' : name ∉ dungeon_Map <$> l1).
  { intros Hn. apply (Hl1 _ Hn). apply elem_of_cons. auto. }
  rewrite foldl_app. cbn [foldl]. rewrite dungeon_fold_other by done.
  pose proof (dungeon_fold_other base_pos (dungeon_Map <$> base_pos) [] l1 name Hl1') as Hbefore.
  cbn [dict_get] in Hbefore.
  set (diffs1 := foldl (dungeon_step base_pos (dungeon_Map <$> base_pos)) [] l1) in *.
  unfold dungeon_step. fold name. split.
  - intros Hbase. rewrite (proj2 (py_in_false _ _) Hbase). cbn [negb].
    by rewrite dict_get_set_eq.
  - intros i base_dungeon (Hi & Hname & Hfirst)%list_find_Some.
    assert (Hidx : index (dungeon_Map <$> base_pos) name = Some i).
    { apply index_Some. split; [by rewrite list_lookup_fmap, Hi; cbn; rewrite Hname|].
      intros j Hj Hl. rewrite list_lookup_fmap in Hl.
      destruct (base_pos !! j) as [b|] eqn:E; [|done]. cbn in Hl.
      apply (Hfirst j b E Hj). congruence. }
    assert (Hbase : name ∈ dungeon_Map <$> base_pos).
    { apply list_elem_of_lookup. exists i. by apply index_lookup. }
    rewrite (proj2 (py_in_true _ _) Hbase), Hidx. cbn [negb mbind option_bind]. rewrite Hi.
    destruct (py_ne (Rotate dungeon) _), (py_ne (Translate dungeon) _); cbn [orb].
    + assert (dict_has (dict_set diffs1 name (Partial (Some (Rotate dungeon)) None)) name
              = true) as ->.
      { apply dict_has_get. rewrite dict_get_set_eq. eauto. }
      cbn [negb]. by rewrite !dict_get_set_eq.
    + by rewrite dict_get_set_eq.
    + assert (dict_has diffs1 name = false) as ->.
      { apply not_true_iff_false. rewrite dict_has_get, Hbefore. by intros [? ?]. }
      cbn [negb]. by rewrite !dict_get_set_eq.
    + done.
Qed.

End DungeonStatic.

Lemma io_bind_run {A B} (m : IO A) (k : A → IO B) w x w1 :
  m w = (inr x, w1) → (m ≫= k) w = k x w1.
Proof. intros H. unfold mbind, IO_bind. by rewrite H. Qed.

Lemma elem_of_inits (p d : Path) : d ∈ inits p ↔ d `prefix_of` p.
Proof.
  revert d. induction p as [|x p IHp]; intros d; cbn [inits].
  - rewrite list_elem_of_singleton. split; [intros ->; done|]. by intros ->%prefix_nil_inv.
  - rewrite elem_of_cons, list_elem_of_fmap. split.
    + intros [->|(d' & -> & Hd')]; [apply prefix_nil|]. apply prefix_cons, IHp, Hd'.
    + destruct d as [|y d]; [auto|]. intros Hp. right.
      pose proof (prefix_cons_inv_1 _ _ _ _ Hp) as ->.
      exists d. split; [done|]. apply IHp. by eapply prefix_cons_inv_2.
Qed.

Section NoOp.
Context {Value : Type} `{!PyEq Value}.
Context (lib : Libraries (Value:=Value)) (settings : Settings).

Lemma reset_frame_refl w : reset_frame settings w w.
Proof.
  split_and!; [auto| |auto]. exists []. rewrite app_nil_r. split; [done|].
  by intros p ?%elem_of_nil.
Qed.

Lemma reset_frame_trans w1 w2 w3 :
  reset_frame settings w1 w2 → reset_frame settings w2 w3 → reset_frame settings w1 w3.
Proof.
  intros (Hf & (ws & Hw & Hws) & Hd) (Hf' & (ws' & Hw' & Hws') & Hd'). split_and!.
  - intros p b [Hp|Hp]%Hf'; [|auto]. by apply Hf.
  - exists (ws ++ ws'). rewrite Hw', Hw, app_assoc. split; [done|].
    intros p [?|?]%elem_of_app; auto.
  - intros d [Hdd|Hdd]%Hd'; [|auto]. by apply Hd.
Qed.

#[local] Instance reset_frame_PreOrder : PreOrder (reset_frame settings).
Proof. split; [exact reset_frame_refl | exact reset_frame_trans]. Qed.

Lemma mkdir_parents_frame p w :
  p `prefix_of` master_dir settings ++ ["logs"] ∨ p `prefix_of` parent (aoc_pack_path settings) →
  reset_frame settings w (mkdir_parents p w).2.
Proof.
  intros Hp. unfold mkdir_parents, reset_frame. cbn [snd files dirs written]. split_and!; [auto| |].
  - exists []. rewrite app_nil_r. split; [done|]. by intros ? ?%elem_of_nil.
  - intros d [?|Hd]%elem_of_union; [auto|]. right.
    apply elem_of_list_to_set, elem_of_inits in Hd.
    destruct Hp; [left|right]; by etrans.
Qed.

Lemma get_data_dir_run w :
  ∃ w', get_data_dir settings w = (inr (data_dir settings), w') ∧ reset_frame settings w w'.
Proof.
  unfold get_data_dir, reading. unfold mbind at 1, IO_bind. cbn.
  destruct (path_exists w (data_dir settings)); cbn.
  - eexists. split; [done|]. reflexivity.
  - eexists. split; [done|]. apply (mkdir_parents_frame (data_dir settings) w).
    left. unfold master_dir. rewrite <- !app_assoc. by apply prefix_app_r.
Qed.

Lemma get_modpack_dir_run w :
  ∃ w', get_modpack_dir settings w = (inr (data_dir settings ++ ["mods"]), w')
        ∧ reset_frame settings w w'.
Proof.
  destruct (get_data_dir_run w) as (w' & Hrun & Hframe).
  exists w'. split; [|done]. unfold get_modpack_dir. by rewrite (io_bind_run _ _ _ _ _ Hrun).
Qed.

Lemma write_bytes_frame p data w :
  p = aoc_pack_path settings ∨ p = rules_path settings →
  reset_frame settings w (write_bytes p data w).2.
Proof.
  intros Hp. unfold write_bytes, reset_frame. cbn [snd files dirs written].
  split_and!; [| |auto].
  - intros q b. rewrite lookup_insert. case_decide; [subst; auto|auto].
  - exists [p]. split; [done|]. by intros q ->%list_elem_of_singleton.
Qed.

Lemma create_bcml_graphicpack_run w :
  ∃ w', create_bcml_graphicpack_if_needed settings w = (inr (), w') ∧ reset_frame settings w w'.
Proof.
  destruct (get_modpack_dir_run w) as (w1 & Hrun & Hframe).
  unfold create_bcml_graphicpack_if_needed. rewrite (io_bind_run _ _ _ _ _ Hrun).
  unfold mbind at 1, IO_bind. cbn [mkdir_parents].
  set (w2 := mkWorld _ _ _ _ _).
  assert (Hf2 : reset_frame settings w1 w2).
  { apply (mkdir_parents_frame (((data_dir settings ++ ["mods"]) ++ ["9999_BCML"]) ++ ["logs"]) w1).
    by left. }
  unfold reading. unfold mbind at 1, IO_bind. cbn.
  destruct (path_exists w2 _); cbn.
  - eexists. split; [done|]. by etrans.
  - eexists. split; [done|]. etrans; [exact Hframe|]. etrans; [exact Hf2|].
    apply (write_bytes_frame _ rules_txt w2). by right.
Qed.

Lemma get_master_modpack_dir_run w :
  ∃ w', get_master_modpack_dir settings w = (inr (master_dir settings), w')
        ∧ reset_frame settings w w'.
Proof.
  destruct (get_modpack_dir_run w) as (w1 & Hrun & Hframe).
  unfold get_master_modpack_dir. rewrite (io_bind_run _ _ _ _ _ Hrun).
  unfold reading. unfold mbind at 1, IO_bind. cbn.
  destruct (path_exists w1 _); cbn.
  - eexists. split; [done|]. done.
  - destruct (create_bcml_graphicpack_run w1) as (w2 & Hrun2 & Hframe2).
    rewrite (io_bind_run _ _ _ _ _ Hrun2). cbn. eexists. split; [done|]. by etrans.
Qed.

Lemma wp_bind {A B} (m : IO A) (k : A → IO B) Q w :
  wp m (λ r w', match r with inl e => Q (inl e) w' | inr x => wp (k x) Q w' end) w →
  wp (m ≫= k) Q w.
Proof. unfold wp, mbind, IO_bind. by destruct (m w) as [[e|x] w']. Qed.

Lemma wp_ret {A} (x : A) (Q : result A → World → Prop) w : Q (inr x) w → wp (mret x) Q w.
Proof. done. Qed.

Lemma wp_reading {A} (f : World → result A) Q w : Q (f w) w → wp (reading f) Q w.
Proof. done. Qed.

Lemma wp_get_master_modpack_dir Q w :
  (∀ w', reset_frame settings w w' → Q (inr (master_dir settings)) w') →
  wp (get_master_modpack_dir settings) Q w.
Proof.
  intros HQ. destruct (get_master_modpack_dir_run w) as (w' & Hrun & Hframe).
  unfold wp. rewrite Hrun. by apply HQ.
Qed.

Lemma wp_mkdir_parents p Q w :
  p `prefix_of` master_dir settings ++ ["logs"] ∨ p `prefix_of` parent (aoc_pack_path settings) →
  (∀ w', reset_frame settings w w' → Q (inr ()) w') → wp (mkdir_parents p) Q w.
Proof. intros Hp HQ. apply HQ. by apply mkdir_parents_frame. Qed.

Lemma wp_write_bytes p data Q w :
  p = aoc_pack_path settings ∨ p = rules_path settings →
  (∀ w', reset_frame settings w w' → Q (inr ()) w') → wp (write_bytes p data) Q w.
Proof. intros Hp HQ. apply HQ. by apply write_bytes_frame. Qed.

(** Nothing is left under a removed tree. *)
Lemma wp_rmtree p Q w :
  (∀ w', reset_frame settings w w' → (∀ q, p `prefix_of` q → files w' !! q = None) →
         Q (inr ()) w') →
  wp (rmtree p) Q w.
Proof.
  intros HQ. apply HQ.
  - unfold rmtree, reset_frame. cbn [snd files dirs written]. split_and!.
    + intros q b [? _]%map_lookup_filter_Some. auto.
    + exists []. rewrite app_nil_r. split; [done|]. by intros ? ?%elem_of_nil.
    + intros d [_ ?]%elem_of_filter. auto.
  - intros q Hq. unfold rmtree. cbn [snd files]. apply map_lookup_filter_None. right.
    intros b _ Hn. by apply Hn.
Qed.

Lemma wp_unlink p Q w :
  (∀ w', reset_frame settings w w' → files w' !! p = None → Q (inr ()) w') →
  (∀ e, files w !! p = None → Q (inl e) w) →
  wp (unlink p) Q w.
Proof.
  intros HQ HE. unfold wp, unlink. destruct (files w !! p) as [b|] eqn:E; cbn [fst snd].
  - apply HQ.
    + unfold reset_frame. cbn [files dirs written]. split_and!; [| |auto].
      * intros q b'. rewrite lookup_delete. case_decide; [done|auto].
      * exists []. rewrite app_nil_r. split; [done|]. by intros ? ?%elem_of_nil.
    + cbn [files]. apply lookup_delete_eq.
  - by apply HE.
Qed.

Lemma reset_frame_absent w w' p :
  reset_frame settings w w' → files w !! p = None →
  p ≠ aoc_pack_path settings → p ≠ rules_path settings →
  files w' !! p = None.
Proof.
  intros (Hf & _) Hp Ha Hr. destruct (files w' !! p) as [b|] eqn:E; [|done].
  destruct (Hf p b E) as [?|[?|?]]; congruence.
Qed.

Lemma master_suffix_prefix (a b : Path) :
  master_dir settings ++ a `prefix_of` master_dir settings ++ b → a `prefix_of` b.
Proof. apply prefix_app_inv. Qed.

Lemma parent_aoc_pack :
  parent (aoc_pack_path settings) = master_dir settings ++ ["aoc"; "0010"; "Pack"].
Proof. unfold parent, aoc_pack_path. by rewrite removelast_app. Qed.

Lemma reset_frame_clean w w' (tree : Path) :
  reset_frame settings w w' →
  ¬ tree `prefix_of` ["aoc"; "0010"; "Pack"; "AocMainField.pack"] →
  ¬ tree `prefix_of` ["rules.txt"] →
  (∀ q, master_dir settings ++ tree `prefix_of` q → files w !! q = None) →
  ∀ q, master_dir settings ++ tree `prefix_of` q → files w' !! q = None.
Proof.
  intros Hframe Ha Hr Hclean q Hq. eapply reset_frame_absent; [done|by apply Hclean|..].
  - intros ->. by apply Ha, master_suffix_prefix.
  - intros ->. by apply Hr, master_suffix_prefix.
Qed.

(** C7, as the code has it.  When the consolidated diffs are empty,
    [perform_merge] stops after resetting the master modpack: the only
    files it may write are the emptied [AocMainField.pack] and the
    modpack's [rules.txt]; afterwards there is no [map.log] and no file
    under either merged [MainField] tree; and it returns normally, provided
    [map.log] is not a directory. *)
Theorem perform_merge_noop (all_diffs : list (ModDiff Value)) (no_del link_del : bool)
    (w : World) :
  consolidate_diffs all_diffs = inr [] →
  let w' := (perform_merge lib settings all_diffs no_del link_del w).2 in
  (∃ ws, written w' = written w ++ ws ∧
         ∀ p, p ∈ ws → p = master_dir settings ++ ["aoc"; "0010"; "Pack"; "AocMainField.pack"]
                       ∨ p = master_dir settings ++ ["rules.txt"]) ∧
  files w' !! (master_dir settings ++ ["logs"; "map.log"]) = None ∧
  (∀ p, master_dir settings ++ ["aoc"; "0010"; "Map"; "MainField"] `prefix_of` p ∨
        master_dir settings ++ ["content"; "Map"; "MainField"] `prefix_of` p →
        files w' !! p = None) ∧
  (master_dir settings ++ ["logs"; "map.log"] ∉ dirs w →
   (perform_merge lib settings all_diffs no_del link_del w).1 = inr ()).
Proof.
  intros Hnone.
  set (Post := λ (r : result ()) (w' : World),
    reset_frame settings w w' ∧
    files w' !! (log_path settings) = None ∧
    (∀ p, master_dir settings ++ ["aoc"; "0010"; "Map"; "MainField"] `prefix_of` p →
          files w' !! p = None) ∧
    (∀ p, master_dir settings ++ ["content"; "Map"; "MainField"] `prefix_of` p →
          files w' !! p = None) ∧
    (log_path settings ∉ dirs w → r = inr ())).
  assert (HP : wp (perform_merge lib settings all_diffs no_del link_del) Post w).
  { unfold perform_merge. fold (master_dir settings).
    apply wp_bind, wp_get_master_modpack_dir. intros w1 F1.
    apply wp_bind, wp_reading.
    assert (H2 : ∀ (stale : bool) Q, (∀ w2, reset_frame settings w1 w2 → Q (inr ()) w2) →
      wp (if stale
          then mkdir_parents (parent (aoc_pack_path settings));;
               write_bytes (aoc_pack_path settings) []
          else mret ()) Q w1).
    { intros [|] Q HQ.
      - apply wp_bind, wp_mkdir_parents; [by right|]. intros wa Fa.
        apply wp_write_bytes; [by left|]. intros wb Fb. apply HQ. by etrans.
      - apply wp_ret, HQ. reflexivity. }
    cbn beta. apply wp_bind, H2. intros w2 F2.
    apply wp_bind, wp_get_master_modpack_dir. intros w3 F3.
    apply wp_bind, wp_rmtree. intros w4 F4 C4.
    apply wp_bind, wp_get_master_modpack_dir. intros w5 F5.
    apply wp_bind, wp_rmtree. intros w6 F6 C6.
    apply wp_bind, wp_get_master_modpack_dir. intros w7 F7.
    apply wp_bind, wp_reading. cbn beta.
    assert (F47 : reset_frame settings w4 w7)
      by (etrans; [exact F5|]; etrans; [exact F6|]; exact F7).
    assert (F07 : reset_frame settings w w7)
      by (etrans; [exact F1|]; etrans; [exact F2|]; etrans; [exact F3|]; etrans; [exact F4|];
          exact F47).
    assert (C7a : ∀ p, master_dir settings ++ ["aoc"; "0010"; "Map"; "MainField"] `prefix_of` p →
                       files w7 !! p = None).
    { apply (reset_frame_clean w4 w7); [done| | |done].
      - by intros [k [=]].
      - by intros [k [=]]. }
    assert (C7b : ∀ p, master_dir settings ++ ["content"; "Map"; "MainField"] `prefix_of` p →
                       files w7 !! p = None).
    { apply (reset_frame_clean w6 w7); [done| | |done].
      - by intros [k [=]].
      - by intros [k [=]]. }
    assert (H8 : ∀ Q, (∀ w8 r, reset_frame settings w7 w8 → files w8 !! (log_path settings) = None →
                               (log_path settings ∉ dirs w → r = inr ()) → Q r w8) →
      wp (if path_exists w7 (master_dir settings ++ ["logs"; "map.log"])
          then unlink (master_dir settings ++ ["logs"; "map.log"]) else mret ()) Q w7).
    { intros Q HQ. destruct (path_exists w7 _) eqn:E.
      - apply wp_unlink.
        + intros w8 F8 Hl. by apply HQ.
        + intros e Hl. apply HQ; [reflexivity|done|]. intros Hdir. exfalso.
          unfold path_exists in E. apply orb_true_iff in E as [E|E].
          * apply bool_decide_eq_true, elem_of_dom in E. rewrite Hl in E. by destruct E.
          * apply bool_decide_eq_true in E. destruct F07 as (_ & _ & Hd).
            destruct (Hd _ E) as [?|[Hp|Hp]]; [done|..].
            -- apply master_suffix_prefix in Hp. by destruct Hp as [k [=]].
            -- rewrite parent_aoc_pack in Hp. apply master_suffix_prefix in Hp.
               by destruct Hp as [k [=]].
      - apply wp_ret, HQ; [reflexivity| |done].
        unfold path_exists in E. apply orb_false_iff in E as [E _].
        apply bool_decide_eq_false in E. by apply not_elem_of_dom. }
    assert (Hkeep : ∀ w8, reset_frame settings w7 w8 → files w8 !! (log_path settings) = None →
      reset_frame settings w w8 ∧ files w8 !! (log_path settings) = None ∧
      (∀ p, master_dir settings ++ ["aoc"; "0010"; "Map"; "MainField"] `prefix_of` p →
            files w8 !! p = None) ∧
      (∀ p, master_dir settings ++ ["content"; "Map"; "MainField"] `prefix_of` p →
            files w8 !! p = None)).
    { intros w8 F8 Hl. split_and!; [by etrans|done|..].
      - apply (reset_frame_clean w7 w8); [done| | |done]; by intros [k [=]].
      - apply (reset_frame_clean w7 w8); [done| | |done]; by intros [k [=]]. }
    apply wp_bind, H8. intros w8 [e|[]] F8 Hl Hr.
    - destruct (Hkeep w8 F8 Hl) as (? & ? & ? & ?). unfold Post. split_and!; try done;
        intros Hdir; by specialize (Hr Hdir).
    - apply wp_bind, wp_reading. rewrite Hnone. apply wp_ret.
      destruct (Hkeep w8 F8 Hl) as (? & ? & ? & ?). unfold Post. by split_and!. }
  unfold wp, Post in HP. destruct HP as ((_ & Hw & _) & Hlog & Ha & Hb & Hr).
  split_and!; [done|done| |done].
  intros p [?|?]; auto.
Qed.

End NoOp.

Lemma io_bind_raise {A B} (m : IO A) (k : A → IO B) w e w1 :
  m w = (inl e, w1) → (m ≫= k) w = (inl e, w1).
Proof. intros H. unfold mbind, IO_bind. by rewrite H. Qed.

Lemma io_try_except_inr {A} (m : IO A) e h w x w1 :
  m w = (inr x, w1) → io_try_except m e h w = (inr x, w1).
Proof. intros H. unfold io_try_except. by rewrite H. Qed.

Lemma io_try_except_catch {A} (m : IO A) e h w w1 :
  m w = (inl e, w1) → io_try_except m e h w = h w1.
Proof. intros H. unfold io_try_except. rewrite H. by rewrite decide_True. Qed.

Lemma path_exists_file w p b : files w !! p = Some b → path_exists w p = true.
Proof.
  intros Hf. unfold path_exists. apply orb_true_iff. left.
  apply bool_decide_eq_true, elem_of_dom. eauto.
Qed.

Lemma same_files_refl w : same_files w w.
Proof. done. Qed.

Lemma same_files_trans w1 w2 w3 : same_files w1 w2 → same_files w2 w3 → same_files w1 w3.
Proof. intros (?&?&?) (?&?&?). split_and!; congruence. Qed.

Lemma same_files_path_exists w w' p : same_files w w' → path_exists w' p = path_exists w p.
Proof. intros (Hf & Hd & _). unfold path_exists. by rewrite Hf, Hd. Qed.

Lemma same_files_read_bytes w w' p : same_files w w' → read_bytes w' p = read_bytes w p.
Proof. intros (Hf & Hd & _). unfold read_bytes. by rewrite Hf, Hd. Qed.

Lemma same_files_touches allowed w w' : same_files w w' → touches allowed w w'.
Proof.
  intros (Hf & Hd & Hw). split_and!.
  - intros p _. by rewrite Hf.
  - exists []. rewrite app_nil_r. split; [done|]. by intros p ?%elem_of_nil.
  - by rewrite Hd.
Qed.

Lemma quiet_ret {A} (x : A) : quiet (mret x).
Proof. intros w. apply same_files_refl. Qed.

Lemma quiet_reading {A} (f : World → result A) : quiet (reading f).
Proof. intros w. apply same_files_refl. Qed.

Lemma quiet_bind {A B} (m : IO A) (k : A → IO B) :
  quiet m → (∀ x, quiet (k x)) → quiet (m ≫= k).
Proof.
  intros Hm Hk w. specialize (Hm w). unfold mbind, IO_bind.
  destruct (m w) as [[e|x] w1]; [done|]. eapply same_files_trans; [exact Hm|apply Hk].
Qed.

Lemma quiet_try_except {A} (m : IO A) e (h : IO A) :
  quiet m → quiet h → quiet (io_try_except m e h).
Proof.
  intros Hm Hh w. specialize (Hm w). unfold io_try_except.
  destruct (m w) as [[e'|x] w1]; [|done]. case_decide; [|done].
  eapply same_files_trans; [exact Hm|apply Hh].
Qed.

Section Baseline.
Context {Value : Type} `{!PyEq Value}.
Context (lib : Libraries (Value:=Value)) (settings : Settings).

Lemma base_links_of_spec (base_objs : list (Actor Value)) (h : Z) :
  h ∈ base_links_of false base_objs ↔
  ∃ obj ls l, obj ∈ base_objs ∧ LinksToObj obj = Some ls ∧ l ∈ ls ∧ DestUnitHashId l = h.
Proof.
  unfold base_links_of.
  assert (G : ∀ (acc : gset Z),
    h ∈ foldl (λ (links : gset Z) (obj : Actor Value),
             match LinksToObj obj with
             | Some ls => links ∪ list_to_set (DestUnitHashId <$> ls)
             | None => links
             end) acc base_objs ↔
    h ∈ acc ∨ ∃ obj ls l, obj ∈ base_objs ∧ LinksToObj obj = Some ls ∧ l ∈ ls
                          ∧ DestUnitHashId l = h).
  { induction base_objs as [|o os IHos]; intros acc; simpl.
    - split; [auto|]. intros [?|(?&?&?&Hin&_)]; [done|]. by apply elem_of_nil in Hin.
    - rewrite IHos. destruct (LinksToObj o) as [ls|] eqn:E.
      + rewrite elem_of_union, elem_of_list_to_set, list_elem_of_fmap. split.
        * intros [[?|(l&?&?)]|(obj&ls'&l&?&?&?&?)]; [by left| |].
          -- right. exists o, ls, l. rewrite elem_of_cons. naive_solver.
          -- right. exists obj, ls', l. rewrite elem_of_cons. naive_solver.
        * intros [?|(obj&ls'&l&[->|?]%elem_of_cons&?&?&?)]; [by left;left| |].
          -- left; right. exists l. naive_solver.
          -- right. naive_solver.
      + split.
        * intros [?|(obj&ls'&l&?&?&?&?)]; [by left|]. right. exists obj, ls', l.
          rewrite elem_of_cons. naive_solver.
        * intros [?|(obj&ls'&l&[->|?]%elem_of_cons&?&?&?)]; [by left| congruence |].
          right. naive_solver. }
  rewrite G. split; [|by right]. intros [H|H]; [|done]. by apply not_elem_of_empty in H.
Qed.

(** C4.  The [del] list of [get_map_diff] holds exactly the stock ids
    that the modified map lacks, none at all when [no_del] is set, and,
    unless [link_del] is set, none that some stock object links to.  For
    stock objects 1 and 2, where 2 links to 1, and a modified map without
    object 1, [del] is empty without [link_del] and is [1] with it. *)
Theorem get_map_diff_del (w : World) :
  (∀ (base_map mod_map : Document) (no_del link_del : bool),
     ∃ diffs,
       get_map_diff lib settings (inl base_map) mod_map no_del link_del w = (inr diffs, w) ∧
       ∀ h, h ∈ diff_del diffs ↔
         h ∈ hashes (Objs base_map) ∧ (h ∉ hashes (Objs mod_map)) ∧ no_del = false ∧
         (link_del = true ∨
          ¬ ∃ obj ls l, obj ∈ Objs base_map ∧ LinksToObj obj = Some ls ∧ l ∈ ls ∧
                        DestUnitHashId l = h)) ∧
  (∀ (n1 n2 : string) (v1 v2 v3 d : Value) (link_del : bool),
     let base_map :=
       mkDocument [mkActor 1 n1 None v1; mkActor 2 n2 (Some [mkLink 1 v3]) v2] d in
     let mod_map := mkDocument [mkActor 2 n2 (Some [mkLink 1 v3]) v2] d in
     diff_del <$> (get_map_diff lib settings (inl base_map) mod_map false link_del w).1
     = inr (if link_del then [1] else [])).
Proof.
  split.
  - intros base_map mod_map no_del link_del. eexists. split; [reflexivity|].
    intros h. cbn [get_map_diff_loaded diff_del].
    rewrite list_elem_of_In, filter_In, <- list_elem_of_In.
    rewrite !andb_true_iff, !negb_true_iff, py_in_false, andb_false_iff, negb_false_iff.
    rewrite bool_decide_eq_false.
    destruct link_del.
    + unfold base_links_of. split.
      * intros (?&(?&?)&_). auto.
      * intros (?&?&?&_). repeat split; auto.
    + rewrite base_links_of_spec. split.
      * intros (?&(?&?)&[?|?]); [done|]. auto.
      * intros (?&?&?&[?|?]); [done|]. repeat split; auto.
  - intros n1 n2 v1 v2 v3 d [|]; reflexivity.
Qed.

Lemma get_aoc_dir_error w e : (get_aoc_dir settings w).1 = inl e → e = FileNotFoundError.
Proof.
  unfold get_aoc_dir. destruct (aoc_dir_attr w); [done|]. cbv zeta.
  destruct (saved_dir_exists _ _); by intros [=].
Qed.



Lemma try_get_aoc_dir_run w :
  try_get_aoc_dir settings w
  = (inr (match (get_aoc_dir settings w).1 with inr d => Some d | inl _ => None end),
     (get_aoc_dir settings w).2).
Proof.
  unfold try_get_aoc_dir, io_try_except, mbind, IO_bind.
  pose proof (get_aoc_dir_error w) as He.
  destruct (get_aoc_dir settings w) as [[e|d] w1]; cbn [fst snd] in *; [|done].
  rewrite (He e eq_refl). by rewrite decide_True.
Qed.

Lemma quiet_get_update_dir : quiet (get_update_dir settings).
Proof.
  intros w. unfold get_update_dir. destruct (update_dir_attr w); [done|]. cbv zeta.
  by destruct (saved_dir_exists _ _).
Qed.

Lemma quiet_get_aoc_dir : quiet (get_aoc_dir settings).
Proof.
  intros w. unfold get_aoc_dir. destruct (aoc_dir_attr w); [done|]. cbv zeta.
  by destruct (saved_dir_exists _ _).
Qed.

Lemma quiet_try_get_aoc_dir : quiet (try_get_aoc_dir settings).
Proof.
  apply quiet_try_except; [|apply quiet_ret].
  apply quiet_bind; [apply quiet_get_aoc_dir|]. intros d. apply quiet_ret.
Qed.

Lemma quiet_get_game_file path aoc : quiet (get_game_file settings path aoc).
Proof.
  unfold get_game_file. cbv zeta.
  apply quiet_bind; [apply quiet_reading|]. intros game.
  apply quiet_bind; [apply quiet_get_update_dir|]. intros update.
  apply quiet_bind; [apply quiet_try_get_aoc_dir|]. intros aoc_dir.
  apply quiet_reading.
Qed.

Lemma quiet_from_title_pack map_unit map_bytes :
  quiet (from_title_pack lib settings map_unit map_bytes).
Proof.
  unfold from_title_pack.
  apply quiet_bind; [apply quiet_get_game_file|]. intros pack_path.
  apply quiet_bind; [apply quiet_reading|]. intros data.
  destruct (read_file_and_make_sarc lib data); apply quiet_ret.
Qed.

Lemma quiet_vanilla_map_bytes map_unit : quiet (vanilla_map_bytes lib settings map_unit).
Proof.
  apply quiet_try_except; [|apply quiet_from_title_pack].
  apply quiet_bind; [apply quiet_get_update_dir|]. intros update. apply quiet_reading.
Qed.

Lemma quiet_aoc_map_bytes map_unit aoc_dir :
  quiet (aoc_map_bytes lib settings map_unit aoc_dir).
Proof.
  unfold aoc_map_bytes.
  apply quiet_bind; [apply quiet_reading|]. intros map_bytes.
  destruct (falsy map_bytes); [|apply quiet_ret].
  apply quiet_try_except.
  { apply quiet_bind; [apply quiet_get_game_file|]. intros path. apply quiet_reading. }
  apply quiet_try_except; [|apply quiet_from_title_pack].
  apply quiet_bind; [apply quiet_get_game_file|]. intros path. apply quiet_reading.
Qed.

(** Looking up a stock map changes no file. *)
Lemma quiet_get_stock_map map_unit force_vanilla :
  quiet (get_stock_map lib settings map_unit force_vanilla).
Proof.
  unfold get_stock_map.
  apply quiet_bind; [apply quiet_try_get_aoc_dir|]. intros aoc_dir.
  apply quiet_bind; [|intros map_bytes; apply quiet_reading].
  destruct aoc_dir as [aoc_dir|]; [destruct force_vanilla|];
    first [apply quiet_vanilla_map_bytes | apply quiet_aoc_map_bytes].
Qed.

(** C3, as the code has it.  Given a [Map] as baseline, [get_map_diff]
    compares against the DLC baseline when some object of the modified
    map carries a hard-mode marker and the DLC directory is there, and
    against the vanilla baseline when no object carries one (or the DLC
    directory is missing).  The DLC baseline is the member of
    [AocMainField.pack]; without one, the DLC file [get_game_file] finds;
    without that, the update or game file it finds; and at last the member
    of [TitleBG.pack].  The vanilla baseline is the file of the update
    directory, else the one of the game directory, and, where the update
    directory is missing or neither file is there, the member of
    [TitleBG.pack]. *)
Theorem get_map_diff_baseline (w : World) (map_unit : Map) (mod_map : Document)
    (no_del link_del : bool) :
  let marked := existsb (hard_mode_marker lib) (Objs mod_map) in
  let diff_against (run : result (option bytes) * World)
      : result (DiffRecord Value) * World :=
    (map_bytes ← run.1;
     base_map ← parse_map lib map_bytes;
     mret (get_map_diff_loaded (Objs base_map) (Objs mod_map) no_del link_del), run.2) in
  let member := map_member map_unit in
  (∀ aoc_dir w1,
     marked = true → get_aoc_dir settings w = (inr aoc_dir, w1) →
     get_map_diff lib settings (inr map_unit) mod_map no_del link_del w
     = diff_against (aoc_map_bytes lib settings map_unit aoc_dir w1)) ∧
  (∀ r w1,
     get_aoc_dir settings w = (r, w1) → marked = false ∨ r = inl FileNotFoundError →
     get_map_diff lib settings (inr map_unit) mod_map no_del link_del w
     = diff_against (vanilla_map_bytes lib settings map_unit w1)) ∧
  (∀ w0 (aoc_dir : Path) (data : bytes) map_pack b bs,
     files w0 !! (aoc_dir ++ ["Pack"; "AocMainField.pack"]) = Some data →
     read_file_and_make_sarc lib data = Some map_pack →
     dict_get map_pack member = Some (b :: bs) →
     aoc_map_bytes lib settings map_unit aoc_dir w0 = (inr (Some (b :: bs)), w0)) ∧
  (∀ w0 (aoc_dir : Path) map_bytes,
     aoc_pack_bytes lib w0 map_unit aoc_dir = inr map_bytes → falsy map_bytes = true →
     (∀ path w1 data,
        get_game_file settings (inr member) true w0 = (inr path, w1) →
        files w0 !! path = Some data →
        aoc_map_bytes lib settings map_unit aoc_dir w0 = (inr (Some data), w1)) ∧
     (∀ w1 path w2 data,
        get_game_file settings (inr member) true w0 = (inl FileNotFoundError, w1) →
        get_game_file settings (inr member) false w1 = (inr path, w2) →
        files w0 !! path = Some data →
        aoc_map_bytes lib settings map_unit aoc_dir w0 = (inr (Some data), w2)) ∧
     (∀ w1 w2,
        get_game_file settings (inr member) true w0 = (inl FileNotFoundError, w1) →
        get_game_file settings (inr member) false w1 = (inl FileNotFoundError, w2) →
        aoc_map_bytes lib settings map_unit aoc_dir w0
        = from_title_pack lib settings map_unit map_bytes w2)) ∧
  (∀ w0 (update : Path) w1 (data : bytes),
     get_update_dir settings w0 = (inr update, w1) →
     files w0 !! (update ++ map_path map_unit) = Some data →
     vanilla_map_bytes lib settings map_unit w0 = (inr (Some data), w1)) ∧
  (∀ w0 (update : Path) w1 (game : Path) (data : bytes),
     get_update_dir settings w0 = (inr update, w1) →
     path_exists w0 (update ++ map_path map_unit) = false →
     get_game_dir settings w0 = inr game →
     files w0 !! (game ++ map_path map_unit) = Some data →
     vanilla_map_bytes lib settings map_unit w0 = (inr (Some data), w1)) ∧
  (∀ w0 w1,
     get_update_dir settings w0 = (inl FileNotFoundError, w1)
     ∨ (∃ update game : Path,
          get_update_dir settings w0 = (inr update, w1) ∧
          path_exists w0 (update ++ map_path map_unit) = false ∧
          get_game_dir settings w0 = inr game ∧
          path_exists w0 (game ++ map_path map_unit) = false) →
     vanilla_map_bytes lib settings map_unit w0
     = from_title_pack lib settings map_unit None w1) ∧
  (∀ w0 map_bytes (pack_path : Path) w1 (data : bytes) title_pack,
     get_game_file settings (inr "Pack/TitleBG.pack") false w0 = (inr pack_path, w1) →
     files w0 !! pack_path = Some data →
     read_file_and_make_sarc lib data = Some title_pack →
     from_title_pack lib settings map_unit map_bytes w0
     = (inr (dict_get title_pack member), w1)).
Proof.
  intros marked diff_against member.
  assert (Hread : ∀ w0 w1 path data, same_files w0 w1 → files w0 !! path = Some data →
            reading (λ w2, Some <$> read_bytes w2 path) w1 = (inr (Some data), w1)).
  { intros w0 w1 path data Hs Hf. unfold reading.
    rewrite (same_files_read_bytes _ _ _ Hs). unfold read_bytes. by rewrite Hf. }
  assert (Hdiff : ∀ (m : IO (option bytes)) w1,
            (map_bytes ← m; reading (λ _, parse_map lib map_bytes)) w1
            = ((map_bytes ← (m w1).1; parse_map lib map_bytes), (m w1).2)).
  { intros m w1. unfold mbind at 1, IO_bind. by destruct (m w1) as [[e|mb] w2]. }
  assert (Hsel : ∀ (m : IO (option bytes)) aoc w1,
            try_get_aoc_dir settings w = (inr aoc, w1) →
            (match aoc with
             | Some aoc_dir =>
                 if stock_map_flag lib mod_map then vanilla_map_bytes lib settings map_unit
                 else aoc_map_bytes lib settings map_unit aoc_dir
             | None => vanilla_map_bytes lib settings map_unit
             end) = m →
            get_map_diff lib settings (inr map_unit) mod_map no_del link_del w
            = diff_against (m w1)).
  { intros m aoc w1 Htry <-. unfold get_map_diff, get_stock_map.
    unfold mbind at 1, IO_bind at 1. unfold mbind at 1, IO_bind at 1. rewrite Htry.
    rewrite Hdiff. subst diff_against. cbn beta.
    destruct (_ w1) as [[e|mb] w2]; cbn; [done|]. by destruct (parse_map lib mb). }
  split_and!.
  - intros aoc_dir w1 Hm Ha. apply (Hsel _ (Some aoc_dir)).
    + rewrite try_get_aoc_dir_run, Ha. done.
    + unfold stock_map_flag. fold marked. by rewrite Hm.
  - intros r w1 Ha Hm.
    destruct r as [e|aoc_dir].
    + apply (Hsel _ None); [|done]. rewrite try_get_aoc_dir_run, Ha. done.
    + destruct Hm as [Hm|[=]]. apply (Hsel _ (Some aoc_dir)).
      * rewrite try_get_aoc_dir_run, Ha. done.
      * unfold stock_map_flag. fold marked. by rewrite Hm.
  - intros w0 aoc_dir data map_pack b bs Hf Hs Hd. unfold aoc_map_bytes.
    assert (Hpack : aoc_pack_bytes lib w0 map_unit aoc_dir = inr (Some (b :: bs))).
    { unfold aoc_pack_bytes. cbv zeta. rewrite (path_exists_file _ _ _ Hf).
      unfold read_bytes. rewrite Hf. cbn. fold member. by rewrite Hs, Hd. }
    rewrite (io_bind_run _ _ w0 (Some (b :: bs)) w0); [done|].
    unfold reading. by rewrite Hpack.
  - intros w0 aoc_dir map_bytes Hpack Hfalsy.
    assert (Hrun : aoc_map_bytes lib settings map_unit aoc_dir w0
                   = io_try_except
                       (path ← get_game_file settings (inr member) true;
                        reading (λ w, Some <$> read_bytes w path))
                       FileNotFoundError
                       (io_try_except
                          (path ← get_game_file settings (inr member) false;
                           reading (λ w, Some <$> read_bytes w path))
                          FileNotFoundError
                          (from_title_pack lib settings map_unit map_bytes)) w0).
    { unfold aoc_map_bytes. rewrite (io_bind_run _ _ w0 map_bytes w0).
      - by rewrite Hfalsy.
      - unfold reading. by rewrite Hpack. }
    split_and!.
    + intros path w1 data Hg Hf. rewrite Hrun.
      apply io_try_except_inr. rewrite (io_bind_run _ _ _ _ _ Hg).
      apply (Hread w0); [|done].
      pose proof (quiet_get_game_file (inr member) true w0) as Hq. rewrite Hg in Hq. exact Hq.
    + intros w1 path w2 data Hg1 Hg2 Hf. rewrite Hrun.
      rewrite (io_try_except_catch _ _ _ _ w1) by (by apply io_bind_raise).
      apply io_try_except_inr. rewrite (io_bind_run _ _ _ _ _ Hg2).
      apply (Hread w0); [|done].
      pose proof (quiet_get_game_file (inr member) true w0) as Hq1.
      rewrite Hg1 in Hq1. cbn [snd] in Hq1.
      pose proof (quiet_get_game_file (inr member) false w1) as Hq2.
      rewrite Hg2 in Hq2. cbn [snd] in Hq2.
      by eapply same_files_trans.
    + intros w1 w2 Hg1 Hg2. rewrite Hrun.
      rewrite (io_try_except_catch _ _ _ _ w1) by (by apply io_bind_raise).
      by rewrite (io_try_except_catch _ _ _ _ w2) by (by apply io_bind_raise).
  - intros w0 update w1 data Hu Hf. unfold vanilla_map_bytes.
    apply io_try_except_inr. unfold vanilla_file_bytes. rewrite (io_bind_run _ _ _ _ _ Hu).
    pose proof (quiet_get_update_dir w0) as Hq. rewrite Hu in Hq. cbn [snd] in Hq.
    unfold reading. rewrite (same_files_path_exists _ _ _ Hq), (path_exists_file _ _ _ Hf).
    cbn. rewrite (same_files_read_bytes _ _ _ Hq). unfold read_bytes. by rewrite Hf.
  - intros w0 update w1 game data Hu He Hg Hf. unfold vanilla_map_bytes.
    apply io_try_except_inr. unfold vanilla_file_bytes. rewrite (io_bind_run _ _ _ _ _ Hu).
    pose proof (quiet_get_update_dir w0) as Hq. rewrite Hu in Hq. cbn [snd] in Hq.
    unfold reading. rewrite (same_files_path_exists _ _ _ Hq), He. cbn.
    assert (get_game_dir settings w1 = inr game) as ->.
    { rewrite <- Hg. unfold get_game_dir. destruct Hq as (_ & -> & _). done. }
    cbn. rewrite (same_files_read_bytes _ _ _ Hq). unfold read_bytes. by rewrite Hf.
  - intros w0 w1 [Hu|(update & game & Hu & He & Hg & Hn)]; unfold vanilla_map_bytes.
    + apply io_try_except_catch. unfold vanilla_file_bytes. by apply io_bind_raise.
    + apply io_try_except_catch. unfold vanilla_file_bytes. rewrite (io_bind_run _ _ _ _ _ Hu).
      pose proof (quiet_get_update_dir w0) as Hq. rewrite Hu in Hq. cbn [snd] in Hq.
      unfold reading. rewrite (same_files_path_exists _ _ _ Hq), He. cbn.
      assert (get_game_dir settings w1 = inr game) as ->.
      { rewrite <- Hg. unfold get_game_dir. destruct Hq as (_ & -> & _). done. }
      cbn. rewrite (same_files_read_bytes _ _ _ Hq). unfold read_bytes, path_exists in *.
      apply orb_false_iff in Hn as [Hn1 Hn2].
      apply bool_decide_eq_false, not_elem_of_dom in Hn1. by rewrite Hn1, Hn2.
  - intros w0 map_bytes pack_path w1 data title_pack Hg Hf Hs. unfold from_title_pack.
    rewrite (io_bind_run _ _ _ _ _ Hg).
    pose proof (quiet_get_game_file (inr "Pack/TitleBG.pack") false w0) as Hq.
    rewrite Hg in Hq. cbn [snd] in Hq.
    rewrite (io_bind_run _ _ w1 data w1).
    + by rewrite Hs.
    + unfold reading. rewrite (same_files_read_bytes _ _ _ Hq). unfold read_bytes. by rewrite Hf.
Qed.

(** C8, where the code departs from it.  On a machine with one CPU the
    number of workers [perform_merge] asks for is 0, not 1, whatever the
    number of map units, and [Pool] answers ValueError. *)
Theorem perform_merge_single_cpu_pool (map_diffs : dict Map (DiffRecord Value)) :
  num_threads 1 map_diffs = 0 ∧
  Pool (num_threads 1 map_diffs) = inl ValueError ∧
  Z.max 1 (Z.min (1 - 1) (Z.of_nat (length map_diffs))) = 1.
Proof.
  assert (num_threads 1 map_diffs = 0) as -> by (unfold num_threads; lia).
  split_and!; [done|done|lia].
Qed.

Lemma num_threads_two_cpus (cpus : Z) (map_diffs : dict Map (DiffRecord Value)) :
  2 ≤ cpus → map_diffs ≠ [] →
  num_threads cpus map_diffs = Z.max 1 (Z.min (cpus - 1) (Z.of_nat (length map_diffs))) ∧
  Pool (num_threads cpus map_diffs) = inr (num_threads cpus map_diffs).
Proof.
  intros Hc Hm. assert (1 ≤ Z.of_nat (length map_diffs)) by (destruct map_diffs; [done|cbn; lia]).
  unfold num_threads, Pool. split; [lia|]. by rewrite decide_False by lia.
Qed.

End Baseline.

(** ** Paths and map units *)

Section MapOrder.

Lemma string_compare_refl s : String.compare s s = Eq.
Proof. by apply OrderedTypeEx.String_as_OT.cmp_eq. Qed.

Lemma string_ltb_trans a b c : String.ltb a b = true → String.ltb b c = true → String.ltb a c = true.
Proof.
  unfold String.ltb. intros H1 H2.
  assert (String.compare a b = Lt) as H1' by (by destruct (String.compare a b)).
  assert (String.compare b c = Lt) as H2' by (by destruct (String.compare b c)).
  apply OrderedTypeEx.String_as_OT.cmp_lt in H1', H2'.
  pose proof (OrderedTypeEx.String_as_OT.lt_trans _ _ _ H1' H2') as H3.
  apply OrderedTypeEx.String_as_OT.cmp_lt in H3. change (String.compare a c = Lt) in H3. by rewrite H3.
Qed.

Lemma Map_lt_irrefl a : Map_lt a a = false.
Proof. unfold Map_lt, String.ltb. by rewrite !string_compare_refl. Qed.

Lemma Map_lt_trans a b c : Map_lt a b = true → Map_lt b c = true → Map_lt a c = true.
Proof.
  unfold Map_lt.
  destruct (String.compare (section a) (section b)) eqn:E1; [|..|done];
    destruct (String.compare (section b) (section c)) eqn:E2; try done.
  - apply String.compare_eq_iff in E1, E2. rewrite E1, E2, string_compare_refl.
    apply string_ltb_trans.
  - apply String.compare_eq_iff in E1. by rewrite E1, E2.
  - apply String.compare_eq_iff in E2. by rewrite <- E2, E1.
  - intros _ _. assert (String.ltb (section a) (section c) = true) as H.
    { apply (string_ltb_trans _ (section b)); unfold String.ltb; [by rewrite E1 | by rewrite E2]. }
    unfold String.ltb in H. by destruct (String.compare (section a) (section c)).
Qed.

Lemma Map_lt_total a b : Map_lt a b = false → Map_lt b a = false → a = b.
Proof.
  unfold Map_lt, String.ltb. rewrite (String.compare_antisym (section b) (section a)).
  rewrite (String.compare_antisym (type b) (type a)).
  destruct (String.compare (section a) (section b)) eqn:E1; cbn; try done.
  destruct (String.compare (type a) (type b)) eqn:E2; cbn; try done.
  intros _ _. apply String.compare_eq_iff in E1, E2. destruct a, b; cbn in *. congruence.
Qed.

End MapOrder.

Section Sorted.
Context {A : Type} (lt : A → A → bool).
Context (lt_irrefl : ∀ a, lt a a = false).
Context (lt_trans : ∀ a b c, lt a b = true → lt b c = true → lt a c = true).
Context (lt_total : ∀ a b, lt a b = false → lt b a = false → a = b).

Lemma sorted_Permutation l : sorted lt l ≡ₚ l.
Proof.
  unfold sorted. induction l as [|x l IHl]; cbn [foldr]; [done|].
  by rewrite insert_by_Permutation, IHl.
Qed.

Lemma sorted_StronglySorted l : NoDup l → StronglySorted (λ a b, lt a b = true) (sorted lt l).
Proof.
  intros Hnd.
  assert (Hle : StronglySorted (λ a b, lt b a = false) (sorted lt l)).
  { unfold sorted. clear Hnd. induction l as [|x l IHl]; cbn [foldr]; [constructor|].
    apply insert_by_sorted; [| | |done].
    - intros a b c Hab Hbc. destruct (lt c a) eqn:E; [|done].
      destruct (lt b c) eqn:E2.
      + by rewrite (lt_trans _ _ _ E2 E) in Hab.
      + rewrite (lt_total _ _ E2 Hbc) in Hab. congruence.
    - intros a b. by destruct (lt b a).
    - intros a b Hab. apply negb_false_iff in Hab.
      destruct (lt a b) eqn:E; [|done].
      pose proof (lt_trans _ _ _ E Hab) as Hc. by rewrite lt_irrefl in Hc. }
  assert (Hnd' : NoDup (sorted lt l)) by (by rewrite sorted_Permutation).
  induction Hle as [|x k Hk IHk Hx]; [constructor|].
  apply NoDup_cons in Hnd' as [Hin Hnd']. constructor; [auto|].
  rewrite Forall_forall in *. intros y Hy. specialize (Hx y Hy).
  destruct (lt x y) eqn:E; [done|]. destruct Hin. by rewrite (lt_total _ _ E Hx).
Qed.

End Sorted.

(** The set the comprehension of [consolidate_map_files] builds. *)
Lemma map_set_returns (paths : list Path) (maps0 : gset Map) :
  (∀ path, path ∈ paths → String.prefix "_" (path_stem path) = false →
           ∃ a_map, Map_of_file (path_stem path) = inr a_map) →
  ∃ maps,
    for_each (λ (maps : gset Map) path,
                if String.prefix "_" (path_stem path) then mret maps
                else a_map ← Map_of_file (path_stem path); mret (maps ∪ {[a_map]}))
      maps0 paths = inr maps ∧
    ∀ a_map, a_map ∈ maps ↔
      a_map ∈ maps0 ∨ ∃ path, path ∈ paths ∧ String.prefix "_" (path_stem path) = false ∧
                              Map_of_file (path_stem path) = inr a_map.
Proof.
  revert maps0. induction paths as [|p paths IHpaths]; intros maps0 Hall; cbn [for_each].
  - eexists. split; [done|]. intros m. split; [auto|]. intros [?|(?&?%elem_of_nil&_)]; done.
  - destruct (String.prefix "_" (path_stem p)) eqn:E; cbn.
    + destruct (IHpaths maps0) as (maps & -> & Hmaps);
        [intros; apply Hall; [apply elem_of_cons|]; auto|].
      eexists. split; [done|]. intros m. rewrite Hmaps. split.
      * intros [?|(q&?&?&?)]; [auto|]. right. exists q. rewrite elem_of_cons. auto.
      * intros [?|(q&[->|?]%elem_of_cons&?&?)]; [auto|congruence|]. right. eauto.
    + destruct (Hall p) as [m0 Hm0]; [apply elem_of_cons; auto|done|]. rewrite Hm0. cbn.
      destruct (IHpaths (maps0 ∪ {[m0]})) as (maps & -> & Hmaps);
        [intros; apply Hall; [apply elem_of_cons|]; auto|].
      eexists. split; [done|]. intros m. rewrite Hmaps, elem_of_union, elem_of_singleton. split.
      * intros [[?| ->]|(q&?&?&?)]; [auto| |].
        -- right. exists p. rewrite elem_of_cons. auto.
        -- right. exists q. rewrite elem_of_cons. auto.
      * intros [?|(q&[->|?]%elem_of_cons&?&?)]; [auto| |].
        -- left. right. congruence.
        -- right. eauto.
Qed.

Lemma Map_of_file_error file e : Map_of_file file = inl e → e = TypeError.
Proof.
  unfold Map_of_file. destruct (split "_" file) as [|a [|b [|??]]]; intros [=]; done.
Qed.

Lemma map_set_raises (paths : list Path) (maps0 : gset Map) path :
  path ∈ paths → String.prefix "_" (path_stem path) = false →
  Map_of_file (path_stem path) = inl TypeError →
  for_each (λ (maps : gset Map) path,
              if String.prefix "_" (path_stem path) then mret maps
              else a_map ← Map_of_file (path_stem path); mret (maps ∪ {[a_map]}))
    maps0 paths = inl TypeError.
Proof.
  revert maps0. induction paths as [|p paths IHpaths]; intros maps0; [by intros ?%elem_of_nil|].
  intros Hin Hpre Hbad. cbn [for_each].
  destruct (String.prefix "_" (path_stem p)) eqn:E; cbn.
  - apply elem_of_cons in Hin as [->|Hin]; [congruence|]. by apply IHpaths.
  - destruct (Map_of_file (path_stem p)) as [e|m] eqn:Em; cbn.
    + by rewrite (Map_of_file_error _ _ Em).
    + apply elem_of_cons in Hin as [->|Hin]; [congruence|]. by apply IHpaths.
Qed.

Lemma consolidate_map_files_returns (modded_maps : list Path) :
  (∀ path, path ∈ modded_maps → String.prefix "_" (path_stem path) = false →
           ∃ a_map, Map_of_file (path_stem path) = inr a_map) →
  ∃ maps : gset Map,
    consolidate_map_files modded_maps = inr (sorted Map_lt (elements maps)) ∧
    ∀ a_map, a_map ∈ maps ↔
      ∃ path, path ∈ modded_maps ∧ String.prefix "_" (path_stem path) = false ∧
              Map_of_file (path_stem path) = inr a_map.
Proof.
  intros Hall. destruct (map_set_returns modded_maps ∅ Hall) as (maps & Hrun & Hmaps).
  exists maps. unfold consolidate_map_files. rewrite Hrun. split; [done|].
  intros m. rewrite Hmaps. split; [|auto]. intros [?%not_elem_of_empty|?]; done.
Qed.

(** What a returned list holds. *)
Lemma consolidate_map_files_elem (modded_maps : list Path) maps :
  consolidate_map_files modded_maps = inr maps →
  NoDup maps ∧
  ∀ a_map, a_map ∈ maps →
    ∃ path, path ∈ modded_maps ∧ Map_of_file (path_stem path) = inr a_map.
Proof.
  intros Hmaps.
  assert (Hall : ∀ path, path ∈ modded_maps → String.prefix "_" (path_stem path) = false →
                         ∃ a_map, Map_of_file (path_stem path) = inr a_map).
  { intros path Hin Hpre.
    destruct (Map_of_file (path_stem path)) as [e|m] eqn:E; [|by eexists].
    pose proof (Map_of_file_error _ _ E) as ->. exfalso.
    unfold consolidate_map_files in Hmaps.
    by rewrite (map_set_raises modded_maps ∅ path Hin Hpre E) in Hmaps. }
  destruct (consolidate_map_files_returns modded_maps Hall) as (s & Hrun & Hs).
  rewrite Hrun in Hmaps. injection Hmaps as <-. split.
  - rewrite sorted_Permutation. apply NoDup_elements.
  - intros m. rewrite sorted_Permutation, elem_of_elements, Hs. naive_solver.
Qed.

(** [consolidate_map_files] returns when every stem that does not start
    with an underscore has the form [section_type]; its result is strictly
    ascending, so without repeats, and holds the map units of these
    stems. *)
Theorem consolidate_map_files_sorted (modded_maps : list Path) :
  (∀ path, path ∈ modded_maps → String.prefix "_" (path_stem path) = false →
           ∃ a_map, Map_of_file (path_stem path) = inr a_map) →
  ∃ maps,
    consolidate_map_files modded_maps = inr maps ∧
    StronglySorted (λ a b, Map_lt a b = true) maps ∧
    NoDup maps ∧
    ∀ a_map, a_map ∈ maps ↔
      ∃ path, path ∈ modded_maps ∧ String.prefix "_" (path_stem path) = false ∧
              Map_of_file (path_stem path) = inr a_map.
Proof.
  intros Hall. destruct (consolidate_map_files_returns modded_maps Hall) as (maps & Hrun & Hmaps).
  eexists. split; [exact Hrun|]. split_and!.
  - apply sorted_StronglySorted;
      [apply Map_lt_irrefl | apply Map_lt_trans | apply Map_lt_total | apply NoDup_elements].
  - rewrite sorted_Permutation. apply NoDup_elements.
  - intros m. by rewrite sorted_Permutation, elem_of_elements, Hmaps.
Qed.

(** A stem that does not start with an underscore and does not split into
    two parts at its underscores makes the comprehension raise. *)
Lemma consolidate_map_files_raises (modded_maps : list Path) (path : Path) :
  path ∈ modded_maps → String.prefix "_" (path_stem path) = false →
  length (split "_" (path_stem path)) ≠ 2%nat →
  consolidate_map_files modded_maps = inl TypeError.
Proof.
  intros Hin Hpre Hlen. unfold consolidate_map_files.
  rewrite (map_set_raises modded_maps ∅ path Hin Hpre); [done|].
  unfold Map_of_file. by destruct (split "_" (path_stem path)) as [|a [|b [|??]]].
Qed.

(** ** The log of a mod *)

Lemma dict_set_fresh `{EqDecision K} {V} (d : dict K V) k v :
  k ∉ d.*1 → dict_set d k v = d ++ [(k, v)].
Proof.
  induction d as [|[k0 v0] d IHd]; [done|].
  rewrite fmap_cons, not_elem_of_cons. cbn [fst]. intros [Hne Hk]. cbn [dict_set app].
  rewrite decide_False by done. by rewrite IHd.
Qed.

(** A loop that stores one computed value per key, for keys that are new
    and distinct: the dict grows by the pairs, in order. *)
Lemma io_for_each_dict_set `{EqDecision K} {A V} (key : A → K) (g : A → IO V) l
    (d0 : dict K V) w :
  NoDup (d0.*1 ++ (key <$> l)) →
  ∀ d w', io_for_each (λ d x, v ← g x; mret (dict_set d (key x) v)) d0 l w = (inr d, w') ↔
          ∃ vs, io_map g l w = (inr vs, w') ∧ d = d0 ++ zip (key <$> l) vs.
Proof.
  revert d0 w. induction l as [|x l IHl]; intros d0 w Hnd d w'; cbn [io_for_each io_map].
  - split.
    + intros [= <- <-]. exists []. split; [done|]. by rewrite app_nil_r.
    + intros (vs & [= <- <-] & ->). by rewrite app_nil_r.
  - rewrite fmap_cons in Hnd.
    assert (Hx : key x ∉ d0.*1).
    { apply NoDup_app in Hnd as (_ & Hd & _). intros Hin. apply (Hd _ Hin), elem_of_cons. auto. }
    destruct (g x w) as [[e|v] w1] eqn:Hg.
    { rewrite (io_bind_raise _ _ w e w1) by (by apply io_bind_raise).
      rewrite (io_bind_raise _ _ w e w1) by done.
      split; [intros [=] | intros (vs & [=] & _)]. }
    rewrite (io_bind_run _ _ w (dict_set d0 (key x) v) w1)
      by (by rewrite (io_bind_run _ _ _ _ _ Hg)).
    rewrite (io_bind_run _ _ _ _ _ Hg). rewrite dict_set_fresh by done.
    specialize (IHl (d0 ++ [(key x, v)]) w1).
    rewrite fmap_app, <- app_assoc in IHl. specialize (IHl Hnd d w'). rewrite IHl.
    destruct (io_map g l w1) as [[e|vs] w2] eqn:Hl.
    { rewrite (io_bind_raise _ _ w1 e w2) by done.
      split; [by intros (vs & [=] & _) | by intros (vs & [=] & _)]. }
    rewrite (io_bind_run _ _ _ _ _ Hl). cbn [mret IO_ret]. split.
    + intros (vs' & [= <- <-] & ->). exists (v :: vs). split; [done|].
      by rewrite <- app_assoc.
    + intros (vs' & [= <- <-] & ->). exists vs. split; [done|]. by rewrite <- app_assoc.
Qed.

Lemma io_for_each_ext {S A} (f g : S → A → IO S) s l w :
  (∀ s x w, f s x w = g s x w) → io_for_each f s l w = io_for_each g s l w.
Proof.
  intros Hfg. revert s w. induction l as [|x l IHl]; intros s w; cbn [io_for_each]; [done|].
  unfold mbind, IO_bind. rewrite Hfg. destruct (g s x w) as [[e|s'] w1]; [done|]. apply IHl.
Qed.

(** The log key of a map unit made from a file name is the file name. *)
Lemma Map_of_file_join file a_map :
  Map_of_file file = inr a_map → join "_" [section a_map; type a_map] = file.
Proof.
  unfold Map_of_file. intros H. rewrite <- (join_split "_" file).
  destruct (split "_" file) as [|a [|b [|??]]]; try done. by injection H as <-.
Qed.

Section LogKeys.
Context {Value : Type} `{!PyEq Value}.
Context (lib : Libraries (Value:=Value)) (settings : Settings).

Lemma consolidate_map_files_keys modded_mubins maps :
  consolidate_map_files modded_mubins = inr maps →
  NoDup ((λ m, join "_" [section m; type m]) <$> maps) ∧
  ∀ m, m ∈ maps → Map_of_file (join "_" [section m; type m]) = inr m.
Proof.
  intros [Hnd Hin]%consolidate_map_files_elem.
  assert (Hkey : ∀ m, m ∈ maps → Map_of_file (join "_" [section m; type m]) = inr m).
  { intros m (path & _ & Hm)%Hin. by rewrite (Map_of_file_join _ _ Hm). }
  split; [|done]. apply NoDup_fmap_2_strong; [|done].
  intros m1 m2 H1%Hkey H2%Hkey Heq. rewrite Heq in H1. congruence.
Qed.

(** One turn of the loop of [generate_modded_map_log], as the value it
    stores. *)
Lemma generate_modded_map_log_run w tmp_dir modded_mubins no_del link_del maps :
  consolidate_map_files modded_mubins = inr maps →
  ∀ log w',
    generate_modded_map_log lib settings tmp_dir modded_mubins no_del link_del w
    = (inr log, w') ↔
    ∃ diffs,
      io_map (λ modded_map,
                mod_map ← reading (λ w, get_modded_map lib w modded_map tmp_dir);
                get_map_diff lib settings (inr modded_map) mod_map no_del link_del) maps w
      = (inr diffs, w') ∧
      log = zip ((λ m, join "_" [section m; type m]) <$> maps) diffs.
Proof.
  intros Hmaps log w'. unfold generate_modded_map_log.
  rewrite (io_bind_run _ _ w maps w) by (unfold reading; by rewrite Hmaps).
  destruct (consolidate_map_files_keys _ _ Hmaps) as [Hnd _].
  erewrite io_for_each_ext.
  - apply (io_for_each_dict_set (λ m, join "_" [section m; type m])
             (λ m, mod_map ← reading (λ w, get_modded_map lib w m tmp_dir);
                   get_map_diff lib settings (inr m) mod_map no_del link_del)).
    done.
  - intros d m w0. unfold mbind, IO_bind, reading.
    by destruct (get_modded_map lib w0 m tmp_dir).
Qed.

(** Every key of a generated log is the name of a map unit. *)
Lemma generate_modded_map_log_keys w tmp_dir modded_mubins no_del link_del log :
  (generate_modded_map_log lib settings tmp_dir modded_mubins no_del link_del w).1 = inr log →
  ∀ entry, entry ∈ log → ∃ a_map, Map_of_file entry.1 = inr a_map.
Proof.
  intros Hlog.
  destruct (consolidate_map_files modded_mubins) as [e|maps] eqn:Hmaps.
  { unfold generate_modded_map_log in Hlog.
    rewrite (io_bind_raise _ _ w e w) in Hlog by (unfold reading; by rewrite Hmaps). done. }
  destruct (generate_modded_map_log lib settings tmp_dir modded_mubins no_del link_del w)
    as [r w'] eqn:Hrun. cbn [fst] in Hlog. subst r.
  pose proof (proj1 (generate_modded_map_log_run w _ _ _ _ _ Hmaps log w') Hrun)
    as (vs & _ & Hzip).
  destruct (consolidate_map_files_keys _ _ Hmaps) as [_ Hkey].
  intros [k v] Hin. rewrite Hzip in Hin. apply elem_of_zip_l in Hin. cbn [fst].
  apply list_elem_of_fmap in Hin as (m & -> & Hm). eauto.
Qed.

Lemma generate_diff_keys w mod_dir modded_files no_del link_del log :
  (generate_diff lib settings mod_dir modded_files no_del link_del w).1 = inr log →
  ∀ entry, entry ∈ log → ∃ a_map, Map_of_file entry.1 = inr a_map.
Proof.
  unfold generate_diff. destruct (omap _ _) as [|p ps].
  - intros [= <-] entry Hin. by apply elem_of_nil in Hin.
  - apply generate_modded_map_log_keys.
Qed.

(** Logs that [generate_diff] made always consolidate: the keys it writes
    are the file names [consolidate_diffs] can read back. *)
Theorem generate_diff_consolidates (diffs : list (ModDiff Value)) :
  (∀ log, log ∈ diffs →
          ∃ w mod_dir modded_files no_del link_del,
            (generate_diff lib settings mod_dir modded_files no_del link_del w).1 = inr log) →
  ∃ c_diffs, consolidate_diffs diffs = inr c_diffs.
Proof.
  intros Hgen. destruct (group_diffs_returns diffs) as [a_diffs Hg].
  - intros log entry Hlog Hentry.
    destruct (Hgen log Hlog) as (w & mod_dir & files & nd & ld & Hrun).
    by eapply generate_diff_keys.
  - unfold consolidate_diffs. rewrite Hg. by eexists.
Qed.

End LogKeys.

Section Generate.
Context {Value : Type} `{!PyEq Value}.
Context (lib : Libraries (Value:=Value)) (settings : Settings).

(** [generate_modded_map_log] returns exactly when every modded map unit
    is found and diffed, one after the other; the log then holds one entry
    per unit, keyed [section_type], in ascending order of the units. *)
Theorem generate_modded_map_log_entries w tmp_dir modded_mubins no_del link_del log w' :
  generate_modded_map_log lib settings tmp_dir modded_mubins no_del link_del w
  = (inr log, w') ↔
  ∃ maps diffs,
    consolidate_map_files modded_mubins = inr maps ∧
    io_map (λ modded_map,
              mod_map ← reading (λ w, get_modded_map lib w modded_map tmp_dir);
              get_map_diff lib settings (inr modded_map) mod_map no_del link_del) maps w
    = (inr diffs, w') ∧
    log = zip ((λ m, join "_" [section m; type m]) <$> maps) diffs.
Proof.
  split.
  - intros Hrun. destruct (consolidate_map_files modded_mubins) as [e|maps] eqn:Hmaps.
    { unfold generate_modded_map_log in Hrun.
      rewrite (io_bind_raise _ _ w e w) in Hrun by (unfold reading; by rewrite Hmaps).
      done. }
    exists maps.
    pose proof (proj1 (generate_modded_map_log_run lib settings w _ _ _ _ _ Hmaps log w')
                  Hrun) as (diffs & Hdiffs & Hzip).
    by exists diffs.
  - intros (maps & diffs & Hmaps & Hdiffs & ->).
    apply (proj2 (generate_modded_map_log_run lib settings w _ _ _ _ _ Hmaps _ w')).
    by exists diffs.
Qed.

(** A MainField [.smubin] file whose stem does not start with an
    underscore and is not of the form [section_type] makes [generate_diff]
    raise TypeError, whatever else the mod holds. *)
Theorem generate_diff_raises w mod_dir (modded_files : list (Path + string)) no_del link_del
    (file : Path) :
  inl file ∈ modded_files →
  is_modded_mubin (inl file) = true →
  String.prefix "_" (path_stem file) = false →
  length (split "_" (path_stem file)) ≠ 2%nat →
  generate_diff lib settings mod_dir modded_files no_del link_del w = (inl TypeError, w).
Proof.
  intros Hin Hmubin Hpre Hlen. unfold generate_diff.
  assert (Hfile : file ∈ omap (λ f : Path + string,
                                 match f with inl p => Some p | inr _ => None end)
                           (List.filter is_modded_mubin modded_files)).
  { apply list_elem_of_omap. exists (inl file). split; [|done].
    apply list_elem_of_In, filter_In. split; [by apply list_elem_of_In|done]. }
  destruct (omap _ _) as [|p ps] eqn:E; [by apply elem_of_nil in Hfile|].
  unfold generate_modded_map_log. apply io_bind_raise. unfold reading.
  by rewrite (consolidate_map_files_raises (p :: ps) file Hfile Hpre Hlen).
Qed.

(** Where [get_modded_map] takes the map from. *)
Theorem get_modded_map_sources w map_unit tmp_dir :
  let aoc_dir := modded_aoc_dir w tmp_dir in
  let aoc_pack := aoc_dir ++ ["Pack"; "AocMainField.pack"] in
  let aoc_file := tmp_dir ++ ["aoc"; "0010"] ++ map_path map_unit in
  let content_file := tmp_dir ++ ["content"] ++ map_path map_unit in
  (∀ data map_pack b bs,
     files w !! aoc_pack = Some data →
     read_file_and_make_sarc lib data = Some map_pack →
     dict_get map_pack (map_member map_unit) = Some (b :: bs) →
     get_modded_map lib w map_unit tmp_dir
     = inr (byml_parse lib (decompress lib (b :: bs)))) ∧
  (path_exists w aoc_pack = false →
   (path_exists w (aoc_dir ++ map_path map_unit) = true →
    get_modded_map lib w map_unit tmp_dir
    = read_bytes w aoc_file ≫= λ data, parse_map lib (Some data)) ∧
   (path_exists w (aoc_dir ++ map_path map_unit) = false →
    path_exists w content_file = true →
    get_modded_map lib w map_unit tmp_dir
    = read_bytes w content_file ≫= λ data, parse_map lib (Some data)) ∧
   (path_exists w (aoc_dir ++ map_path map_unit) = false →
    path_exists w content_file = false →
    get_modded_map lib w map_unit tmp_dir = inl FileNotFoundError)).
Proof.
  intros aoc_dir aoc_pack aoc_file content_file.
  unfold get_modded_map, modded_map_bytes. fold aoc_dir. fold aoc_pack. cbv zeta. split.
  - intros data map_pack b bs Hf Hs Hd.
    assert (path_exists w aoc_pack = true) as ->.
    { unfold path_exists. apply orb_true_iff. left. apply bool_decide_eq_true, elem_of_dom. eauto. }
    unfold read_bytes. rewrite Hf. cbn. by rewrite Hs, Hd.
  - intros ->. subst aoc_file content_file.
    split_and!; [intros Ha | intros Ha Hc | intros Ha Hc];
      cbn -[app path_exists read_bytes parse_map]; rewrite Ha, ?Hc;
      [by destruct (read_bytes w _) | by destruct (read_bytes w _) | done].
Qed.

(** A mod that ships a DLC map under [aoc/0010/content] only: the file is
    found there and then read under [aoc/0010], where it is not, so
    [get_modded_map] raises FileNotFoundError. *)
Theorem get_modded_map_content_layout w map_unit tmp_dir :
  let aoc_dir := tmp_dir ++ ["aoc"; "0010"; "content"] in
  path_exists w aoc_dir = true →
  path_exists w (aoc_dir ++ ["Pack"; "AocMainField.pack"]) = false →
  path_exists w (aoc_dir ++ map_path map_unit) = true →
  path_exists w (tmp_dir ++ ["aoc"; "0010"] ++ map_path map_unit) = false →
  get_modded_map lib w map_unit tmp_dir = inl FileNotFoundError.
Proof.
  intros aoc_dir Hdir Hpack Hfile Hnone.
  unfold get_modded_map, modded_map_bytes, modded_aoc_dir. fold aoc_dir.
  rewrite Hdir. cbn [negb]. rewrite Hpack.
  cbn -[app path_exists read_bytes parse_map]. rewrite Hfile.
  unfold read_bytes, path_exists in *. apply orb_false_iff in Hnone as [Hf Hd].
  apply bool_decide_eq_false, not_elem_of_dom in Hf. rewrite Hf, Hd. done.
Qed.

End Generate.

(** ** The structure of a merged map *)

(** A sublist is the filter it has the images of. *)
Lemma sublist_filter_fmap {A B} (f : A → B) (P : B → Prop) `{!∀ y, Decision (P y)}
    (l' l : list A) :
  l' `sublist_of` l → NoDup (f <$> l) → f <$> l' = filter P (f <$> l) →
  l' = filter (λ x, P (f x)) l.
Proof.
  induction 1 as [|x l' l Hsub IH|x l' l Hsub IH]; [done|..];
    rewrite ?fmap_cons, NoDup_cons, !filter_cons; intros [Hx Hnd].
  - destruct (decide (P (f x))).
    + intros [= Heq]. f_equal. by apply IH.
    + intros Heq. destruct Hx. eapply list_elem_of_filter. rewrite <- Heq. apply elem_of_cons. auto.
  - destruct (decide (P (f x))).
    + intros Heq. destruct Hx. eapply elem_of_sublist; [|by apply fmap_sublist].
      rewrite Heq. apply elem_of_cons. auto.
    + by apply IH.
Qed.

(** Two sorts by a key that is injective on the elements agree on
    rearrangements. *)
Lemma sort_by_key_unique {A} (key : A → Z) (l k : list A) :
  NoDup (key <$> l) → l ≡ₚ k → sort_by_key key l = sort_by_key key k.
Proof.
  intros Hnd Hperm.
  apply (StronglySorted_unique_strong (λ x y, key x ≤ key y));
    [|apply sort_by_key_sorted..|by rewrite !sort_by_key_Permutation].
  intros x y Hx Hy Hxy Hyx. rewrite sort_by_key_Permutation in Hx, Hy. rewrite <- Hperm in Hy.
  apply (NoDup_fmap_eq key l); [done..|lia].
Qed.

Section MergeStructure.
Context {Value : Type} `{!PyEq Value}.
Implicit Types (objs adds : list (Actor Value)) (stock_hashes : list Z).
Implicit Types (changes : DiffRecord Value).

(** After the [mod] loop an object is the [mod] entry of its stock id, or
    what it was. *)
Lemma mod_fold_lookup stock_hashes (m : dict Z (Actor Value)) objs adds i h :
  NoDup stock_hashes → NoDup m.*1 → length objs = length stock_hashes →
  stock_hashes !! i = Some h →
  (foldl (mod_step stock_hashes) (objs, adds) m).1 !! i
  = match dict_get m h with Some a => Some a | None => objs !! i end.
Proof.
  intros Hstock Hm Hlen Hi. revert objs adds Hlen Hm.
  induction m as [|[k a] m IHm]; intros objs adds Hlen Hm; cbn [foldl]; [done|].
  rewrite fmap_cons, NoDup_cons in Hm. destruct Hm as [Hk Hm]. cbn [fst] in Hk.
  unfold mod_step at 2. cbn [fst snd dict_get].
  destruct (index stock_hashes k) as [j|] eqn:E.
  - rewrite IHm by (by rewrite ?length_insert). destruct (decide (k = h)) as [->|Hne].
    + apply dict_get_None in Hk. rewrite Hk.
      assert (j = i) as ->.
      { apply index_lookup in E. exact (NoDup_lookup _ _ _ _ Hstock E Hi). }
      apply list_lookup_insert_eq. rewrite Hlen. by eapply lookup_lt_Some.
    + destruct (dict_get m h); [done|]. apply list_lookup_insert_ne.
      intros ->. apply index_lookup in E. congruence.
  - rewrite IHm by done. destruct (decide (k = h)) as [->|Hne]; [|done].
    apply index_None in E. destruct E. by eapply list_elem_of_lookup_2.
Qed.

(** The [mod] entries keyed by a stock id queue nothing. *)
Lemma mod_fold_no_extra stock_hashes (m : dict Z (Actor Value)) objs adds :
  (∀ k, k ∈ m.*1 → k ∈ stock_hashes) →
  (foldl (mod_step stock_hashes) (objs, adds) m).2 = adds.
Proof.
  intros Hm. rewrite mod_fold_adds. cbn [snd].
  destruct (foldl _ (objs, []) m).2 as [|a l] eqn:E; [by rewrite app_nil_r|].
  destruct (mod_fold_extra stock_hashes m objs [] a) as [?%elem_of_nil|(k & Hk & Hn)];
    [rewrite E; apply elem_of_cons; auto|done|].
  destruct Hn. apply Hm. apply list_elem_of_fmap. by exists (k, a).
Qed.

Lemma mod_fold_length stock_hashes (m : dict Z (Actor Value)) objs adds :
  length (foldl (mod_step stock_hashes) (objs, adds) m).1 = length objs.
Proof.
  revert objs adds. induction m as [|[k a] m IHm]; intros objs adds; cbn [foldl]; [done|].
  unfold mod_step at 2. cbn [fst snd]. destruct (index stock_hashes k).
  - by rewrite IHm, length_insert.
  - by rewrite IHm.
Qed.

(** The stock part of the merged list, once modified and pruned. *)
Lemma merge_objs_stock (stock_objs : list (Actor Value)) changes :
  NoDup (hashes stock_objs) → NoDup (diff_del changes) →
  (∀ k a, (k, a) ∈ diff_mod changes → HashId a = k) →
  foldl (del_step (hashes stock_objs))
    (foldl (mod_step (hashes stock_objs)) (stock_objs, []) (diff_mod changes)).1
    (sort_by_key_reverse (del_key (hashes stock_objs)) (diff_del changes))
  = filter (λ obj, HashId obj ∉ diff_del changes)
      (foldl (mod_step (hashes stock_objs)) (stock_objs, []) (diff_mod changes)).1.
Proof.
  intros Hstock Hdel Hkeyed.
  set (objs := (foldl _ (stock_objs, []) (diff_mod changes)).1).
  assert (Hobjs : hashes objs = hashes stock_objs) by (by apply mod_fold_hashes).
  rewrite (filter_ext_elem _ (λ obj, HashId obj ∉
             sort_by_key_reverse (del_key (hashes stock_objs)) (diff_del changes)))
    by (intros; by rewrite sort_by_key_reverse_Permutation).
  set (dels := sort_by_key_reverse (del_key (hashes stock_objs)) (diff_del changes)).
  assert (Hsub : foldl (del_step (hashes stock_objs)) objs dels `sublist_of` objs)
    by apply del_fold_sublist.
  assert (Hnd : NoDup (hashes objs)) by (by rewrite Hobjs).
  assert (Heq : hashes (foldl (del_step (hashes stock_objs)) objs dels)
                = filter (λ h, h ∉ dels) (hashes objs)).
  { rewrite Hobjs.
    rewrite (del_fold_hashes (hashes stock_objs) Hstock _ (hashes stock_objs) [] []).
    - by rewrite app_nil_r.
    - by rewrite app_nil_r.
    - subst dels. by rewrite sort_by_key_reverse_Permutation.
    - apply sort_by_key_reverse_sorted.
    - done.
    - by rewrite app_nil_r. }
  exact (sublist_filter_fmap HashId (λ h, h ∉ dels) _ objs Hsub Hnd Heq).
Qed.

End MergeStructure.

(** ** The diff of a map unit *)

Lemma dict_set_elem `{EqDecision K} {V} (d : dict K V) k v x :
  x ∈ dict_set d k v → x ∈ d ∨ x = (k, v).
Proof.
  induction d as [|[k0 v0] d IHd]; cbn [dict_set].
  - intros ->%list_elem_of_singleton. auto.
  - case_decide; rewrite !elem_of_cons; naive_solver.
Qed.

Lemma dict_elem_key `{EqDecision K} {V} (d : dict K V) k :
  k ∈ d.*1 ↔ ∃ v, (k, v) ∈ d.
Proof.
  rewrite list_elem_of_fmap. split.
  - intros ([k' v] & -> & Hin). eauto.
  - intros (v & Hin). by exists (k, v).
Qed.

Section Diff.
Context {Value : Type} `{!PyEq Value}.
Implicit Types (base_objs mod_objs : list (Actor Value)) (obj : Actor Value).

Lemma base_obj_of_Some base_objs obj base_obj :
  base_obj_of base_objs obj = Some base_obj →
  HashId obj ∈ hashes base_objs ∧ base_obj ∈ base_objs ∧ HashId base_obj = HashId obj.
Proof.
  unfold base_obj_of. intros (i & Hi & Hb)%bind_Some.
  pose proof (index_lookup _ _ _ Hi) as Hh. split_and!.
  - by eapply list_elem_of_lookup_2.
  - by eapply list_elem_of_lookup_2.
  - unfold hashes in Hh. rewrite list_lookup_fmap, Hb in Hh. by injection Hh.
Qed.

Lemma base_obj_of_is_Some base_objs obj :
  HashId obj ∈ hashes base_objs → is_Some (base_obj_of base_objs obj).
Proof.
  intros [i Hi]%index_elem_of. unfold base_obj_of. rewrite Hi. cbn.
  apply lookup_lt_is_Some. rewrite <- (length_fmap HashId). by eapply index_lt.
Qed.

(** With unique ids an object is its own stock object. *)
Lemma base_obj_of_self base_objs obj :
  NoDup (hashes base_objs) → obj ∈ base_objs → base_obj_of base_objs obj = Some obj.
Proof.
  intros Hnd [i Hi]%list_elem_of_lookup_1. unfold base_obj_of.
  rewrite (index_NoDup _ _ i Hnd); [done|]. unfold hashes. by rewrite list_lookup_fmap, Hi.
Qed.

Lemma diff_step_eq base_objs acc obj :
  diff_step base_objs (hashes base_objs) acc obj
  = match base_obj_of base_objs obj with
    | Some base_obj =>
        if py_ne obj base_obj then (acc.1, dict_set acc.2 (HashId obj) obj) else acc
    | None => (acc.1 ++ [obj], acc.2)
    end.
Proof.
  unfold diff_step. fold (base_obj_of base_objs obj).
  destruct (py_in (HashId obj) (hashes base_objs)) eqn:E; cbn [negb].
  - apply py_in_true, base_obj_of_is_Some in E as [b ->]. done.
  - apply py_in_false in E. destruct (base_obj_of base_objs obj) as [b|] eqn:Eb; [|done].
    by apply base_obj_of_Some in Eb as [? _].
Qed.

Lemma diff_fold_add base_objs acc l :
  (foldl (diff_step base_objs (hashes base_objs)) acc l).1
  = acc.1 ++ filter (λ obj, HashId obj ∉ hashes base_objs) l.
Proof.
  revert acc. induction l as [|obj l IHl]; intros acc; cbn [foldl].
  - by rewrite app_nil_r.
  - rewrite IHl, diff_step_eq, filter_cons.
    destruct (base_obj_of base_objs obj) as [b|] eqn:E.
    + apply base_obj_of_Some in E as [Hin _]. rewrite decide_False by (by intros Hn).
      by destruct (py_ne obj b).
    + rewrite decide_True; [cbn [fst]; by rewrite <- app_assoc|].
      intros Hin%base_obj_of_is_Some. rewrite E in Hin. by destruct Hin.
Qed.

Lemma diff_fold_mod_NoDup base_objs acc l :
  NoDup acc.2.*1 → NoDup (foldl (diff_step base_objs (hashes base_objs)) acc l).2.*1.
Proof.
  revert acc. induction l as [|obj l IHl]; intros acc Hacc; cbn [foldl]; [done|].
  apply IHl. rewrite diff_step_eq. destruct (base_obj_of base_objs obj) as [b|]; [|done].
  destruct (py_ne obj b); [|done]. by apply dict_set_NoDup.
Qed.

Lemma diff_fold_mod_elem base_objs acc l k a :
  (k, a) ∈ (foldl (diff_step base_objs (hashes base_objs)) acc l).2 →
  (k, a) ∈ acc.2 ∨
  (a ∈ l ∧ HashId a = k ∧ ∃ base_obj, base_obj_of base_objs a = Some base_obj ∧
                                      py_ne a base_obj = true).
Proof.
  revert acc. induction l as [|obj l IHl]; intros acc; cbn [foldl]; [auto|].
  intros [Hin|(Hin & ? & ?)]%IHl; [|right; rewrite elem_of_cons; auto].
  rewrite diff_step_eq in Hin. destruct (base_obj_of base_objs obj) as [b|] eqn:E; [|auto].
  destruct (py_ne obj b) eqn:Ene; [|auto]. cbn [snd] in Hin.
  apply dict_set_elem in Hin as [?|[= -> ->]]; [auto|].
  right. rewrite elem_of_cons. eauto 6.
Qed.

Lemma diff_fold_mod_other base_objs acc l h :
  h ∉ hashes l →
  dict_get (foldl (diff_step base_objs (hashes base_objs)) acc l).2 h = dict_get acc.2 h.
Proof.
  revert acc. induction l as [|obj l IHl]; intros acc; cbn [foldl]; [done|].
  unfold hashes. rewrite fmap_cons, not_elem_of_cons. intros [Hne Hh].
  rewrite IHl by done. rewrite diff_step_eq.
  destruct (base_obj_of base_objs obj) as [b|]; [|done].
  destruct (py_ne obj b); [|done]. cbn [snd]. by rewrite dict_get_set_ne.
Qed.

Lemma diff_fold_mod_get base_objs acc l obj base_obj :
  NoDup (hashes l) → obj ∈ l → base_obj_of base_objs obj = Some base_obj →
  dict_get (foldl (diff_step base_objs (hashes base_objs)) acc l).2 (HashId obj)
  = if py_ne obj base_obj then Some obj else dict_get acc.2 (HashId obj).
Proof.
  revert acc. induction l as [|o l IHl]; intros acc; [by intros _ ?%elem_of_nil|].
  unfold hashes. rewrite fmap_cons, NoDup_cons. intros [Ho Hnd] Hin Hb. cbn [foldl].
  apply elem_of_cons in Hin as [->|Hin].
  - rewrite diff_fold_mod_other by done. rewrite diff_step_eq, Hb.
    destruct (py_ne o base_obj); [|done]. cbn [snd]. by rewrite dict_get_set_eq.
  - rewrite (IHl _ Hnd Hin Hb). destruct (py_ne obj base_obj); [done|].
    rewrite diff_step_eq. destruct (base_obj_of base_objs o) as [b|]; [|done].
    destruct (py_ne o b); [|done]. cbn [snd]. rewrite dict_get_set_ne; [done|].
    intros Heq. destruct Ho. rewrite Heq. by apply list_elem_of_fmap_2.
Qed.

(** The [add] list of [get_map_diff] holds the objects of the modified map
    whose id is not a stock id, in document order.  An entry of [mod] is
    keyed by the id of its object, which is an object of the modified map
    that [!=] tells from the stock object of that id; and when the
    modified map has unique ids, every such object has its entry. *)
Theorem get_map_diff_add_mod base_objs mod_objs (no_del link_del : bool) :
  let diffs := get_map_diff_loaded base_objs mod_objs no_del link_del in
  diff_add diffs = filter (λ obj, HashId obj ∉ hashes base_objs) mod_objs ∧
  NoDup (diff_mod diffs).*1 ∧
  (∀ hash_id obj,
     dict_get (diff_mod diffs) hash_id = Some obj →
     HashId obj = hash_id ∧ obj ∈ mod_objs ∧
     ∃ base_obj, base_obj_of base_objs obj = Some base_obj ∧ py_ne obj base_obj = true) ∧
  (NoDup (hashes mod_objs) →
   ∀ obj base_obj,
     obj ∈ mod_objs → base_obj_of base_objs obj = Some base_obj →
     dict_get (diff_mod diffs) (HashId obj) = if py_ne obj base_obj then Some obj else None).
Proof.
  intros diffs. subst diffs. unfold get_map_diff_loaded. cbn [diff_add diff_mod]. split_and!.
  - by rewrite diff_fold_add.
  - apply diff_fold_mod_NoDup. constructor.
  - intros h obj Hget%dict_get_Some_elem.
    apply diff_fold_mod_elem in Hget as [?%elem_of_nil|(? & ? & ?)]; [done|auto].
  - intros Hnd obj b Hin Hb. by rewrite (diff_fold_mod_get _ _ _ _ _ Hnd Hin Hb).
Qed.

(** No id is in two of [add], [mod] and [del]. *)
Theorem get_map_diff_disjoint base_objs mod_objs (no_del link_del : bool) :
  let diffs := get_map_diff_loaded base_objs mod_objs no_del link_del in
  (∀ obj, obj ∈ diff_add diffs →
          (HashId obj ∉ (diff_mod diffs).*1) ∧ (HashId obj ∉ diff_del diffs)) ∧
  (∀ hash_id, hash_id ∈ (diff_mod diffs).*1 → hash_id ∉ diff_del diffs).
Proof.
  intros diffs. subst diffs. unfold get_map_diff_loaded. cbn [diff_add diff_mod diff_del].
  assert (Hmod : ∀ h, h ∈ (foldl (diff_step base_objs (hashes base_objs)) ([], []) mod_objs).2.*1 →
                      h ∈ hashes base_objs ∧ h ∈ hashes mod_objs).
  { intros h [a Ha]%dict_elem_key.
    apply diff_fold_mod_elem in Ha as [?%elem_of_nil|(Hin & <- & b & Hb & _)]; [done|].
    split; [by apply base_obj_of_Some in Hb as [? _] | by apply list_elem_of_fmap_2]. }
  assert (Hdel : ∀ h, h ∈ List.filter
              (λ hash_id, negb (py_in hash_id (hashes mod_objs)) && negb no_del
                          && negb (negb link_del
                                   && bool_decide (hash_id ∈ base_links_of link_del base_objs)))
              (hashes base_objs) →
            h ∈ hashes base_objs ∧ h ∉ hashes mod_objs).
  { intros h. rewrite list_elem_of_In, filter_In, <- list_elem_of_In.
    rewrite !andb_true_iff, negb_true_iff, py_in_false. naive_solver. }
  split.
  - intros obj. rewrite diff_fold_add. cbn [fst app].
    intros [Hn _]%list_elem_of_filter. split.
    + by intros [? _]%Hmod.
    + by intros [? _]%Hdel.
  - intros h [_ Hm]%Hmod [_ Hd]%Hdel. done.
Qed.

End Diff.

(** ** From a modified map to the merged map *)

Lemma no_elem_nil {A} (l : list A) : (∀ x, x ∉ l) → l = [].
Proof. destruct l as [|x l]; [done|]. intros H. destruct (H x). apply elem_of_cons. auto. Qed.

Lemma foldl_dict_set_fresh `{EqDecision K} {V} (c d : dict K V) :
  NoDup (c.*1 ++ d.*1) → foldl (λ c kv, dict_set c kv.1 kv.2) c d = c ++ d.
Proof.
  revert c. induction d as [|[k v] d IHd]; intros c Hnd; cbn [foldl]; [by rewrite app_nil_r|].
  rewrite fmap_cons in Hnd. cbn [fst snd] in *.
  rewrite dict_set_fresh.
  - rewrite IHd; [by rewrite <- app_assoc|]. by rewrite fmap_app, <- app_assoc.
  - apply NoDup_app in Hnd as (_ & Hd & _). intros Hin. apply (Hd _ Hin), elem_of_cons. auto.
Qed.

Section RoundTrip.
Context {Value : Type} `{!PyEq Value}.
Implicit Types (base_objs mod_objs : list (Actor Value)) (obj : Actor Value).

(** The [add] pass keeps a list of distinct ids as it is. *)
Lemma add_fold_NoDup (l : list (Actor Value)) (acc : list Z * list (Actor Value)) :
  NoDup (acc.1 ++ hashes l) → foldl add_step acc l = (acc.1 ++ hashes l, acc.2 ++ l).
Proof.
  revert acc. induction l as [|a l IHl]; intros [hs kept] Hnd; cbn [foldl fst snd] in *.
  - by rewrite !app_nil_r.
  - unfold hashes in *. rewrite fmap_cons in Hnd.
    assert (Ha : HashId a ∉ hs).
    { apply NoDup_app in Hnd as (_ & Hd & _). intros Hin. apply (Hd _ Hin), elem_of_cons. auto. }
    unfold add_step at 2. cbn [fst snd]. rewrite (proj2 (py_in_false _ _) Ha). cbn [negb].
    rewrite IHl; cbn [fst snd]; rewrite <- ?app_assoc; done.
Qed.

Lemma consolidate_mods_single (d : DiffRecord Value) :
  NoDup (hashes (diff_add d)) → NoDup (diff_mod d).*1 → NoDup (diff_del d) →
  diff_add (consolidate_mods [d]) = diff_add d ∧
  diff_mod (consolidate_mods [d]) = diff_mod d ∧
  diff_del (consolidate_mods [d]) ≡ₚ diff_del d.
Proof.
  intros Ha Hm Hd. unfold consolidate_mods, consolidate_add, consolidate_mod, consolidate_del.
  cbn [diff_add diff_mod diff_del reverse foldl]. split_and!.
  - change (reverse [d]) with [d]. cbn [foldl]. by rewrite add_fold_NoDup.
  - by rewrite foldl_dict_set_fresh.
  - cbn. rewrite app_nil_r. by apply elements_list_to_set.
Qed.

Lemma merged_obj_HashId base_objs obj : HashId (merged_obj base_objs obj) = HashId obj.
Proof.
  unfold merged_obj. destruct (base_obj_of base_objs obj) as [b|] eqn:E; [|done].
  destruct (py_ne obj b); [done|]. by apply base_obj_of_Some in E as (_ & _ & ?).
Qed.

Lemma get_map_diff_del_elem base_objs mod_objs (link_del : bool) h :
  (link_del = true ∨
   ∀ obj ls l, obj ∈ base_objs → LinksToObj obj = Some ls → l ∈ ls →
               DestUnitHashId l ∈ hashes mod_objs) →
  h ∈ diff_del (get_map_diff_loaded base_objs mod_objs false link_del) ↔
  h ∈ hashes base_objs ∧ h ∉ hashes mod_objs.
Proof.
  intros Hlink. cbn [get_map_diff_loaded diff_del].
  rewrite list_elem_of_In, filter_In, <- list_elem_of_In.
  rewrite !andb_true_iff, !negb_true_iff, py_in_false, andb_false_iff, negb_false_iff.
  rewrite bool_decide_eq_false. split; [naive_solver|]. intros [Hb Hm]. split_and!; [done..|].
  destruct Hlink as [->|Hlink]; [auto|]. destruct link_del; [auto|]. right.
  rewrite base_links_of_spec. intros (obj & ls & l & ? & ? & ? & <-). eauto.
Qed.

(** A modified map diffed against the stock map, the diff consolidated and
    merged into the stock map again: the merged list is the modified map
    in ascending order of [HashId], except that an object which [!=] does
    not tell from its stock object is that stock object.  Ids are unique
    in both maps, and no stock object links to an id the modified map
    lacks, unless [link_del] is set. *)
Theorem merge_map_round_trip base_objs mod_objs (link_del : bool) :
  NoDup (hashes base_objs) → NoDup (hashes mod_objs) →
  (link_del = true ∨
   ∀ obj ls l, obj ∈ base_objs → LinksToObj obj = Some ls → l ∈ ls →
               DestUnitHashId l ∈ hashes mod_objs) →
  let diffs := get_map_diff_loaded base_objs mod_objs false link_del in
  merge_objs base_objs (consolidate_mods [diffs]) false
  = sort_by_key HashId (merged_obj base_objs <$> mod_objs) ∧
  ((∀ obj base_obj, obj ∈ mod_objs → base_obj ∈ base_objs →
                    py_eq obj base_obj = true → obj = base_obj) →
   merge_objs base_objs (consolidate_mods [diffs]) false = sort_by_key HashId mod_objs).
Proof.
  intros Hbase Hmod Hlink diffs.
  assert (Hadd : diff_add diffs = filter (λ obj, HashId obj ∉ hashes base_objs) mod_objs).
  { unfold diffs, get_map_diff_loaded. cbn [diff_add]. by rewrite diff_fold_add. }
  assert (Hkeys : NoDup (diff_mod diffs).*1).
  { unfold diffs, get_map_diff_loaded. cbn [diff_mod].
    apply diff_fold_mod_NoDup. constructor. }
  assert (Helem : ∀ k a, (k, a) ∈ diff_mod diffs →
            HashId a = k ∧ a ∈ mod_objs ∧ k ∈ hashes base_objs).
  { intros k a Hin. unfold diffs, get_map_diff_loaded in Hin. cbn [diff_mod] in Hin.
    apply diff_fold_mod_elem in Hin as [?%elem_of_nil|(? & <- & b & Hb & _)]; [done|].
    by apply base_obj_of_Some in Hb as [? _]. }
  assert (Hget : ∀ obj base_obj, obj ∈ mod_objs → base_obj_of base_objs obj = Some base_obj →
            dict_get (diff_mod diffs) (HashId obj) = if py_ne obj base_obj then Some obj else None).
  { intros obj b Hin Hb. unfold diffs, get_map_diff_loaded. cbn [diff_mod].
    by rewrite (diff_fold_mod_get _ _ _ _ _ Hmod Hin Hb). }
  assert (Hdel : ∀ h, h ∈ diff_del diffs ↔ h ∈ hashes base_objs ∧ h ∉ hashes mod_objs)
    by (intros h; by apply get_map_diff_del_elem).
  assert (Hdelnd : NoDup (diff_del diffs)).
  { unfold diffs. cbn [get_map_diff_loaded diff_del]. by apply NoDup_ListNoDup, List.NoDup_filter, NoDup_ListNoDup. }
  assert (Haddnd : NoDup (hashes (diff_add diffs))).
  { rewrite Hadd. eapply sublist_NoDup; [exact Hmod|]. apply fmap_sublist, sublist_filter. }
  destruct (consolidate_mods_single diffs Haddnd Hkeys Hdelnd) as (Ca & Cm & Cd).
  set (cd := consolidate_mods [diffs]) in *.
  set (stock := foldl (mod_step (hashes base_objs)) (base_objs, []) (diff_mod cd)).
  assert (Hstock1 : ∀ i h, hashes base_objs !! i = Some h →
            stock.1 !! i = match dict_get (diff_mod diffs) h with
                           | Some a => Some a
                           | None => base_objs !! i
                           end).
  { intros i h Hi. subst stock. rewrite Cm.
    apply mod_fold_lookup; [done..| |done]. unfold hashes. by rewrite length_fmap. }
  assert (Hmerged : merge_objs base_objs cd false
            = sort_by_key HashId (filter (λ obj, HashId obj ∉ diff_del cd) stock.1
                                  ++ diff_add diffs)).
  { unfold merge_objs. cbn [negb]. rewrite mod_fold_adds. cbn [fst snd].
    rewrite merge_objs_stock; [|done| |].
    - fold stock. f_equal. f_equal. rewrite Ca.
      subst stock. rewrite mod_fold_no_extra, app_nil_r.
      + rewrite Hadd. apply filter_all. by intros x [? _]%list_elem_of_filter.
      + rewrite Cm. intros k [a Hin]%dict_elem_key. by apply Helem in Hin as (_ & _ & ?).
    - by rewrite Cd.
    - rewrite Cm. intros k a Hin. by apply Helem in Hin as [? _]. }
  assert (Hperm : filter (λ obj, HashId obj ∉ diff_del cd) stock.1 ++ diff_add diffs
                  ≡ₚ merged_obj base_objs <$> mod_objs).
  { assert (Hnd2 : NoDup (hashes (merged_obj base_objs <$> mod_objs))).
    { unfold hashes. rewrite <- list_fmap_compose.
      erewrite list_fmap_ext; [exact Hmod|]. intros i x _. apply merged_obj_HashId. }
    assert (Hstockh : hashes stock.1 = hashes base_objs).
    { subst stock. apply mod_fold_hashes; [|done]. rewrite Cm. intros k a Hin.
      by apply Helem in Hin as [? _]. }
    apply NoDup_Permutation.
    - apply (NoDup_fmap_1 HashId). rewrite fmap_app. apply NoDup_app. split_and!.
      + eapply sublist_NoDup; [|apply fmap_sublist, sublist_filter].
        fold (hashes stock.1). by rewrite Hstockh.
      + intros h (x & -> & [_ Hx]%list_elem_of_filter)%list_elem_of_fmap.
        intros (y & Heq & Hy)%list_elem_of_fmap. rewrite Hadd in Hy.
        apply list_elem_of_filter in Hy as [Hn _]. apply Hn. rewrite <- Heq, <- Hstockh.
        by apply list_elem_of_fmap_2.
      + exact Haddnd.
    - by apply (NoDup_fmap_1 HashId).
    - intros x. rewrite elem_of_app, list_elem_of_filter, list_elem_of_fmap. split.
      + intros [[Hnd Hx]|Hx].
        * apply list_elem_of_lookup_1 in Hx as [i Hi].
          assert (is_Some (hashes base_objs !! i)) as [h Hh].
          { apply lookup_lt_is_Some. rewrite <- Hstockh. unfold hashes. rewrite length_fmap.
            by eapply lookup_lt_Some. }
          assert (HashId x = h).
          { pose proof Hh as Hh'. rewrite <- Hstockh in Hh'. unfold hashes in Hh'.
            rewrite list_lookup_fmap, Hi in Hh'. by injection Hh'. }
          subst h. rewrite (Hstock1 _ _ Hh) in Hi.
          assert (HashId x ∈ hashes mod_objs) as (m & Hm & Hin)%list_elem_of_fmap.
          { destruct (decide (HashId x ∈ hashes mod_objs)) as [?|Hn]; [done|].
            destruct Hnd. rewrite Cd. apply Hdel. split; [|done].
            by eapply list_elem_of_lookup_2. }
          exists m. split; [|done].
          pose proof Hh as Hb. unfold hashes in Hb. rewrite list_lookup_fmap in Hb.
          destruct (base_objs !! i) as [b|] eqn:Eb; [|done]. cbn in Hb.
          assert (Hbm : base_obj_of base_objs m = Some b).
          { unfold base_obj_of. rewrite <- Hm, (index_NoDup _ _ i Hbase Hh). done. }
          unfold merged_obj. rewrite Hbm. rewrite Hm, (Hget m b Hin Hbm) in Hi.
          destruct (py_ne m b); by injection Hi.
        * rewrite Hadd in Hx. apply list_elem_of_filter in Hx as [Hn Hx]. exists x.
          split; [|done]. unfold merged_obj.
          destruct (base_obj_of base_objs x) as [b|] eqn:Eb; [|done].
          by apply base_obj_of_Some in Eb as [? _].
      + intros (m & -> & Hin). unfold merged_obj.
        destruct (base_obj_of base_objs m) as [b|] eqn:Eb.
        * left. pose proof Eb as (i & Hi & Hb)%bind_Some.
          pose proof (index_lookup _ _ _ Hi) as Hh. split.
          -- fold (merged_obj base_objs m). rewrite Cd, Hdel.
             assert (HashId (if py_ne m b then m else b) = HashId m) as ->.
             { destruct (py_ne m b); [done|]. by apply base_obj_of_Some in Eb as (_ & _ & ?). }
             intros [_ Hn]. apply Hn. by apply list_elem_of_fmap_2.
          -- apply list_elem_of_lookup. exists i. rewrite (Hstock1 _ _ Hh), (Hget m b Hin Eb).
             by destruct (py_ne m b).
        * right. rewrite Hadd. apply list_elem_of_filter. split; [|done].
          intros Hn%base_obj_of_is_Some. rewrite Eb in Hn. by destruct Hn. }
  assert (Hfirst : merge_objs base_objs cd false
                   = sort_by_key HashId (merged_obj base_objs <$> mod_objs)).
  { rewrite Hmerged. apply sort_by_key_unique; [|done].
    fold (hashes (filter (λ obj, HashId obj ∉ diff_del cd) stock.1 ++ diff_add diffs)).
    unfold hashes. rewrite Hperm, <- list_fmap_compose.
    erewrite list_fmap_ext; [exact Hmod|]. intros i x _. apply merged_obj_HashId. }
  split; [done|]. intros Hsound. rewrite Hfirst. f_equal.
  rewrite <- (list_fmap_id mod_objs) at 2. apply list_fmap_ext. intros i m Hi.
  apply list_elem_of_lookup_2 in Hi. unfold merged_obj.
  destruct (base_obj_of base_objs m) as [b|] eqn:Eb; [|done].
  destruct (py_ne m b) eqn:Ene; [done|]. apply negb_false_iff in Ene.
  symmetry. apply Hsound; [done| |done]. by apply base_obj_of_Some in Eb as (_ & ? & _).
Qed.

(** A map diffed against itself: nothing to log, when its ids are unique
    and every object is [==] to itself (it holds no NaN). *)
Theorem get_map_diff_self (objs : list (Actor Value)) (no_del link_del : bool) :
  NoDup (hashes objs) → (∀ obj, obj ∈ objs → py_eq obj obj = true) →
  get_map_diff_loaded objs objs no_del link_del = mkDiff [] [] [].
Proof.
  intros Hnd Hrefl. unfold get_map_diff_loaded. f_equal.
  - rewrite diff_fold_add. apply no_elem_nil. intros x [Hn Hx]%list_elem_of_filter.
    apply Hn. by apply list_elem_of_fmap_2.
  - apply no_elem_nil. intros [k a] Hin.
    apply diff_fold_mod_elem in Hin as [?%elem_of_nil|(Ha & _ & b & Hb & Hne)]; [done|].
    rewrite (base_obj_of_self _ _ Hnd Ha) in Hb. injection Hb as <-.
    unfold py_ne in Hne. by rewrite (Hrefl a Ha) in Hne.
  - apply no_elem_nil. intros h. rewrite list_elem_of_In, filter_In, <- list_elem_of_In.
    intros [Hh Hp]. rewrite (proj2 (py_in_true h (hashes objs)) Hh) in Hp. done.
Qed.

(** With [no_del] set no stock id is lost, when every [mod] entry is keyed
    by the id of its object. *)
Theorem merge_map_no_del_keeps_stock (stock_objs : list (Actor Value)) changes (h : Z) :
  (∀ k a, (k, a) ∈ diff_mod changes → HashId a = k) →
  h ∈ hashes stock_objs → h ∈ hashes (merge_objs stock_objs changes true).
Proof.
  intros Hkeyed Hh. unfold merge_objs. cbn [negb]. unfold hashes at 1.
  rewrite sort_by_key_Permutation, fmap_app. apply elem_of_app. left.
  rewrite mod_fold_adds. cbn [fst]. fold (hashes (foldl (mod_step (hashes stock_objs))
                                              (stock_objs, []) (diff_mod changes)).1).
  by rewrite mod_fold_hashes.
Qed.

End RoundTrip.

(** ** The master modpack and the files of a merge *)

Lemma touches_refl allowed w : touches allowed w w.
Proof.
  split_and!; [done| |done]. exists []. rewrite app_nil_r. split; [done|].
  by intros p ?%elem_of_nil.
Qed.

Lemma touches_trans allowed w1 w2 w3 :
  touches allowed w1 w2 → touches allowed w2 w3 → touches allowed w1 w3.
Proof.
  intros (Hf & (ws & Hw & Hws) & Hd) (Hf' & (ws' & Hw' & Hws') & Hd'). split_and!.
  - intros p Hp. by rewrite Hf', Hf.
  - exists (ws ++ ws'). rewrite Hw', Hw, app_assoc. split; [done|].
    intros p [?|?]%elem_of_app; auto.
  - by etrans.
Qed.

Lemma touches_mono (allowed allowed' : Path → Prop) w w' :
  (∀ p, allowed p → allowed' p) → touches allowed w w' → touches allowed' w w'.
Proof.
  intros Hsub (Hf & (ws & Hw & Hws) & Hd). split_and!; [|eauto|done].
  intros p Hp. apply Hf. auto.
Qed.

Lemma mkdir_parents_touches allowed p w : touches allowed w (mkdir_parents p w).2.
Proof.
  unfold mkdir_parents, touches. cbn [snd files dirs written]. split_and!; [done| |set_solver].
  exists []. rewrite app_nil_r. split; [done|]. by intros ? ?%elem_of_nil.
Qed.

Lemma write_bytes_touches (allowed : Path → Prop) p data w :
  allowed p → touches allowed w (write_bytes p data w).2.
Proof.
  intros Hp. unfold write_bytes, touches. cbn [snd files dirs written]. split_and!; [| |done].
  - intros q Hq. apply lookup_insert_ne. by intros ->.
  - exists [p]. split; [done|]. by intros q ->%list_elem_of_singleton.
Qed.

Section MasterModpack.
Context (settings : Settings).

(** [get_data_dir] makes the data directory when it is missing, and
    nothing else. *)
Lemma get_data_dir_effect w :
  ∃ w', get_data_dir settings w = (inr (data_dir settings), w') ∧
        files w' = files w ∧ written w' = written w ∧ dirs w ⊆ dirs w' ∧
        path_exists w' (data_dir settings) = true ∧
        (path_exists w (data_dir settings) = true → w' = w) ∧
        (∀ p, p ∈ dirs w' → p ∈ dirs w ∨ p `prefix_of` data_dir settings).
Proof.
  unfold get_data_dir, reading. unfold mbind at 1, IO_bind. cbn.
  destruct (path_exists w (data_dir settings)) eqn:E; cbn.
  - eexists. split_and!; auto.
  - eexists. split; [done|]. cbn. split_and!; [done|done|set_solver| |done|].
    + unfold path_exists. cbn. apply orb_true_iff. right. apply bool_decide_eq_true.
      apply elem_of_union. right. apply elem_of_list_to_set, elem_of_inits. done.
    + intros p [?|Hp]%elem_of_union; [auto|]. right.
      by apply elem_of_list_to_set, elem_of_inits in Hp.
Qed.

Lemma get_modpack_dir_effect w :
  ∃ w', get_modpack_dir settings w = (inr (data_dir settings ++ ["mods"]), w') ∧
        files w' = files w ∧ written w' = written w ∧ dirs w ⊆ dirs w' ∧
        path_exists w' (data_dir settings) = true ∧
        (path_exists w (data_dir settings) = true → w' = w) ∧
        (∀ p, p ∈ dirs w' → p ∈ dirs w ∨ p `prefix_of` data_dir settings).
Proof.
  destruct (get_data_dir_effect w) as (w' & Hrun & H).
  exists w'. split; [|done]. unfold get_modpack_dir. by rewrite (io_bind_run _ _ _ _ _ Hrun).
Qed.

(** [create_bcml_graphicpack_if_needed] where there is a data directory
    and no [rules.txt]. *)
Lemma create_bcml_graphicpack_effect w :
  path_exists w (data_dir settings) = true →
  path_exists w (rules_path settings) = false →
  create_bcml_graphicpack_if_needed settings w
  = (inr (), mkWorld (<[rules_path settings := rules_txt]> (files w))
               (dirs w ∪ list_to_set (inits (master_dir settings ++ ["logs"])))
               (written w ++ [rules_path settings])
               (update_dir_attr w) (aoc_dir_attr w)).
Proof.
  intros He E.
  destruct (get_modpack_dir_effect w) as (w2 & Hrun2 & _ & _ & _ & _ & Hsame & _).
  rewrite (Hsame He) in Hrun2. clear Hsame w2.
  unfold create_bcml_graphicpack_if_needed. rewrite (io_bind_run _ _ _ _ _ Hrun2).
  fold (master_dir settings). fold (rules_path settings).
  assert (E2 : path_exists (mkdir_parents (master_dir settings ++ ["logs"]) w).2
                 (rules_path settings) = false).
  { unfold path_exists in *. apply orb_false_iff in E as [E1 E2].
    apply orb_false_iff. split; [done|]. apply bool_decide_eq_false.
    apply bool_decide_eq_false in E2. cbn [mkdir_parents snd dirs].
    intros [?|Hin]%elem_of_union; [done|].
    apply elem_of_list_to_set, elem_of_inits in Hin.
    unfold rules_path in Hin. apply prefix_app_inv in Hin. by destruct Hin as [k [=]]. }
  unfold mbind, IO_bind, reading, mret, IO_ret, result_ret. cbn [mkdir_parents fst snd] in *.
  rewrite E2. done.
Qed.

(** [get_master_modpack_dir] returns the master directory; it may make
    directories and write [rules.txt] when there is none, after which
    [rules.txt] is there and a second call changes nothing. *)
Lemma get_master_modpack_dir_effect w :
  ∃ w', get_master_modpack_dir settings w = (inr (master_dir settings), w') ∧
        (files w' = files w ∧ written w' = written w
         ∨ files w !! rules_path settings = None ∧
           files w' = <[rules_path settings := rules_txt]> (files w) ∧
           written w' = written w ++ [rules_path settings]) ∧
        dirs w ⊆ dirs w' ∧
        path_exists w' (data_dir settings) = true ∧
        path_exists w' (rules_path settings) = true ∧
        (path_exists w (rules_path settings) = false →
         files w' !! rules_path settings = Some rules_txt).
Proof.
  destruct (get_modpack_dir_effect w) as (w1 & Hrun & Hf1 & Hw1 & Hd1 & He1 & _ & Hnew).
  unfold get_master_modpack_dir. rewrite (io_bind_run _ _ _ _ _ Hrun).
  unfold reading. unfold mbind at 1, IO_bind. cbn.
  fold (master_dir settings). fold (rules_path settings).
  destruct (path_exists w1 (rules_path settings)) eqn:E; cbn.
  - eexists. split; [reflexivity|]. split_and!; [by left|done|done|exact E|].
    intros Hno. exfalso. unfold path_exists in *. rewrite Hf1 in E.
    apply orb_false_iff in Hno as [Hno1 Hno2]. rewrite Hno1 in E. cbn in E.
    apply bool_decide_eq_true in E. apply bool_decide_eq_false in Hno2.
    destruct (Hnew _ E) as [?|Hp]; [done|].
    unfold rules_path, master_dir in Hp. rewrite <- !app_assoc in Hp.
    rewrite <- (app_nil_r (data_dir settings)) in Hp at 2.
    apply prefix_app_inv in Hp. by destruct Hp as [k [=]].
  - rewrite (io_bind_run _ _ _ _ _ (create_bcml_graphicpack_effect w1 He1 E)).
    eexists. split; [reflexivity|]. cbn [files dirs written]. split_and!.
    + right. rewrite Hf1, Hw1. split_and!; [|done..].
      unfold path_exists in E. apply orb_false_iff in E as [E _].
      apply bool_decide_eq_false, not_elem_of_dom in E. by rewrite <- Hf1.
    + set_solver.
    + unfold path_exists in *. cbn [files dirs]. apply orb_true_iff in He1 as [He1|He1].
      * apply orb_true_iff. left. apply bool_decide_eq_true. apply bool_decide_eq_true in He1.
        apply elem_of_dom. apply elem_of_dom in He1 as [b Hb].
        destruct (decide (rules_path settings = data_dir settings)) as [Heq|Hne].
        -- rewrite <- Heq. rewrite lookup_insert_eq. eauto.
        -- rewrite lookup_insert_ne by done. eauto.
      * apply orb_true_iff. right. apply bool_decide_eq_true. apply bool_decide_eq_true in He1.
        set_solver.
    + eapply path_exists_file. cbn [files]. apply lookup_insert_eq.
    + intros _. apply lookup_insert_eq.
Qed.

End MasterModpack.

Section MergeMapIO.
Context {Value : Type} `{!PyEq Value}.
Context (lib : Libraries (Value:=Value)) (settings : Settings).

Lemma get_master_modpack_dir_touches (allowed : Path → Prop) w :
  allowed (rules_path settings) →
  ∃ w', get_master_modpack_dir settings w = (inr (master_dir settings), w') ∧
        touches allowed w w'.
Proof.
  intros Hrules. destruct (get_master_modpack_dir_effect settings w) as (w' & Hrun & Hf & Hd & _).
  exists w'. split; [done|]. split_and!; [| |done].
  - intros p Hp. destruct Hf as [[-> _]|(_ & -> & _)]; [done|].
    apply lookup_insert_ne. by intros <-.
  - destruct Hf as [[_ ->]|(_ & _ & ->)].
    + exists []. rewrite app_nil_r. split; [done|]. by intros ? ?%elem_of_nil.
    + eexists. split; [done|]. by intros p ->%list_elem_of_singleton.
Qed.

Lemma master_paths_ne (a b : Path) : a ≠ b → master_dir settings ++ a ≠ master_dir settings ++ b.
Proof. intros Hne Heq. by apply app_inv_head in Heq. Qed.

Lemma merge_map_run (map_unit : Map) (changes : DiffRecord Value)
    (no_del link_del : bool) (w w0 : World) (stock : Document) :
  get_stock_map lib settings map_unit false w = (inr stock, w0) →
  let merged := merge_objs (Objs stock) changes no_del in
  let aoc_bytes :=
    byml_write lib (mkDocument merged (document_fields stock)) (wiiu settings) in
  let base_bytes :=
    byml_write lib
      (mkDocument (filter (λ obj, ¬ String.prefix "DLC" (UnitConfigName obj)) merged)
         (document_fields stock)) (wiiu settings) in
  ∃ w',
    merge_map lib settings (map_unit, changes) no_del link_del w
    = (inr (("Aoc/0010/" +:+ mubin_name map_unit,
             calculate_file_size_with_ext lib aoc_bytes true ".mubin"),
            (mubin_name map_unit,
             calculate_file_size_with_ext lib base_bytes true ".mubin")), w') ∧
    files w' !! aoc_out settings map_unit = Some (compress lib aoc_bytes) ∧
    files w' !! base_out settings map_unit = Some (compress lib base_bytes) ∧
    touches (λ p, p = aoc_out settings map_unit ∨ p = base_out settings map_unit
                  ∨ p = rules_path settings) w w'.
Proof.
  intros Hstock merged aoc_bytes base_bytes. unfold merge_map. cbn [fst snd].
  rewrite (io_bind_run _ _ _ _ _ Hstock). cbn [Objs document_fields].
  fold merged. fold aoc_bytes. fold base_bytes.
  set (allowed := λ p, p = aoc_out settings map_unit ∨ p = base_out settings map_unit
                       ∨ p = rules_path settings).
  assert (Hrules : allowed (rules_path settings)) by (unfold allowed; auto).
  assert (T0 : touches allowed w w0).
  { apply same_files_touches.
    pose proof (quiet_get_stock_map lib settings map_unit false w) as Hq.
    by rewrite Hstock in Hq. }
  destruct (get_master_modpack_dir_touches allowed w0 Hrules) as (w1 & R1 & T1).
  rewrite (io_bind_run _ _ _ _ _ R1).
  fold (aoc_out settings map_unit).
  rewrite (io_bind_run _ _ _ _ _ (eq_refl : mkdir_parents _ w1 = (inr (), _))).
  pose proof (mkdir_parents_touches allowed (parent (aoc_out settings map_unit)) w1) as T2.
  set (w2 := (mkdir_parents (parent (aoc_out settings map_unit)) w1).2) in *.
  rewrite (io_bind_run _ _ _ _ _ (eq_refl : write_bytes _ _ w2 = (inr (), _))).
  assert (T3 : touches allowed w2
                 (write_bytes (aoc_out settings map_unit) (compress lib aoc_bytes) w2).2).
  { apply (write_bytes_touches allowed). unfold allowed. auto. }
  assert (F3 : files (write_bytes (aoc_out settings map_unit) (compress lib aoc_bytes) w2).2
               !! aoc_out settings map_unit = Some (compress lib aoc_bytes))
    by apply lookup_insert_eq.
  set (w3 := (write_bytes (aoc_out settings map_unit) (compress lib aoc_bytes) w2).2) in *.
  destruct (get_master_modpack_dir_touches (λ p, p = rules_path settings) w3 eq_refl)
    as (w4 & R4 & T4).
  rewrite (io_bind_run _ _ _ _ _ R4).
  rewrite (io_bind_run _ _ _ _ _ (eq_refl : mkdir_parents _ w4 = (inr (), _))).
  pose proof (mkdir_parents_touches (λ p, p = rules_path settings)
                (master_dir settings ++ ["content"; "Map"; "MainField"; section map_unit]) w4)
    as T5.
  set (w5 := (mkdir_parents _ w4).2) in *.
  destruct (get_master_modpack_dir_touches (λ p, p = rules_path settings) w5 eq_refl)
    as (w6 & R6 & T6).
  rewrite (io_bind_run _ _ _ _ _ R6).
  fold (base_out settings map_unit).
  rewrite (io_bind_run _ _ _ _ _ (eq_refl : mkdir_parents _ w6 = (inr (), _))).
  pose proof (mkdir_parents_touches (λ p, p = rules_path settings)
                (parent (base_out settings map_unit)) w6) as T7.
  set (w7 := (mkdir_parents _ w6).2) in *.
  rewrite (io_bind_run _ _ _ _ _ (eq_refl : write_bytes _ _ w7 = (inr (), _))).
  assert (T8 : touches allowed w7
                 (write_bytes (base_out settings map_unit) (compress lib base_bytes) w7).2).
  { apply (write_bytes_touches allowed). unfold allowed. auto. }
  assert (T37 : touches (λ p, p = rules_path settings) w3 w7).
  { eapply touches_trans; [exact T4|]. eapply touches_trans; [exact T5|].
    eapply touches_trans; [exact T6|]. exact T7. }
  eexists. split; [reflexivity|]. split_and!.
  - cbn [write_bytes snd files]. rewrite lookup_insert_ne.
    + destruct T37 as (Hf & _). rewrite Hf; [exact F3|].
      unfold aoc_out, rules_path. by intros ?%app_inv_head.
    + unfold aoc_out, base_out. by intros ?%app_inv_head.
  - apply lookup_insert_eq.
  - eapply touches_trans; [exact T0|].
    eapply touches_trans; [exact T1|]. eapply touches_trans; [exact T2|].
    eapply touches_trans; [exact T3|]. eapply touches_trans; [|exact T8].
    eapply touches_mono; [|exact T37]. intros p ->. exact Hrules.
Qed.

(** [merge_map] for one map unit.  Without a stock map it raises what
    [get_stock_map] raises and leaves the files alone.  With one it
    returns the two canonical names with the sizes of the uncompressed
    documents, the DLC file holds the merged list, the base file holds
    the merged list without the objects whose [UnitConfigName] starts
    with DLC, and no other file is written, [rules.txt] apart. *)
Theorem merge_map_outputs (map_unit : Map) (changes : DiffRecord Value)
    (no_del link_del : bool) (w : World) :
  let run := merge_map lib settings (map_unit, changes) no_del link_del w in
  match get_stock_map lib settings map_unit false w with
  | (inl e, w0) => run = (inl e, w0) ∧ same_files w w0
  | (inr stock, _) =>
      let merged := merge_objs (Objs stock) changes no_del in
      let aoc_bytes :=
        byml_write lib (mkDocument merged (document_fields stock)) (wiiu settings) in
      let base_bytes :=
        byml_write lib
          (mkDocument (filter (λ obj, ¬ String.prefix "DLC" (UnitConfigName obj)) merged)
             (document_fields stock)) (wiiu settings) in
      run.1 = inr (("Aoc/0010/" +:+ mubin_name map_unit,
                    calculate_file_size_with_ext lib aoc_bytes true ".mubin"),
                   (mubin_name map_unit,
                    calculate_file_size_with_ext lib base_bytes true ".mubin")) ∧
      files run.2 !! aoc_out settings map_unit = Some (compress lib aoc_bytes) ∧
      files run.2 !! base_out settings map_unit = Some (compress lib base_bytes) ∧
      touches (λ p, p = aoc_out settings map_unit ∨ p = base_out settings map_unit
                    ∨ p = rules_path settings) w run.2
  end.
Proof.
  intros run. subst run.
  pose proof (quiet_get_stock_map lib settings map_unit false w) as Hq.
  destruct (get_stock_map lib settings map_unit false w) as [[e|stock] w0] eqn:Hstock.
  - split; [|exact Hq]. unfold merge_map. by apply io_bind_raise.
  - destruct (merge_map_run map_unit changes no_del link_del w w0 stock Hstock)
      as (w' & -> & Ha & Hb & Ht). done.
Qed.

End MergeMapIO.

Section PerformMerge.
Context {Value : Type} `{!PyEq Value}.
Context (lib : Libraries (Value:=Value)) (settings : Settings).

(** [merge_map] leaves a missing [map.log] missing. *)
Lemma merge_map_keeps_log map_pair (no_del link_del : bool) w :
  files w !! log_path settings = None →
  files (merge_map lib settings map_pair no_del link_del w).2 !! log_path settings = None.
Proof.
  intros Hlog. destruct map_pair as [map_unit changes].
  pose proof (quiet_get_stock_map lib settings map_unit false w) as Hq.
  destruct (get_stock_map lib settings map_unit false w) as [[e|stock] w0] eqn:Hstock.
  - unfold merge_map. rewrite (io_bind_raise _ _ _ _ _ Hstock). cbn [snd] in *.
    destruct Hq as (-> & _). done.
  - destruct (merge_map_run lib settings map_unit changes no_del link_del w w0 stock Hstock)
      as (w' & -> & _ & _ & Hf & _). cbn [snd]. rewrite Hf; [done|].
    unfold log_path, aoc_out, base_out, rules_path.
    intros [?%app_inv_head|[?%app_inv_head|?%app_inv_head]]; done.
Qed.

Lemma io_map_merge_map_keeps_log map_diffs (no_del link_del : bool) w :
  files w !! log_path settings = None →
  files (io_map (λ map_pair, merge_map lib settings map_pair no_del link_del) map_diffs w).2
    !! log_path settings = None.
Proof.
  revert w. induction map_diffs as [|p l IHl]; intros w Hlog; cbn [io_map]; [done|].
  pose proof (merge_map_keeps_log p no_del link_del w Hlog) as H1.
  unfold mbind at 1, IO_bind at 1.
  destruct (merge_map lib settings p no_del link_del w) as [[e|y] w1]; [done|].
  cbn [snd] in H1. specialize (IHl w1 H1).
  unfold mbind at 1, IO_bind at 1.
  destruct (io_map _ l w1) as [[e|ys] w2]; done.
Qed.

(** After [perform_merge] there is a [map.log] only if it returned
    normally from merging at least one map unit, and then [map.log] is the
    file written last: when it raises, be it in the reset, in the
    consolidation, at the pool or in the merge of a unit, no [map.log] is
    left. *)
Theorem perform_merge_log_on_success (all_diffs : list (ModDiff Value))
    (no_del link_del : bool) (w : World) :
  let run := perform_merge lib settings all_diffs no_del link_del w in
  files run.2 !! log_path settings = None ∨
  (run.1 = inr () ∧
   (∃ map_diffs, consolidate_diffs all_diffs = inr map_diffs ∧ map_diffs ≠ []) ∧
   is_Some (files run.2 !! log_path settings) ∧
   last (written run.2) = Some (log_path settings)).
Proof.
  intros run.
  set (Post := λ (r : result ()) (w' : World),
    files w' !! log_path settings = None ∨
    (r = inr () ∧
     (∃ map_diffs, consolidate_diffs all_diffs = inr map_diffs ∧ map_diffs ≠ []) ∧
     is_Some (files w' !! log_path settings) ∧
     last (written w') = Some (log_path settings))).
  assert (HP : wp (perform_merge lib settings all_diffs no_del link_del) Post w);
    [|exact HP].
  unfold perform_merge. fold (master_dir settings).
  apply wp_bind, (wp_get_master_modpack_dir settings). intros w1 _.
  apply wp_bind, wp_reading. cbn beta.
  assert (H2 : ∀ (stale : bool) Q, (∀ w2, Q (inr ()) w2) →
    wp (if stale
        then mkdir_parents (parent (master_dir settings
                                    ++ ["aoc"; "0010"; "Pack"; "AocMainField.pack"]));;
             write_bytes (master_dir settings
                          ++ ["aoc"; "0010"; "Pack"; "AocMainField.pack"]) []
        else mret ()) Q w1).
  { intros [|] Q HQ; [|apply wp_ret, HQ]. unfold wp. apply HQ. }
  apply wp_bind, H2. intros w2.
  apply wp_bind, (wp_get_master_modpack_dir settings). intros w3 _.
  apply wp_bind, (wp_rmtree settings). intros w4 _ _.
  apply wp_bind, (wp_get_master_modpack_dir settings). intros w5 _.
  apply wp_bind, (wp_rmtree settings). intros w6 _ _.
  apply wp_bind, (wp_get_master_modpack_dir settings). intros w7 _.
  apply wp_bind, wp_reading. cbn beta. fold (log_path settings).
  assert (H8 : ∀ Q, (∀ w8 r, files w8 !! log_path settings = None → Q r w8) →
    wp (if path_exists w7 (log_path settings) then unlink (log_path settings) else mret ()) Q w7).
  { intros Q HQ. destruct (path_exists w7 _) eqn:E.
    - apply (wp_unlink settings).
      + intros w8 _ Hl. by apply HQ.
      + intros e Hl. by apply HQ.
    - apply wp_ret, HQ. unfold path_exists in E. apply orb_false_iff in E as [E _].
      apply bool_decide_eq_false in E. by apply not_elem_of_dom. }
  apply wp_bind, H8. intros w8 [e|[]] Hl; [by left|].
  apply wp_bind, wp_reading.
  destruct (consolidate_diffs all_diffs) as [e|map_diffs] eqn:Hc; [by left|].
  destruct map_diffs as [|p l]; [apply wp_ret; by left|].
  apply wp_bind, wp_reading. destruct (Pool _) as [e|n]; [by left|].
  apply wp_bind. unfold wp at 1.
  pose proof (io_map_merge_map_keeps_log (p :: l) no_del link_del w8 Hl) as Hkeep.
  destruct (io_map _ (p :: l) w8) as [[e|results] w9]; cbn [fst snd] in *; [by left|].
  unfold wp, write_bytes. cbn [fst snd]. right. split_and!.
  - done.
  - exists (p :: l). done.
  - cbn [files]. rewrite lookup_insert_eq. eauto.
  - cbn [written]. apply last_snoc.
Qed.

End PerformMerge.

(** ** Shrine entrances *)

Lemma dict_get_foldl_set_other `{EqDecision K} {V} (c d : dict K V) k :
  k ∉ d.*1 → dict_get (foldl (λ c kv, dict_set c kv.1 kv.2) c d) k = dict_get c k.
Proof.
  revert c. induction d as [|[k1 v1] d IHd]; intros c; cbn [foldl]; [done|].
  rewrite fmap_cons, not_elem_of_cons. cbn [fst snd]. intros [Hne Hk].
  rewrite IHd by done. by rewrite dict_get_set_ne.
Qed.

Lemma foldl_dict_set_NoDup `{EqDecision K} {V} (c d : dict K V) :
  NoDup c.*1 → NoDup (foldl (λ c kv, dict_set c kv.1 kv.2) c d).*1.
Proof.
  revert c. induction d as [|[k v] d IHd]; intros c Hc; cbn [foldl]; [done|].
  by apply IHd, dict_set_NoDup.
Qed.

Lemma filter_dict_set_out `{EqDecision K} {V} (P : K → Prop) `{!∀ k, Decision (P k)}
    (d : dict K V) k v :
  ¬ P k → filter (λ kv, P kv.1) (dict_set d k v) = filter (λ kv, P kv.1) d.
Proof.
  intros Hk. unfold dict in *. induction d as [|[k0 v0] d IHd]; cbn [dict_set].
  - by rewrite filter_cons, decide_False.
  - case_decide; subst.
    + by rewrite !filter_cons, !decide_False.
    + rewrite !filter_cons. by rewrite IHd.
Qed.

Section DungeonMerge.
Context {Value : Type} `{!PyEq Value}.
Implicit Types (base_pos mod_pos start_pos : list (Dungeon Value)) (dungeon : Dungeon Value).
Implicit Types (diffs : dict string (DungeonDiff Value)).

(** In the consolidated shrine diffs the entry of a shrine is the one of
    the last mod that has one, whole: nothing of an earlier mod's entry is
    kept. *)
Theorem DungeonStaticMerger_consolidate_last (pre post : list (dict string (DungeonDiff Value)))
    (log : dict string (DungeonDiff Value)) (name : string) (diff : DungeonDiff Value) :
  NoDup log.*1 → dict_get log name = Some diff →
  (∀ later, later ∈ post → name ∉ later.*1) →
  dict_get (DungeonStaticMerger_consolidate_diffs (pre ++ log :: post)) name = Some diff.
Proof.
  intros Hnd Hget Hpost. unfold DungeonStaticMerger_consolidate_diffs.
  rewrite foldl_app. cbn [foldl].
  generalize (foldl (λ all_diffs d, foldl (λ d0 kv, dict_set d0 kv.1 kv.2) all_diffs d) [] pre).
  intros acc.
  assert (Hlog : dict_get (foldl (λ d kv, dict_set d kv.1 kv.2) acc log) name = Some diff).
  { etrans; [by apply (dict_get_foldl_set id)|]. by rewrite Hget. }
  revert Hlog. generalize (foldl (λ d kv, dict_set d kv.1 kv.2) acc log). clear acc.
  induction post as [|later post IHpost]; intros acc Hacc; cbn [foldl]; [done|].
  apply IHpost.
  - intros l Hl. apply Hpost, elem_of_cons. auto.
  - rewrite dict_get_foldl_set_other; [done|]. apply Hpost, elem_of_cons. auto.
Qed.

Lemma dungeon_step_keys base_pos base_dungeons diffs dungeon :
  NoDup diffs.*1 → NoDup (dungeon_step base_pos base_dungeons diffs dungeon).*1.
Proof.
  intros Hnd. unfold dungeon_step.
  destruct (py_in _ _); cbn [negb]; [|by apply dict_set_NoDup].
  destruct (_ ≫= _) as [base_dungeon|]; [|done].
  destruct (py_ne (Rotate dungeon) _), (py_ne (Translate dungeon) _);
    repeat first [ done | apply dict_set_NoDup
                 | match goal with
                   | |- context [dict_has ?d ?k] => destruct (dict_has d k); cbn [negb]
                   end
                 | match goal with |- context [match dict_get ?d ?k with _ => _ end] =>
                     destruct (dict_get d k) end ].
Qed.

Lemma dungeonstatic_diff_NoDup base_pos mod_pos : NoDup (dungeonstatic_diff base_pos mod_pos).*1.
Proof.
  unfold dungeonstatic_diff. generalize (dungeon_Map <$> base_pos). intros names.
  assert (G : ∀ acc : dict string (DungeonDiff Value), NoDup acc.*1 →
            NoDup (foldl (dungeon_step base_pos names) acc mod_pos).*1).
  { induction mod_pos as [|d l IHl]; intros acc Hacc; cbn [foldl]; [done|].
    by apply IHl, dungeon_step_keys. }
  apply G. constructor.
Qed.

(** The entry of a shrine of the modified list, as [get_dungeonstatic_diff]
    leaves it. *)
Lemma dungeonstatic_diff_get base_pos mod_pos dungeon :
  NoDup (dungeon_Map <$> mod_pos) → dungeon ∈ mod_pos →
  dict_get (dungeonstatic_diff base_pos mod_pos) (dungeon_Map dungeon)
  = match index (dungeon_Map <$> base_pos) (dungeon_Map dungeon) ≫= (base_pos !!.) with
    | Some base_dungeon =>
        let rotated := py_ne (Rotate dungeon) (Rotate base_dungeon) in
        let moved := py_ne (Translate dungeon) (Translate base_dungeon) in
        if rotated || moved
        then Some (Partial (if rotated then Some (Rotate dungeon) else None)
                           (if moved then Some (Translate dungeon) else None))
        else None
    | None => if py_in (dungeon_Map dungeon) (dungeon_Map <$> base_pos) then None
              else Some (Whole dungeon)
    end.
Proof.
  intros Hnd Hin. unfold dungeonstatic_diff.
  apply list_elem_of_split in Hin as (l1 & l2 & ->).
  rewrite fmap_app, fmap_cons in Hnd. apply NoDup_app in Hnd as (_ & Hl1 & [Hl2 _]%NoDup_cons).
  assert (Hl1' : dungeon_Map dungeon ∉ dungeon_Map <$> l1).
  { intros Hn. apply (Hl1 _ Hn). apply elem_of_cons. auto. }
  rewrite foldl_app. cbn [foldl]. rewrite dungeon_fold_other by done.
  pose proof (dungeon_fold_other base_pos (dungeon_Map <$> base_pos) [] l1 _ Hl1') as Hbefore.
  cbn [dict_get] in Hbefore.
  set (diffs1 := foldl (dungeon_step base_pos (dungeon_Map <$> base_pos)) [] l1) in *.
  unfold dungeon_step.
  destruct (py_in (dungeon_Map dungeon) (dungeon_Map <$> base_pos)) eqn:Ein; cbn [negb].
  - destruct (index _ _ ≫= _) as [base_dungeon|]; [|done]. cbv zeta.
    destruct (py_ne (Rotate dungeon) _), (py_ne (Translate dungeon) _); cbn [orb].
    + assert (dict_has (dict_set diffs1 (dungeon_Map dungeon)
                          (Partial (Some (Rotate dungeon)) None)) (dungeon_Map dungeon)
              = true) as ->.
      { apply dict_has_get. rewrite dict_get_set_eq. eauto. }
      cbn [negb]. by rewrite !dict_get_set_eq.
    + by rewrite dict_get_set_eq.
    + assert (dict_has diffs1 (dungeon_Map dungeon) = false) as ->.
      { apply not_true_iff_false. rewrite dict_has_get, Hbefore. by intros [? ?]. }
      cbn [negb]. by rewrite !dict_get_set_eq.
    + done.
  - rewrite dict_get_set_eq. apply py_in_false, index_None in Ein. by rewrite Ein.
Qed.

(** A step for a stock shrine changes no entry of a new one. *)
Lemma dungeon_step_stock base_pos base_dungeons diffs dungeon :
  dungeon_Map dungeon ∈ base_dungeons →
  filter (λ kv, kv.1 ∉ base_dungeons) (dungeon_step base_pos base_dungeons diffs dungeon)
  = filter (λ kv, kv.1 ∉ base_dungeons) diffs ∧
  ∀ k, k ∈ (dungeon_step base_pos base_dungeons diffs dungeon).*1 →
       k ∈ diffs.*1 ∨ k ∈ base_dungeons.
Proof.
  intros Hin. unfold dungeon_step. rewrite (proj2 (py_in_true _ _) Hin). cbn [negb].
  assert (Hset : ∀ (d : dict string (DungeonDiff Value)) v,
    filter (λ kv, kv.1 ∉ base_dungeons) (dict_set d (dungeon_Map dungeon) v)
    = filter (λ kv, kv.1 ∉ base_dungeons) d)
    by (intros d v; exact (filter_dict_set_out (λ k, k ∉ base_dungeons) d
                             (dungeon_Map dungeon) v (λ Hn, Hn Hin))).
  assert (Hkey : ∀ (d : dict string (DungeonDiff Value)) v k,
    k ∈ (dict_set d (dungeon_Map dungeon) v).*1 → k ∈ d.*1 ∨ k ∈ base_dungeons).
  { intros d v k. rewrite dict_set_keys. case_decide; [auto|].
    intros [?|Hk%list_elem_of_singleton]%elem_of_app; [auto|]. subst. auto. }
  destruct (_ ≫= _) as [base_dungeon|]; [|auto].
  destruct (py_ne (Rotate dungeon) _), (py_ne (Translate dungeon) _); [..|auto].
  - destruct (dict_has _ _); cbn [negb];
      (destruct (dict_get _ _); [|try done]); rewrite ?Hset; (split; [done|]);
      intros k; repeat (intros [Hk|?]%Hkey; [revert Hk|auto]); auto.
  - rewrite Hset. split; [done|]. apply Hkey.
  - destruct (dict_has _ _); cbn [negb];
      (destruct (dict_get _ _); [|try done]); rewrite ?Hset; (split; [done|]);
      intros k; repeat (intros [Hk|?]%Hkey; [revert Hk|auto]); auto.
Qed.

(** The entries of the new shrines, in the order of the modified list. *)
Lemma dungeon_fold_new base_pos base_dungeons mod_pos diffs :
  NoDup (dungeon_Map <$> mod_pos) →
  (∀ dungeon, dungeon ∈ mod_pos → dungeon_Map dungeon ∉ base_dungeons →
              dungeon_Map dungeon ∉ diffs.*1) →
  filter (λ kv, kv.1 ∉ base_dungeons) (foldl (dungeon_step base_pos base_dungeons) diffs mod_pos)
  = filter (λ kv, kv.1 ∉ base_dungeons) diffs
    ++ ((λ dungeon, (dungeon_Map dungeon, Whole dungeon))
        <$> filter (λ dungeon, dungeon_Map dungeon ∉ base_dungeons) mod_pos).
Proof.
  revert diffs. induction mod_pos as [|d l IHl]; intros diffs Hnd Hfresh; cbn [foldl].
  - by rewrite app_nil_r.
  - rewrite fmap_cons, NoDup_cons in Hnd. destruct Hnd as [Hd Hnd].
    rewrite filter_cons. destruct (decide (dungeon_Map d ∉ base_dungeons)) as [Hnew|Hold].
    + assert (Hstep : dungeon_step base_pos base_dungeons diffs d
                      = diffs ++ [(dungeon_Map d, Whole d)]).
      { unfold dungeon_step. rewrite (proj2 (py_in_false _ _) Hnew). cbn [negb].
        apply dict_set_fresh. apply Hfresh; [apply elem_of_cons; auto | done]. }
      rewrite Hstep, IHl; [|done|].
      * unfold dict. rewrite filter_app, filter_cons, decide_True by done.
        rewrite fmap_cons, <- app_assoc. done.
      * intros d' Hd' Hn'. rewrite fmap_app, not_elem_of_app. split.
        -- apply Hfresh; [apply elem_of_cons; auto | done].
        -- cbn. rewrite list_elem_of_singleton. intros Heq. apply Hd. rewrite <- Heq.
           by apply list_elem_of_fmap_2.
    + apply dec_stable in Hold.
      destruct (dungeon_step_stock base_pos base_dungeons diffs d Hold) as [Hf Hk].
      rewrite IHl; [by rewrite Hf|done|].
      intros d' Hd' Hn' [?|?]%Hk; [|done].
      by apply (Hfresh d'); [apply elem_of_cons; auto|..].
Qed.

(** After the loop of [merge_dungeonstatic] a stock shrine is updated with
    the diff of its name, and the diffs of the other names are appended in
    the order of the dict. *)
Lemma merge_dungeon_fold base_dungeons start_pos appended diffs :
  NoDup base_dungeons → NoDup diffs.*1 → length start_pos = length base_dungeons →
  let merged := foldl (merge_dungeon_step base_dungeons) (start_pos, appended) diffs in
  (∀ i name, base_dungeons !! i = Some name →
     merged.1 !! i = match dict_get diffs name with
                     | Some diff => (λ record, update_dungeon record diff) <$> start_pos !! i
                     | None => start_pos !! i
                     end) ∧
  length merged.1 = length start_pos ∧
  merged.2 = appended ++ (snd <$> filter (λ kv, kv.1 ∉ base_dungeons) diffs).
Proof.
  intros Hbase. revert start_pos appended.
  induction diffs as [|[k v] diffs IHd]; intros start_pos appended Hnd Hlen merged.
  - subst merged. cbn. split_and!; [done|done|by rewrite app_nil_r].
  - rewrite fmap_cons, NoDup_cons in Hnd. destruct Hnd as [Hk Hnd]. cbn [fst] in Hk.
    subst merged. cbn [foldl]. unfold merge_dungeon_step at 2 4 6. cbn [fst snd].
    unfold dict in *. rewrite filter_cons. cbn [fst].
    destruct (py_in k base_dungeons) eqn:Ein; cbn [negb].
    + apply py_in_true in Ein. rewrite decide_False by (by intros Hn).
      destruct (index_elem_of _ _ Ein) as [j Hj]. rewrite Hj.
      destruct (IHd (alter (λ record, update_dungeon record v) j start_pos) appended Hnd)
        as (Hlook & Hlen' & Happ); [by rewrite length_alter|].
      split_and!; [|by rewrite Hlen', length_alter|done].
      intros i name Hi. rewrite (Hlook i name Hi). cbn [dict_get].
      destruct (decide (k = name)) as [->|Hne].
      * apply dict_get_None in Hk. rewrite Hk.
        assert (j = i) as ->
          by (apply index_lookup in Hj; exact (NoDup_lookup _ _ _ _ Hbase Hj Hi)).
        apply list_lookup_alter_eq.
      * assert (j ≠ i) by (intros ->; apply index_lookup in Hj; congruence).
        rewrite list_lookup_alter_ne by done. done.
    + apply py_in_false in Ein. rewrite decide_True by done.
      destruct (IHd start_pos (appended ++ [v]) Hnd Hlen) as (Hlook & Hlen' & Happ).
      split_and!; [|done|by rewrite Happ, fmap_cons, <- app_assoc].
      intros i name Hi. rewrite (Hlook i name Hi). cbn [dict_get].
      rewrite decide_False; [done|]. intros ->. apply Ein. by eapply list_elem_of_lookup_2.
Qed.

(** The shrines of a modified list diffed against the stock list, the diff
    consolidated and merged into the stock list: every stock shrine stays
    in its place with its other fields, taking the [Rotate] and
    [Translate] that [!=] tells from its own; no stock shrine is dropped;
    and the shrines with a new name follow, whole, in the order of the
    modified list.  Names are unique in both lists. *)
Theorem dungeonstatic_round_trip base_pos mod_pos :
  NoDup (dungeon_Map <$> base_pos) → NoDup (dungeon_Map <$> mod_pos) →
  dungeonstatic_merge base_pos
    (DungeonStaticMerger_consolidate_diffs [dungeonstatic_diff base_pos mod_pos])
  = (Whole <$> (merged_dungeon mod_pos <$> base_pos))
    ++ (Whole <$> filter (λ dungeon, dungeon_Map dungeon ∉ dungeon_Map <$> base_pos) mod_pos).
Proof.
  intros Hbase Hmod.
  pose proof (dungeonstatic_diff_NoDup base_pos mod_pos) as Hkeys.
  assert (DungeonStaticMerger_consolidate_diffs [dungeonstatic_diff base_pos mod_pos]
          = dungeonstatic_diff base_pos mod_pos) as ->.
  { unfold DungeonStaticMerger_consolidate_diffs. cbn [foldl].
    by rewrite foldl_dict_set_fresh. }
  unfold dungeonstatic_merge.
  destruct (merge_dungeon_fold (dungeon_Map <$> base_pos) base_pos []
              (dungeonstatic_diff base_pos mod_pos) Hbase Hkeys)
    as (Hlook & Hlen & Happ); [by rewrite length_fmap|].
  cbv zeta in *. rewrite Happ. cbn [app]. f_equal.
  - f_equal. apply list_eq. intros i. rewrite list_lookup_fmap.
    destruct (base_pos !! i) as [record|] eqn:Ei; cbn.
    + assert (Hname : (dungeon_Map <$> base_pos) !! i = Some (dungeon_Map record))
        by (by rewrite list_lookup_fmap, Ei).
      rewrite (Hlook i _ Hname), Ei. cbn. unfold merged_dungeon.
      destruct (list_find _ mod_pos) as [[j dungeon]|] eqn:Ef.
      * apply list_find_Some in Ef as (Hj & Hn & _).
        assert (Hin : dungeon ∈ mod_pos) by (by eapply list_elem_of_lookup_2).
        rewrite <- Hn, (dungeonstatic_diff_get _ _ _ Hmod Hin), Hn.
        rewrite (index_NoDup _ _ i Hbase Hname). cbn. rewrite Ei. cbv zeta.
        destruct record as [n r t f]. cbn.
        by destruct (py_ne (Rotate dungeon) r), (py_ne (Translate dungeon) t).
      * apply list_find_None in Ef. rewrite Forall_forall in Ef.
        unfold dungeonstatic_diff. rewrite dungeon_fold_other; [done|].
        intros (d & Hd & Hin)%list_elem_of_fmap. by apply (Ef d).
    + apply lookup_ge_None. rewrite Hlen. by apply lookup_ge_None.
  - unfold dungeonstatic_diff.
    rewrite dungeon_fold_new; [|done|by intros ? _ _ ?%elem_of_nil].
    unfold dict. rewrite filter_nil. cbn [app]. rewrite <- list_fmap_compose. reflexivity.
Qed.

End DungeonMerge.

(** ** Game files *)

Section GameFiles.
Context (settings : Settings).

(** With the data directory and [rules.txt] there, nothing is done. *)
Lemma get_master_modpack_dir_ready w :
  path_exists w (data_dir settings) = true →
  path_exists w (rules_path settings) = true →
  get_master_modpack_dir settings w = (inr (master_dir settings), w).
Proof.
  intros Hdata Hrules.
  destruct (get_modpack_dir_effect settings w) as (w1 & Hrun & _ & _ & _ & _ & Hsame & _).
  rewrite (Hsame Hdata) in Hrun. clear Hsame w1.
  unfold get_master_modpack_dir. rewrite (io_bind_run _ _ _ _ _ Hrun).
  unfold reading. unfold mbind at 1, IO_bind. cbn.
  fold (master_dir settings). fold (rules_path settings). by rewrite Hrules.
Qed.

(** [get_master_modpack_dir] always returns the master directory, and
    leaves a [rules.txt] in it: the one that was there, or the default one.
    No other file changes, no directory is lost, and a second call does
    nothing. *)
Theorem get_master_modpack_dir_idempotent (w : World) :
  let run := get_master_modpack_dir settings w in
  run.1 = inr (master_dir settings) ∧
  path_exists run.2 (rules_path settings) = true ∧
  (∀ data, files w !! rules_path settings = Some data →
           files run.2 !! rules_path settings = Some data) ∧
  (path_exists w (rules_path settings) = false →
   files run.2 !! rules_path settings = Some rules_txt) ∧
  (∀ p, p ≠ rules_path settings → files run.2 !! p = files w !! p) ∧
  dirs w ⊆ dirs run.2 ∧
  get_master_modpack_dir settings run.2 = (inr (master_dir settings), run.2).
Proof.
  intros run. subst run.
  destruct (get_master_modpack_dir_effect settings w)
    as (w' & -> & Hf & Hd & Hdata & Hrules & Hnew).
  cbn [fst snd]. split_and!; [done|done| |done| |done|by apply get_master_modpack_dir_ready].
  - intros data Hdata'. destruct Hf as [[-> _]|(Hnone & _)]; [done|congruence].
  - intros p Hp. destruct Hf as [[-> _]|(_ & -> & _)]; [done|]. by apply lookup_insert_ne.
Qed.







End GameFiles.

(** ** Consolidated records *)

Section ConsolidateLogs.
Context {Value : Type} `{!PyEq Value}.
Implicit Types (diffs : list (ModDiff Value)) (mods : list (DiffRecord Value)).

Lemma group_logs_untouched ds (a_diffs a' : dict Map (list (DiffRecord Value))) diffs a_map :
  for_each (for_each (group_step ds)) a_diffs diffs = inr a' →
  (∀ log entry, log ∈ diffs → entry ∈ log → Map_of_file entry.1 ≠ inr a_map) →
  dict_get a' a_map = dict_get a_diffs a_map.
Proof.
  revert a_diffs. induction diffs as [|log diffs IHdiffs]; intros a_diffs; cbn [for_each].
  - by intros [= <-].
  - rewrite bind_inr. intros (a1 & Hlog & Hrest) Hother.
    rewrite (IHdiffs _ Hrest) by (intros l e ?; apply Hother, elem_of_cons; auto).
    apply (group_log_untouched _ _ _ _ _ Hlog). intros e. apply Hother, elem_of_cons. auto.
Qed.

(** The consolidated record of a map unit is made from the log of the
    last mod that names the unit, alone: what the mods before it logged for
    the unit is not in it. *)
Theorem consolidate_diffs_keeps_last_log (pre post : list (ModDiff Value))
    (log : ModDiff Value) (file : string) (a_map : Map) (diff : DiffRecord Value) :
  (∀ l entry, l ∈ pre ++ log :: post → entry ∈ l → ∃ a_map', Map_of_file entry.1 = inr a_map') →
  NoDup log.*1 → (file, diff) ∈ log → Map_of_file file = inr a_map →
  (∀ later entry, later ∈ post → entry ∈ later → Map_of_file entry.1 ≠ inr a_map) →
  ∃ c_diffs,
    consolidate_diffs (pre ++ log :: post) = inr c_diffs ∧
    dict_get c_diffs a_map = Some (consolidate_mods [diff]).
Proof.
  intros Hparse Hnd Hin Hfile Hlater.
  destruct (group_diffs_returns _ Hparse) as [a_diffs Hg].
  assert (Hc : consolidate_diffs (pre ++ log :: post)
               = inr (foldl (λ c_diffs fm, dict_set c_diffs fm.1 (consolidate_mods fm.2))
                        [] a_diffs))
    by (unfold consolidate_diffs; by rewrite Hg).
  eexists. split; [exact Hc|].
  destruct (consolidate_diffs_get _ _ a_map Hc) as (a_diffs' & Hg' & ->).
  assert (a_diffs' = a_diffs) as -> by congruence.
  unfold group_diffs in Hg. rewrite for_each_app in Hg.
  apply bind_inr in Hg as (a0 & _ & Hg). cbn [for_each] in Hg.
  apply bind_inr in Hg as (a1 & Hlog & Hpost).
  rewrite (group_logs_untouched _ _ _ _ _ Hpost Hlater).
  by rewrite (group_log_last _ _ _ _ _ _ _ Hlog Hnd Hin Hfile).
Qed.

Lemma consolidate_mods_NoDup mods :
  NoDup (hashes (diff_add (consolidate_mods mods))) ∧
  NoDup (diff_mod (consolidate_mods mods)).*1 ∧
  NoDup (diff_del (consolidate_mods mods)).
Proof.
  unfold consolidate_mods. cbn [diff_add diff_mod diff_del]. split_and!.
  - unfold consolidate_add.
    destruct (add_loop_inv (reverse mods) ([], [])) as [[Hh Hnd] _];
      [split; [done | apply NoDup_nil_2]|].
    by rewrite <- Hh.
  - unfold consolidate_mod.
    assert (G : ∀ c : dict Z (Actor Value), NoDup c.*1 →
      NoDup (foldl (λ c_mod mod_, foldl (λ c kv, dict_set c kv.1 kv.2) c_mod (diff_mod mod_))
               c mods).*1).
    { induction mods as [|m mods IHmods]; intros c Hc; cbn [foldl]; [done|].
      by apply IHmods, foldl_dict_set_NoDup. }
    apply G. constructor.
  - apply NoDup_elements.
Qed.

(** Whatever the mods logged, a consolidated record names an id at most
    once in [add], in [mod] and in [del], and there is one record per map
    unit. *)
Theorem consolidate_diffs_unique diffs c_diffs :
  consolidate_diffs diffs = inr c_diffs →
  NoDup c_diffs.*1 ∧
  ∀ a_map changes, (a_map, changes) ∈ c_diffs →
    NoDup (hashes (diff_add changes)) ∧ NoDup (diff_mod changes).*1 ∧ NoDup (diff_del changes).
Proof.
  unfold consolidate_diffs. rewrite bind_inr. intros (a_diffs & _ & [= <-]).
  generalize a_diffs. clear a_diffs. intros a_diffs.
  assert (G : ∀ c : dict Map (DiffRecord Value),
    NoDup c.*1 → (∀ m cd, (m, cd) ∈ c → ∃ mods, cd = consolidate_mods mods) →
    let r := foldl (λ c_diffs fm, dict_set c_diffs fm.1 (consolidate_mods fm.2)) c a_diffs in
    NoDup r.*1 ∧ ∀ m cd, (m, cd) ∈ r → ∃ mods, cd = consolidate_mods mods).
  { induction a_diffs as [|[m mods] a IHa]; intros c Hc Hall; cbn [foldl]; [done|].
    apply IHa; [by apply dict_set_NoDup|].
    intros m' cd [?|[= -> ->]]%dict_set_elem; eauto. }
  destruct (G [] (NoDup_nil_2 (A:=Map))) as [Hnd Hall]; [by intros ? ? ?%elem_of_nil|].
  split; [done|]. intros m cd (mods & ->)%Hall. apply consolidate_mods_NoDup.
Qed.

End ConsolidateLogs.

Section MergeMembers.
Context {Value : Type} `{!PyEq Value}.
Implicit Types (objs adds : list (Actor Value)) (stock_hashes : list Z).
Implicit Types (changes : DiffRecord Value).

(** A [mod] entry whose key is no stock id is queued as an addition. *)
Lemma mod_fold_queued stock_hashes (m : dict Z (Actor Value)) objs adds k a :
  (k, a) ∈ m → k ∉ stock_hashes → a ∈ (foldl (mod_step stock_hashes) (objs, adds) m).2.
Proof.
  revert objs adds. induction m as [|[k0 a0] m IHm]; intros objs adds; [by intros ?%elem_of_nil|].
  intros [[= <- <-]|Hin]%elem_of_cons Hk; cbn [foldl];
    [|destruct (mod_step stock_hashes (objs, adds) (k0, a0)); by apply IHm].
  unfold mod_step at 2. cbn [fst snd]. rewrite (proj2 (index_None _ _) Hk).
  rewrite mod_fold_adds. cbn [snd]. rewrite !elem_of_app, list_elem_of_singleton. auto.
Qed.

(** What the merged list of a map unit holds, with deletions enabled: the
    stock objects whose id is not in [del], each replaced by the [mod]
    entry of its id if there is one; and the objects of [add] and of the
    [mod] entries whose id is no stock id.  The stock ids and [del] are
    without repeats and every [mod] entry is keyed by the id of its
    object. *)
Theorem merge_map_members (stock_objs : list (Actor Value)) changes (obj : Actor Value) :
  NoDup (hashes stock_objs) → NoDup (diff_del changes) → NoDup (diff_mod changes).*1 →
  (∀ k a, (k, a) ∈ diff_mod changes → HashId a = k) →
  obj ∈ merge_objs stock_objs changes false ↔
  (∃ stock_obj, stock_obj ∈ stock_objs ∧ (HashId stock_obj ∉ diff_del changes) ∧
                obj = default stock_obj (dict_get (diff_mod changes) (HashId stock_obj))) ∨
  ((HashId obj ∉ hashes stock_objs) ∧
   (obj ∈ diff_add changes ∨ (HashId obj, obj) ∈ diff_mod changes)).
Proof.
  intros Hstock Hdel Hkeys Hkeyed. unfold merge_objs. cbn [negb].
  rewrite sort_by_key_Permutation, mod_fold_adds. cbn [fst snd].
  rewrite merge_objs_stock by done.
  set (stock := foldl (mod_step (hashes stock_objs)) (stock_objs, []) (diff_mod changes)).
  assert (Hlook : ∀ i b, stock_objs !! i = Some b →
            stock.1 !! i = Some (default b (dict_get (diff_mod changes) (HashId b)))).
  { intros i b Hi. subst stock.
    rewrite (mod_fold_lookup _ _ _ _ i (HashId b)); [|done|done|unfold hashes; by rewrite length_fmap|].
    - rewrite Hi. by destruct (dict_get _ _).
    - unfold hashes. by rewrite list_lookup_fmap, Hi. }
  assert (Hid : ∀ b, HashId (default b (dict_get (diff_mod changes) (HashId b))) = HashId b).
  { intros b. destruct (dict_get _ _) as [a|] eqn:E; [|done]. cbn.
    by apply dict_get_Some_elem, Hkeyed in E. }
  rewrite elem_of_app, !list_elem_of_filter, elem_of_app. split.
  - intros [[Hd Hin]|[Hn [Hin|Hin]]].
    + left. apply list_elem_of_lookup_1 in Hin as [i Hi].
      assert (is_Some (stock_objs !! i)) as [b Hb].
      { apply lookup_lt_is_Some. subst stock. rewrite <- (mod_fold_length (hashes stock_objs)
          (diff_mod changes) stock_objs []). by eapply lookup_lt_Some. }
      rewrite (Hlook i b Hb) in Hi. injection Hi as <-. exists b. split_and!.
      * by eapply list_elem_of_lookup_2.
      * by rewrite <- Hid.
      * done.
    + right. auto.
    + right. split; [done|]. right. subst stock.
      apply mod_fold_extra in Hin as [?%elem_of_nil|(k & Hk & _)]; [done|].
      by rewrite (Hkeyed _ _ Hk).
  - intros [(b & Hb & Hd & ->)|[Hn [Hin|Hin]]].
    + left. rewrite Hid. split; [done|]. apply list_elem_of_lookup_1 in Hb as [i Hi].
      apply list_elem_of_lookup. exists i. by apply Hlook.
    + right. auto.
    + right. split; [done|]. right. subst stock. by eapply mod_fold_queued.
Qed.

End MergeMembers.

(** ** [dict_merge] *)

Section DictMergeProps.
Context {Value : Type}.
Implicit Types (dct merge_dct : dict string (Node Value)).

Lemma dict_merge_cons dct k v merge_dct overwrite_lists :
  dict_merge dct ((k, v) :: merge_dct) overwrite_lists
  = dict_merge (dict_set dct k (merged_node (dict_get dct k) v overwrite_lists)) merge_dct
      overwrite_lists.
Proof.
  unfold dict_merge. cbn [dict_merge_node]. f_equal. unfold merged_node.
  destruct (dict_get dct k) as [[d|l|x]|], v as [m|l'|y]; reflexivity.
Qed.

(** After [dict_merge] a key of [merge_dct] holds the value of [merge_dct],
    merged into the old one when both are dicts (with list values of the
    nested dicts always extended) and put behind or in place of the old one
    when both are lists; any other key holds what it held.  The keys of
    [dct] keep their order and the new ones follow in the order of
    [merge_dct]. *)
Theorem dict_merge_get dct merge_dct (overwrite_lists : bool) :
  NoDup merge_dct.*1 →
  (∀ k, dict_get (dict_merge dct merge_dct overwrite_lists) k
        = match dict_get merge_dct k with
          | Some v => Some (merged_node (dict_get dct k) v overwrite_lists)
          | None => dict_get dct k
          end) ∧
  (dict_merge dct merge_dct overwrite_lists).*1
  = dct.*1 ++ filter (λ k, k ∉ dct.*1) merge_dct.*1.
Proof.
  revert dct. induction merge_dct as [|[k v] m IHm]; intros dct Hnd.
  - split; [done|]. cbn. by rewrite app_nil_r.
  - rewrite fmap_cons, NoDup_cons in Hnd. destruct Hnd as [Hk Hnd]. cbn [fst] in Hk.
    rewrite dict_merge_cons. destruct (IHm (dict_set dct k
      (merged_node (dict_get dct k) v overwrite_lists)) Hnd) as [Hget Hkeys]. split.
    + intros k'. rewrite Hget. cbn [dict_get]. destruct (decide (k = k')) as [<-|Hne].
      * apply dict_get_None in Hk. by rewrite Hk, dict_get_set_eq.
      * by rewrite !dict_get_set_ne.
    + rewrite Hkeys, dict_set_keys, fmap_cons, filter_cons. cbn [fst].
      destruct (decide (k ∈ dct.*1)) as [Hin|Hin].
      * by rewrite decide_False by auto.
      * rewrite decide_True by done. rewrite <- app_assoc. cbn [app]. do 2 f_equal.
        apply filter_ext_elem. intros k' Hk'. rewrite not_elem_of_app, list_elem_of_singleton.
        split; [by intros [? _]|]. intros ?. split; [done|]. by intros ->.
Qed.

End DictMergeProps.

(** * The statements on concrete inputs *)

Import Examples.

(** Two mods add and modify object 5 of A-1_Dynamic: the second one's
    payload is the consolidated one. *)
Lemma consolidate_diffs_last_mod_wins_witness :
  ∃ cd,
    consolidate_diffs [ [("A-1_Dynamic", mkDiff [actor 5 "X"] [(5, actor 5 "X")] [])];
                        [("A-1_Dynamic", mkDiff [actor 5 "Y"] [(5, actor 5 "Y")] [])] ]
    = inr [(a1_dynamic, cd)] ∧
    actor 5 "Y" ∈ diff_add cd ∧ dict_get (diff_mod cd) 5 = Some (actor 5 "Y").
Proof.
  destruct (consolidate_diffs_last_mod_wins
              [ [("A-1_Dynamic", mkDiff [actor 5 "X"] [(5, actor 5 "X")] [])] ]
              [("A-1_Dynamic", mkDiff [actor 5 "Y"] [(5, actor 5 "Y")] [])]
              "A-1_Dynamic" a1_dynamic (mkDiff [actor 5 "Y"] [(5, actor 5 "Y")] []))
    as (c & cd & Hc & Hcd & Hadd & Hmod).
  - intros log entry Hlog Hentry. exists a1_dynamic.
    apply elem_of_cons in Hlog as [->|Hlog];
      [|apply list_elem_of_singleton in Hlog as ->];
      apply list_elem_of_singleton in Hentry as ->; reflexivity.
  - apply NoDup_singleton.
  - apply list_elem_of_singleton. reflexivity.
  - reflexivity.
  - assert (Hval : consolidate_diffs
                     ([ [("A-1_Dynamic", mkDiff [actor 5 "X"] [(5, actor 5 "X")] [])] ]
                      ++ [ [("A-1_Dynamic", mkDiff [actor 5 "Y"] [(5, actor 5 "Y")] [])] ])
                   = inr [(a1_dynamic, mkDiff [actor 5 "Y"] [(5, actor 5 "Y")] [])])
      by (vm_compute; reflexivity).
    pose proof (eq_trans (eq_sym Hc) Hval) as Heq. injection Heq as ->.
    cbn in Hcd. injection Hcd as <-.
    exists (mkDiff [actor 5 "Y"] [(5, actor 5 "Y")] []). split; [exact Hval|]. split.
    + apply (Hadd (actor 5 "Y")).
      * apply list_elem_of_singleton. reflexivity.
      * intros Y' HY'%list_elem_of_singleton _. exact HY'.
    + apply Hmod; [apply NoDup_singleton | reflexivity].
Defined.

(** C1 fails as stated: mod A adds object 5 with payload X, mod B, of higher
    priority, adds it with payload Y, and the consolidated [add] list is
    [Y] alone. *)
Lemma consolidate_diffs_add_keeps_highest_priority :
  consolidate_diffs [ [("A-1_Dynamic", mkDiff [actor 5 "X"] [] [])];
                      [("A-1_Dynamic", mkDiff [actor 5 "Y"] [] [])] ]
  = inr [(a1_dynamic, mkDiff [actor 5 "Y"] [] [])] ∧
  actor 5 "X" ∉ [actor 5 "Y"].
Proof. split; [vm_compute; reflexivity|]. by intros [=]%list_elem_of_singleton. Qed.

(** C2, where the code departs from it.  Two mods log a diff for
    A-1_Dynamic, the first deleting object 1 and the second object 2:
    the consolidated [del] is [2], not the union.  The test
    [a_map not in diffs] looks the key up in the list of logs, where it
    never is, so each log starts the group of its maps afresh. *)
Theorem consolidate_diffs_del_keeps_last_mod_only :
  consolidate_diffs (Value:=string)
    [ [("A-1_Dynamic", mkDiff [] [] [1])]; [("A-1_Dynamic", mkDiff [] [] [2])] ]
  = inr [(a1_dynamic, mkDiff [] [] [2])].
Proof. vm_compute. reflexivity. Qed.

(** The modified map has a hard-mode actor and the DLC pack holds the
    map: the diff against it is empty.  And a dump that lost its update
    directory: the first call of [get_update_dir] raises, the title pack
    is found under the game directory, and an unmarked map is compared
    with the member of the title pack. *)
Lemma get_map_diff_baseline_witness :
  existsb (hard_mode_marker (toy_lib 4)) (Objs hard_mode_map) = true ∧
  (get_aoc_dir toy_settings game_dump).1 = inr ["dlc"] ∧
  (get_map_diff (toy_lib 4) toy_settings (inr a1_dynamic) hard_mode_map false false
     game_dump).1 = inr (mkDiff [] [] []) ∧
  existsb (hard_mode_marker (toy_lib 4)) (Objs plain_map) = false ∧
  (get_update_dir toy_settings no_update_dump).1 = inl FileNotFoundError ∧
  (get_game_file toy_settings (inr "Pack/TitleBG.pack") false
     (get_update_dir toy_settings no_update_dump).2).1 = inr ["game"; "Pack"; "TitleBG.pack"] ∧
  (get_map_diff (toy_lib 4) toy_settings (inr a1_dynamic) plain_map false false
     no_update_dump).1 = inr (mkDiff [toy_actor Byte.x02] [] []).
Proof.
  split; [reflexivity|]. split; [reflexivity|]. split.
  { rewrite (proj1 (get_map_diff_baseline (toy_lib 4) toy_settings game_dump a1_dynamic
                      hard_mode_map false false)
               ["dlc"] (get_aoc_dir toy_settings game_dump).2 eq_refl eq_refl).
    vm_compute. reflexivity. }
  split; [reflexivity|]. split; [reflexivity|]. split; [vm_compute; reflexivity|].
  destruct (get_map_diff_baseline (toy_lib 4) toy_settings no_update_dump a1_dynamic
              plain_map false false)
    as (_ & Hvanilla & _ & _ & _ & _ & Htitle & Hpack).
  rewrite (Hvanilla (inr ["dlc"]) (get_aoc_dir toy_settings no_update_dump).2 eq_refl
             (or_introl eq_refl)).
  rewrite (Htitle (get_aoc_dir toy_settings no_update_dump).2
             (get_update_dir toy_settings (get_aoc_dir toy_settings no_update_dump).2).2
             (or_introl eq_refl)).
  rewrite (Hpack (get_update_dir toy_settings (get_aoc_dir toy_settings no_update_dump).2).2
             None ["game"; "Pack"; "TitleBG.pack"]
             (get_game_file toy_settings (inr "Pack/TitleBG.pack") false
                (get_update_dir toy_settings
                   (get_aoc_dir toy_settings no_update_dump).2).2).2
             [Byte.x01] [(map_file, [Byte.x01])] eq_refl eq_refl eq_refl).
  vm_compute. reflexivity.
Defined.

(** C3 fails as stated: the modified map carries a marker, the vanilla
    baseline has object 1 only, and a diff against it would add object
    200; the diff [get_map_diff] returns adds nothing, being taken against
    the DLC baseline. *)
Lemma get_map_diff_marker_uses_dlc_baseline :
  existsb (hard_mode_marker (toy_lib 4)) (Objs hard_mode_map) = true ∧
  (get_stock_map (toy_lib 4) toy_settings a1_dynamic true game_dump).1
  = inr (mkDocument [toy_actor Byte.x01] "") ∧
  (get_map_diff (toy_lib 4) toy_settings
     (inl (mkDocument [toy_actor Byte.x01] "")) hard_mode_map false false game_dump).1
  = inr (mkDiff [toy_actor Byte.xc8] [] []) ∧
  (get_map_diff (toy_lib 4) toy_settings (inr a1_dynamic) hard_mode_map false false
     game_dump).1
  = inr (mkDiff [] [] []).
Proof. split_and!; vm_compute; reflexivity. Qed.

(** The end-to-end example: object 1 removed, object 2 updated, object 3
    added. *)
Lemma merge_map_sorted_witness :
  NoDup (hashes [actor 1 "a"; actor 2 "b"]) ∧
  StronglySorted Z.lt
    (hashes (merge_objs [actor 1 "a"; actor 2 "b"]
               (mkDiff [actor 3 "c"] [(2, actor 2 "B")] [1]) false)) ∧
  merge_objs [actor 1 "a"; actor 2 "b"] (mkDiff [actor 3 "c"] [(2, actor 2 "B")] [1]) false
  = [actor 2 "B"; actor 3 "c"].
Proof.
  assert (Hstock : NoDup (hashes [actor 1 "a"; actor 2 "b"])).
  { apply (bool_decide_unpack _). vm_compute. reflexivity. }
  split; [exact Hstock|]. split; [|vm_compute; reflexivity].
  apply (proj2 merge_map_sorted).
  - exact Hstock.
  - intros k a Hin%list_elem_of_singleton. by injection Hin as -> ->.
  - apply NoDup_singleton.
  - apply NoDup_singleton.
  - intros k Hk%list_elem_of_singleton Ha%list_elem_of_singleton. subst. discriminate.
Defined.

(** C5 fails as stated: object 7 is not in the stock map, [mod] has an
    entry for it and [add] has a record of it; both are appended. *)
Lemma merge_map_duplicate_ids :
  hashes (merge_objs [actor 1 "a"] (mkDiff [actor 7 "b"] [(7, actor 7 "a")] []) false)
  = [1; 7; 7].
Proof. vm_compute. reflexivity. Qed.

(** Adding objects 3 and 1 to a map that has object 1 adds object 3. *)
Lemma merge_map_add_existing_dropped_witness :
  HashId (actor 1 "b") ∈ hashes [actor 1 "a"; actor 2 "b"] ∧
  merge_objs [actor 1 "a"; actor 2 "b"] (mkDiff [actor 3 "c"; actor 1 "b"] [] []) false
  = merge_objs [actor 1 "a"; actor 2 "b"] (mkDiff [actor 3 "c"] [] []) false.
Proof.
  assert (Hin : HashId (actor 1 "b") ∈ hashes [actor 1 "a"; actor 2 "b"]).
  { apply (bool_decide_unpack _). vm_compute. reflexivity. }
  split; [exact Hin|].
  exact (merge_map_add_existing_dropped [actor 1 "a"; actor 2 "b"]
           (mkDiff [actor 3 "c"; actor 1 "b"] [] []) false [actor 3 "c"] [] (actor 1 "b")
           eq_refl Hin).
Defined.

(** C6 fails as stated: an [add] record for stock object 1 leaves the
    stock object as it is, where a [mod] entry would have replaced it. *)
Lemma merge_map_add_existing_not_a_mod :
  merge_objs [actor 1 "a"] (mkDiff [actor 1 "b"] [] []) false = [actor 1 "a"] ∧
  merge_objs [actor 1 "a"] (mkDiff [] [(1, actor 1 "b")] []) false = [actor 1 "b"].
Proof. split; vm_compute; reflexivity. Qed.

(** Object 1 is deleted and added again: it is gone. *)
Lemma merge_map_deletion_wins_witness :
  NoDup (hashes [actor 1 "a"; actor 2 "b"]) ∧
  (∀ obj, obj ∈ merge_objs [actor 1 "a"; actor 2 "b"]
                  (mkDiff [actor 1 "new"] [] [1]) false → HashId obj ≠ 1) ∧
  merge_objs [actor 1 "a"; actor 2 "b"] (mkDiff [actor 1 "new"] [] [1]) false
  = [actor 2 "b"].
Proof.
  assert (Hstock : NoDup (hashes [actor 1 "a"; actor 2 "b"])).
  { apply (bool_decide_unpack _). vm_compute. reflexivity. }
  split; [exact Hstock|]. split; [|vm_compute; reflexivity].
  apply (merge_map_deletion_wins [actor 1 "a"; actor 2 "b"]
           (mkDiff [actor 1 "new"] [] [1]) 1 (actor 1 "new")).
  - exact Hstock.
  - apply NoDup_singleton.
  - intros k b Hin. by apply elem_of_nil in Hin.
  - apply (bool_decide_unpack _). vm_compute. reflexivity.
  - apply list_elem_of_singleton. reflexivity.
  - apply list_elem_of_singleton. reflexivity.
  - reflexivity.
Defined.

(** No mod has a map log: the merge returns and leaves no [map.log]. *)
Lemma perform_merge_noop_witness :
  consolidate_diffs (Value:=string) [] = inr [] ∧
  (perform_merge (toy_lib 4) toy_settings [] false false merged_before).1 = inr () ∧
  files (perform_merge (toy_lib 4) toy_settings [] false false merged_before).2
    !! (master_dir toy_settings ++ ["logs"; "map.log"]) = None.
Proof.
  split; [reflexivity|].
  destruct (perform_merge_noop (toy_lib 4) toy_settings [] false false merged_before eq_refl)
    as (_ & Hlog & _ & Hret).
  split; [|exact Hlog]. apply Hret. vm_compute. intros H. discriminate H.
Defined.

(** C7 fails as stated: with no mod logged, the merge still writes the
    emptied [AocMainField.pack], and it removes [map.log] rather than
    write an empty one. *)
Lemma perform_merge_noop_writes :
  (perform_merge (toy_lib 4) toy_settings [] false false merged_before).1 = inr () ∧
  written (perform_merge (toy_lib 4) toy_settings [] false false merged_before).2
  = [ ["data"; "mods"; "9999_BCML"; "aoc"; "0010"; "Pack"; "AocMainField.pack"] ] ∧
  files (perform_merge (toy_lib 4) toy_settings [] false false merged_before).2
    !! ["data"; "mods"; "9999_BCML"; "logs"; "map.log"] = None.
Proof. split_and!; vm_compute; reflexivity. Qed.

(** One CPU and one map unit to merge: [perform_merge] ends in
    ValueError. *)
Example perform_merge_single_cpu_fails :
  (perform_merge (toy_lib 1) toy_settings
     [ [("A-1_Dynamic", mkDiff [actor 5 "X"] [] [1])] ] false false game_dump).1
  = inl ValueError.
Proof. vm_compute. reflexivity. Qed.

(** One shrine moved and one new shrine. *)
Lemma get_dungeonstatic_diff_fields_witness :
  NoDup (dungeon_Map <$> [shrine "CDungeon/Dungeon000" 0 10; shrine "CDungeon/Dungeon200" 0 7]) ∧
  dict_get (dungeonstatic_diff [shrine "CDungeon/Dungeon000" 0 5]
              [shrine "CDungeon/Dungeon000" 0 10; shrine "CDungeon/Dungeon200" 0 7])
    "CDungeon/Dungeon000" = Some (Partial None (Some 10)) ∧
  dict_get (dungeonstatic_diff [shrine "CDungeon/Dungeon000" 0 5]
              [shrine "CDungeon/Dungeon000" 0 10; shrine "CDungeon/Dungeon200" 0 7])
    "CDungeon/Dungeon200" = Some (Whole (shrine "CDungeon/Dungeon200" 0 7)).
Proof.
  assert (Hnd : NoDup (dungeon_Map <$> [shrine "CDungeon/Dungeon000" 0 10;
                                        shrine "CDungeon/Dungeon200" 0 7])).
  { apply (bool_decide_unpack _). vm_compute. reflexivity. }
  split; [exact Hnd|]. split.
  - apply (proj2 (get_dungeonstatic_diff_fields [shrine "CDungeon/Dungeon000" 0 5] _
                    (shrine "CDungeon/Dungeon000" 0 10) Hnd
                    ltac:(apply elem_of_cons; left; reflexivity))
             0%nat (shrine "CDungeon/Dungeon000" 0 5)).
    vm_compute. reflexivity.
  - apply (proj1 (get_dungeonstatic_diff_fields [shrine "CDungeon/Dungeon000" 0 5] _
                    (shrine "CDungeon/Dungeon200" 0 7) Hnd
                    ltac:(apply elem_of_cons; right; apply list_elem_of_singleton;
                          reflexivity))).
    apply (bool_decide_unpack _). vm_compute. reflexivity.
Defined.

(** C9 fails as stated: the modified list names a shrine twice, once
    rotated and once moved.  The entry holds both fields, although the
    first record has the stock [Translate] and the second the stock
    [Rotate]. *)
Lemma get_dungeonstatic_diff_repeated_name :
  dungeonstatic_diff [shrine "CDungeon/Dungeon000" 0 0]
    [shrine "CDungeon/Dungeon000" 90 0; shrine "CDungeon/Dungeon000" 0 10]
  = [("CDungeon/Dungeon000", Partial (Some 90) (Some 10))] ∧
  py_ne (Translate (shrine "CDungeon/Dungeon000" 90 0))
        (Translate (shrine "CDungeon/Dungeon000" 0 0)) = false ∧
  py_ne (Rotate (shrine "CDungeon/Dungeon000" 0 10))
        (Rotate (shrine "CDungeon/Dungeon000" 0 0)) = false.
Proof. split_and!; vm_compute; reflexivity. Qed.

(** Four CPUs and one map unit: one worker. *)
Lemma num_threads_two_cpus_witness :
  num_threads 4 [(a1_dynamic, mkDiff [actor 5 "X"] [] [])] = 1 ∧
  Pool (num_threads 4 [(a1_dynamic, mkDiff [actor 5 "X"] [] [])]) = inr 1.
Proof.
  destruct (num_threads_two_cpus 4 [(a1_dynamic, mkDiff [actor 5 "X"] [] [])]) as [H1 H2].
  - lia.
  - discriminate.
  - split; [exact H1 | exact H2].
Defined.

(** The two map units of the mod, in ascending order. *)
Lemma consolidate_map_files_sorted_witness :
  consolidate_map_files mod_files = inr [a1_dynamic; b2_static] ∧
  StronglySorted (λ a b, Map_lt a b = true) [a1_dynamic; b2_static].
Proof.
  destruct (consolidate_map_files_sorted mod_files) as (maps & Hrun & Hsorted & _).
  - intros path Hin _. apply elem_of_cons in Hin as [->|Hin];
      [|apply list_elem_of_singleton in Hin as ->]; eexists; vm_compute; reflexivity.
  - assert (Hval : consolidate_map_files mod_files = inr [a1_dynamic; b2_static])
      by (vm_compute; reflexivity).
    pose proof (eq_trans (eq_sym Hrun) Hval) as Heq. injection Heq as ->.
    split; [exact Hval | exact Hsorted].
Defined.

(** A backup copy of a map unit among the files of a mod. *)
Lemma generate_diff_raises_witness :
  generate_diff (toy_lib 4) toy_settings ["mod"]
    [inl ["mod"; "content"; "Map"; "MainField"; "A-1"; "A-1_Dynamic.smubin"];
     inl ["mod"; "content"; "Map"; "MainField"; "A-1"; "A-1_Dynamic_old.smubin"]]
    false false modded_dump
  = (inl TypeError, modded_dump).
Proof.
  apply (generate_diff_raises (toy_lib 4) toy_settings modded_dump ["mod"] _ false false
           ["mod"; "content"; "Map"; "MainField"; "A-1"; "A-1_Dynamic_old.smubin"]).
  - apply elem_of_cons. right. apply list_elem_of_singleton. reflexivity.
  - vm_compute. reflexivity.
  - vm_compute. reflexivity.
  - vm_compute. intros H. discriminate H.
Defined.

(** The log of the mod: object 2 is added to A-1_Dynamic. *)
Lemma generate_diff_consolidates_witness :
  (generate_diff (toy_lib 4) toy_settings ["mod"]
     [inl ["mod"; "content"; "Map"; "MainField"; "A-1"; "A-1_Dynamic.smubin"]] false false
     modded_dump).1
  = inr [("A-1_Dynamic", mkDiff [toy_actor Byte.x02] [] [])] ∧
  ∃ c_diffs,
    consolidate_diffs [ [("A-1_Dynamic", mkDiff [toy_actor Byte.x02] [] [])] ] = inr c_diffs.
Proof.
  assert (Hlog : (generate_diff (toy_lib 4) toy_settings ["mod"]
                    [inl ["mod"; "content"; "Map"; "MainField"; "A-1"; "A-1_Dynamic.smubin"]]
                    false false modded_dump).1
                 = inr [("A-1_Dynamic", mkDiff [toy_actor Byte.x02] [] [])])
    by (vm_compute; reflexivity).
  split; [exact Hlog|].
  apply (generate_diff_consolidates (toy_lib 4) toy_settings).
  intros log Hin. apply list_elem_of_singleton in Hin as ->.
  exists modded_dump, ["mod"],
    [inl ["mod"; "content"; "Map"; "MainField"; "A-1"; "A-1_Dynamic.smubin"]], false, false.
  exact Hlog.
Defined.

(** The modded A-1_Dynamic is the loose file among the base content. *)
Lemma get_modded_map_sources_witness :
  path_exists modded_dump
    (modded_aoc_dir modded_dump ["mod"] ++ ["Pack"; "AocMainField.pack"]) = false ∧
  get_modded_map (toy_lib 4) modded_dump a1_dynamic ["mod"]
  = inr (mkDocument [toy_actor Byte.x01; toy_actor Byte.x02] "").
Proof.
  assert (Hpack : path_exists modded_dump
                    (modded_aoc_dir modded_dump ["mod"] ++ ["Pack"; "AocMainField.pack"])
                  = false) by (vm_compute; reflexivity).
  split; [exact Hpack|].
  destruct (get_modded_map_sources (toy_lib 4) modded_dump a1_dynamic ["mod"]) as [_ Hloose].
  destruct (Hloose Hpack) as (_ & Hcontent & _).
  rewrite Hcontent; vm_compute; reflexivity.
Defined.

(** The modded B-2_Static lies under [aoc/0010/content] only. *)
Lemma get_modded_map_content_layout_witness :
  path_exists modded_dump (["mod"; "aoc"; "0010"; "content"] ++ map_path b2_static) = true ∧
  get_modded_map (toy_lib 4) modded_dump b2_static ["mod"] = inl FileNotFoundError.
Proof.
  split; [vm_compute; reflexivity|].
  apply get_modded_map_content_layout; vm_compute; reflexivity.
Defined.

(** Object 3 is new and object 2 has another payload. *)
Lemma get_map_diff_add_mod_witness :
  diff_add (get_map_diff_loaded [actor 1 "a"; actor 2 "b"] [actor 3 "c"; actor 2 "B"]
              false false) = [actor 3 "c"] ∧
  dict_get (diff_mod (get_map_diff_loaded [actor 1 "a"; actor 2 "b"]
                        [actor 3 "c"; actor 2 "B"] false false)) 2
  = Some (actor 2 "B").
Proof.
  destruct (get_map_diff_add_mod [actor 1 "a"; actor 2 "b"] [actor 3 "c"; actor 2 "B"]
              false false) as (Hadd & _ & _ & Hmod).
  split; [rewrite Hadd; vm_compute; reflexivity|].
  apply (Hmod ltac:(apply (bool_decide_unpack _); vm_compute; reflexivity)
           (actor 2 "B") (actor 2 "b")).
  - apply elem_of_cons. right. apply list_elem_of_singleton. reflexivity.
  - vm_compute. reflexivity.
Defined.

(** A map with objects 1 and 2 against itself. *)
Lemma get_map_diff_self_witness :
  get_map_diff_loaded [actor 1 "a"; actor 2 "b"] [actor 1 "a"; actor 2 "b"] false false
  = mkDiff [] [] [].
Proof.
  apply get_map_diff_self.
  - apply (bool_decide_unpack _). vm_compute. reflexivity.
  - intros obj Hin. apply elem_of_cons in Hin as [->|Hin];
      [|apply list_elem_of_singleton in Hin as ->]; vm_compute; reflexivity.
Defined.

(** The end-to-end example as a round trip: the modified map has object 2
    with a new payload and object 3, and lacks object 1. *)
Lemma merge_map_round_trip_witness :
  merge_objs [actor 1 "a"; actor 2 "b"]
    (consolidate_mods [get_map_diff_loaded [actor 1 "a"; actor 2 "b"]
                         [actor 3 "c"; actor 2 "B"] false true]) false
  = [actor 2 "B"; actor 3 "c"].
Proof.
  destruct (merge_map_round_trip [actor 1 "a"; actor 2 "b"] [actor 3 "c"; actor 2 "B"] true)
    as [_ Hsound].
  - apply (bool_decide_unpack _). vm_compute. reflexivity.
  - apply (bool_decide_unpack _). vm_compute. reflexivity.
  - left. reflexivity.
  - rewrite Hsound; [vm_compute; reflexivity|].
    intros obj base_obj Hobj Hbase Heq.
    apply elem_of_cons in Hobj as [->|Hobj];
      [|apply list_elem_of_singleton in Hobj as ->];
      (apply elem_of_cons in Hbase as [->|Hbase];
         [|apply list_elem_of_singleton in Hbase as ->]);
      vm_compute in Heq; discriminate Heq.
Defined.

(** Object 1 is to be deleted and [no_del] is set. *)
Lemma merge_map_no_del_keeps_stock_witness :
  1 ∈ hashes (merge_objs [actor 1 "a"; actor 2 "b"] (mkDiff [] [(2, actor 2 "B")] [1]) true).
Proof.
  apply merge_map_no_del_keeps_stock.
  - intros k a Hin%list_elem_of_singleton. by injection Hin as -> ->.
  - apply (bool_decide_unpack _). vm_compute. reflexivity.
Defined.

(** The [mod] entry of object 7, which the stock map lacks, is merged as
    an addition. *)
Lemma merge_map_members_witness :
  actor 7 "new" ∈ merge_objs [actor 1 "a"; actor 2 "b"]
                    (mkDiff [] [(7, actor 7 "new")] [1]) false.
Proof.
  apply merge_map_members.
  - apply (bool_decide_unpack _). vm_compute. reflexivity.
  - apply NoDup_singleton.
  - apply NoDup_singleton.
  - intros k a Hin%list_elem_of_singleton. by injection Hin as -> ->.
  - right. split.
    + apply (bool_decide_unpack _). vm_compute. reflexivity.
    + right. apply list_elem_of_singleton. reflexivity.
Defined.

(** Two mods move the same shrine: the second one's entry is the
    consolidated one, without the rotation of the first. *)
Lemma DungeonStaticMerger_consolidate_last_witness :
  dict_get (DungeonStaticMerger_consolidate_diffs
              [ [("CDungeon/Dungeon000", Partial (Some 90) (Some 5))];
                [("CDungeon/Dungeon000", Partial None (Some 10))] ])
    "CDungeon/Dungeon000"
  = Some (Partial None (Some 10)).
Proof.
  apply (DungeonStaticMerger_consolidate_last
           [ [("CDungeon/Dungeon000", Partial (Some 90) (Some 5))] ] []
           [("CDungeon/Dungeon000", Partial None (Some 10))]).
  - apply NoDup_singleton.
  - reflexivity.
  - intros later Hin. by apply elem_of_nil in Hin.
Defined.

(** One shrine moved and one new shrine, merged back. *)
Lemma dungeonstatic_round_trip_witness :
  dungeonstatic_merge [shrine "CDungeon/Dungeon000" 0 5]
    (DungeonStaticMerger_consolidate_diffs
       [dungeonstatic_diff [shrine "CDungeon/Dungeon000" 0 5]
          [shrine "CDungeon/Dungeon000" 0 10; shrine "CDungeon/Dungeon200" 0 7]])
  = [Whole (shrine "CDungeon/Dungeon000" 0 10); Whole (shrine "CDungeon/Dungeon200" 0 7)].
Proof.
  rewrite dungeonstatic_round_trip.
  - vm_compute. reflexivity.
  - apply NoDup_singleton.
  - apply (bool_decide_unpack _). vm_compute. reflexivity.
Defined.

(** Three mods: the first two log A-1_Dynamic, the third another unit. *)
Lemma consolidate_diffs_keeps_last_log_witness :
  ∃ c_diffs,
    consolidate_diffs [ [("A-1_Dynamic", mkDiff [actor 5 "X"] [] [1])];
                        [("A-1_Dynamic", mkDiff [] [] [2])];
                        [("B-2_Static", mkDiff [actor 6 "Z"] [] [])] ] = inr c_diffs ∧
    dict_get c_diffs a1_dynamic = Some (consolidate_mods [mkDiff [] [] [2]]).
Proof.
  apply (consolidate_diffs_keeps_last_log
           [ [("A-1_Dynamic", mkDiff [actor 5 "X"] [] [1])] ]
           [ [("B-2_Static", mkDiff [actor 6 "Z"] [] [])] ]
           [("A-1_Dynamic", mkDiff [] [] [2])] "A-1_Dynamic").
  - intros l entry Hl Hentry.
    repeat (apply elem_of_cons in Hl as [->|Hl];
            [apply list_elem_of_singleton in Hentry as ->; eexists; reflexivity|]).
    by apply elem_of_nil in Hl.
  - apply NoDup_singleton.
  - apply list_elem_of_singleton. reflexivity.
  - reflexivity.
  - intros later entry Hl%list_elem_of_singleton Hentry. subst later.
    apply list_elem_of_singleton in Hentry as ->. vm_compute. intros H. discriminate H.
Defined.

(** Two mods that add object 5 to the same unit. *)
Lemma consolidate_diffs_unique_witness :
  ∃ c_diffs,
    consolidate_diffs [ [("A-1_Dynamic", mkDiff [actor 5 "X"; actor 5 "Y"] [] [1; 1])] ]
    = inr c_diffs ∧
    NoDup c_diffs.*1 ∧
    ∀ a_map changes, (a_map, changes) ∈ c_diffs →
      NoDup (hashes (diff_add changes)) ∧ NoDup (diff_del changes).
Proof.
  eexists. split; [vm_compute; reflexivity|].
  destruct (consolidate_diffs_unique
              [ [("A-1_Dynamic", mkDiff [actor 5 "X"; actor 5 "Y"] [] [1; 1])] ] _
              ltac:(vm_compute; reflexivity)) as [Hkeys Hall].
  split; [exact Hkeys|]. intros a_map changes Hin.
  destruct (Hall a_map changes Hin) as (Ha & _ & Hd). split; [exact Ha | exact Hd].
Defined.

(** A nested dict: the list under [b] is extended although
    [overwrite_lists] is set. *)
Lemma dict_merge_get_witness :
  dict_get
    (dict_merge
       [("a", NList [NOther 1]); ("n", NDict [("b", NList [NOther 2])])]
       [("a", NList [NOther 3]); ("n", NDict [("b", NList [NOther 4])])] true) "n"
  = Some (NDict [("b", NList [NOther 2; NOther 4])]).
Proof.
  assert (Hnd : NoDup [("a", NList [NOther 3]); ("n", NDict [("b", NList [NOther 4])])].*1).
  { apply (bool_decide_unpack _). vm_compute. reflexivity. }
  rewrite (proj1 (dict_merge_get
                    [("a", NList [NOther 1]); ("n", NDict [("b", NList [NOther 2])])]
                    [("a", NList [NOther 3]); ("n", NDict [("b", NList [NOther 4])])]
                    true Hnd)).
  vm_compute. reflexivity.
Defined.
